(** * Greenmask: subset SQL fragments and transformation config builder

    A shallow embedding of
      - the SQL fragment builder of package [subset] (shorten,
        generateWhereClause, generateSelectAllColumns, buildWithClause),
      - the recursive-CTE query holder of package [subset] (cteQuery),
      - the default anonymizers of package [transformers],
      - the config builder of package [context] (setConfigToEntries,
        reference propagation, partition expansion, auto-anonymize),
    together with the properties the specification states about them.

    Conventions.
      - A Go [string] is a Rocq [string] (a sequence of bytes); [len] is
        [String.length].
      - A Go [map[string]T] is a [gmap string T]; a missing key reads as the
        zero value, written [default].
      - A Go [panic] is the [Panic] constructor of [result].
      - A Go [(T, error)] return is a pair whose second component is an
        [option] error message ([None] for [nil]).
      - A Go [*entries.Table] is the entry record as listed, read through
        the store of the fields that were written through such pointers
        ([entryStore]).
      - What the program takes from outside (the catalog queries, the
        initialization of a transformer, the Unicode case tables) is a
        variable of a section. *)

From Stdlib Require Import ZArith Ascii String List Lia Bool DecimalString.
From stdpp Require Import base option list gmap sets strings sorting.

#[local] Set Warnings "-clear-no-such-hyp".

Local Open Scope stdpp_scope.
Local Open Scope Z_scope.
Local Open Scope nat_scope.

(** ** Go runtime helpers *)

Module GoStrings.

(** The one-byte string holding a double quote (byte 34). *)
Definition dquote : string := String (ascii_of_nat 34) EmptyString.

(** [fmt.Sprintf] of a format that wraps [%s] in double quotes. *)
Definition quoted (s : string) : string := dquote +:+ s +:+ dquote.

(** [strings.Join(elems, sep)]. *)
Definition Join (elems : list string) (sep : string) : string :=
  String.concat sep elems.

(** [strings.HasPrefix(s, prefix)]. *)
Fixpoint HasPrefix (s prefix : string) : bool :=
  match prefix, s with
  | EmptyString, _ => true
  | String _ _, EmptyString => false
  | String b p, String a s' => Ascii.eqb a b && HasPrefix s' p
  end.

(** [strings.HasSuffix(s, suffix)]. *)
Definition HasSuffix (s suffix : string) : bool :=
  let n := String.length s in
  let k := String.length suffix in
  (k <=? n) && String.eqb (String.substring (n - k) k s) suffix.

(** [strings.Contains(s, substr)]: some suffix of [s] starts with
    [substr]. *)
Fixpoint Contains (s substr : string) : bool :=
  HasPrefix s substr ||
  match s with
  | EmptyString => false
  | String _ s' => Contains s' substr
  end.

(** Number of (possibly overlapping) positions of [s] at which [substr]
    starts; used to state "occurs exactly once". *)
Fixpoint occurrences (s substr : string) : nat :=
  (if HasPrefix s substr then 1 else 0) +
  match s with
  | EmptyString => 0
  | String _ s' => occurrences s' substr
  end.

(** Lower-casing of one ASCII byte (bytes 65..90 are moved to 97..122). *)
Definition lowerByte (a : ascii) : ascii :=
  let n := nat_of_ascii a in
  if (65 <=? n) && (n <=? 90) then ascii_of_nat (n + 32) else a.

(** The ASCII branch of [strings.ToLower]: every byte lower-cased. *)
Fixpoint asciiToLower (s : string) : string :=
  match s with
  | EmptyString => EmptyString
  | String a s' => String (lowerByte a) (asciiToLower s')
  end.

(** The test [strings.ToLower] starts with: no byte of [s] reaches
    [utf8.RuneSelf] (128). *)
Fixpoint isASCII (s : string) : bool :=
  match s with
  | EmptyString => true
  | String a s' => (nat_of_ascii a <? 128) && isASCII s'
  end.

(** [strings.ToLower].  A string of ASCII bytes is lower-cased byte by
    byte; any other string goes through [strings.Map(unicode.ToLower, s)],
    which follows the Unicode case tables and stays a parameter,
    [unicodeToLower], of everything that lower-cases a string. *)
Definition ToLower (unicodeToLower : string -> string) (s : string) : string :=
  if isASCII s then asciiToLower s else unicodeToLower s.

(** [fmt.Sprintf] of [%d] for a number that is not negative. *)
Definition decimal (n : nat) : string :=
  NilEmpty.string_of_uint (Nat.to_uint n).

(** The message of the panic the runtime raises at [a[i]] when [i] is not
    below the length [n] of [a]. *)
Definition indexOutOfRange (i n : nat) : string :=
  "runtime error: index out of range [" +:+ decimal i +:+ "] with length " +:+ decimal n.

(** [slices.Contains] on strings. *)
Definition slicesContains (l : list string) (x : string) : bool :=
  existsb (String.eqb x) l.

(** [slices.IndexFunc]: the first index satisfying [p], [None] for -1. *)
Fixpoint IndexFunc {A} (l : list A) (p : A -> bool) : option nat :=
  match l with
  | [] => None
  | x :: l' => if p x then Some 0 else S <$> IndexFunc l' p
  end.

(** [slices.Index] on strings. *)
Definition slicesIndex (l : list string) (x : string) : option nat :=
  IndexFunc l (String.eqb x).

End GoStrings.

(** The outcome of a Go function that may panic or recurse without bound:
    a value, a panic with its message, or the report that the recursion
    budget of the model ran out. *)
Inductive result (A : Type) : Type :=
  | Ok (a : A)
  | Panic (msg : string)
  | OutOfFuel.
Arguments Ok {A} a.
Arguments Panic {A} msg.
Arguments OutOfFuel {A}.

Definition result_bind {A B} (f : A -> result B) (m : result A) : result B :=
  match m with
  | Ok a => f a
  | Panic msg => Panic msg
  | OutOfFuel => OutOfFuel
  end.

#[global] Instance result_mbind : MBind result := @result_bind.
#[global] Instance result_mret : MRet result := @Ok.

(** ** SHA-1 ([crypto/sha1.Sum]), on bytes as integers in 0..255 and 32-bit
    words as integers with the wrap-around written out. *)

Module Sha1.
Local Open Scope Z_scope.

Definition wrap32 (x : Z) : Z := x mod 2 ^ 32.

Definition rotl (n x : Z) : Z :=
  Z.lor (wrap32 (Z.shiftl x n)) (Z.shiftr x (32 - n)).

Definition not32 (x : Z) : Z := Z.lxor x 0xFFFFFFFF.

(** Big-endian bytes of a 32-bit word and of a 64-bit length. *)
Definition be32 (w : Z) : list Z :=
  [Z.shiftr w 24 mod 256; Z.shiftr w 16 mod 256;
   Z.shiftr w 8 mod 256; w mod 256].

Definition be64 (n : Z) : list Z :=
  be32 (Z.shiftr n 32 mod 2 ^ 32) ++ be32 (n mod 2 ^ 32).

(** Message padding: a 1 bit, zeros up to 56 modulo 64, then the bit
    length. *)
Definition pad (msg : list Z) : list Z :=
  let len := Z.of_nat (length msg) in
  msg ++ [0x80] ++ repeat 0 (Z.to_nat ((55 - len) mod 64)) ++ be64 (8 * len).

Fixpoint wordsBE (bs : list Z) : list Z :=
  match bs with
  | b0 :: b1 :: b2 :: b3 :: rest =>
      (b0 * 2 ^ 24 + b1 * 2 ^ 16 + b2 * 2 ^ 8 + b3) :: wordsBE rest
  | _ => []
  end.

(** The message schedule: [n] more words after the ones in [w]. *)
Fixpoint extend (n : nat) (w : list Z) : list Z :=
  match n with
  | O => w
  | S n' =>
      let i := length w in
      let x := Z.lxor (Z.lxor (nth (i - 3) w 0) (nth (i - 8) w 0))
                      (Z.lxor (nth (i - 14) w 0) (nth (i - 16) w 0)) in
      extend n' (w ++ [rotl 1 x])
  end.

Definition state : Type := Z * Z * Z * Z * Z.

Definition round (st : state) (iw : nat * Z) : state :=
  let '(a, b, c, d, e) := st in
  let '(i, w) := iw in
  let '(f, k) :=
    if (i <? 20)%nat then (Z.lor (Z.land b c) (Z.land (not32 b) d), 0x5A827999)
    else if (i <? 40)%nat then (Z.lxor (Z.lxor b c) d, 0x6ED9EBA1)
    else if (i <? 60)%nat then
      (Z.lor (Z.lor (Z.land b c) (Z.land b d)) (Z.land c d), 0x8F1BBCDC)
    else (Z.lxor (Z.lxor b c) d, 0xCA62C1D6) in
  let temp := wrap32 (rotl 5 a + f + e + k + w) in
  (temp, a, rotl 30 b, c, d).

Definition block (h : state) (chunk : list Z) : state :=
  let w := extend 64 (wordsBE chunk) in
  let '(a, b, c, d, e) := fold_left round (combine (seq 0 80) w) h in
  let '(h0, h1, h2, h3, h4) := h in
  (wrap32 (h0 + a), wrap32 (h1 + b), wrap32 (h2 + c),
   wrap32 (h3 + d), wrap32 (h4 + e)).

Fixpoint blocks (n : nat) (h : state) (bs : list Z) : state :=
  match n with
  | O => h
  | S n' => blocks n' (block h (firstn 64 bs)) (skipn 64 bs)
  end.

Definition init : state :=
  (0x67452301, 0xEFCDAB89, 0x98BADCFE, 0x10325476, 0xC3D2E1F0).

Definition bytesOf (s : string) : list Z :=
  map (fun a => Z.of_nat (nat_of_ascii a)) (list_ascii_of_string s).

(** [sha1.Sum(data)]: the 20 digest bytes. *)
Definition Sum (data : string) : list Z :=
  let p := pad (bytesOf data) in
  let '(h0, h1, h2, h3, h4) := blocks (length p / 64) init p in
  be32 h0 ++ be32 h1 ++ be32 h2 ++ be32 h3 ++ be32 h4.

Definition hexDigit (d : Z) : ascii :=
  nth (Z.to_nat d) (list_ascii_of_string "0123456789abcdef") "0"%char.

(** [fmt.Sprintf("%x", bs)]: two lower-case hexadecimal digits a byte. *)
Fixpoint hex (bs : list Z) : string :=
  match bs with
  | [] => EmptyString
  | b :: rest =>
      String (hexDigit (b mod 256 / 16))
             (String (hexDigit (b mod 16)) (hex rest))
  end.

End Sha1.

(** ** Catalog objects ([toolkit.Column], [entries.Table]) and validation
    warnings ([toolkit.ValidationWarning]).  The declaring files are not part
    of the sources at hand; the records carry the fields the code reads and
    writes. *)

Module Toolkit.

Record Column : Type := mkColumn {
  col_Name : string;
  col_TypeName : string;
  col_CanonicalTypeName : string;
  col_IsGenerated : bool;
  (** the overriding type name, empty when the type is not overridden *)
  col_OverriddenTypeName : string
}.

(** Modelled from the spec: [Column.GetType] is not part of the sources.
    "Overriding the type rebinds the codec used when the column value is
    read": the overriding type name when there is one, else the type
    name. *)
Definition GetType (c : Column) : string :=
  if String.eqb (col_OverriddenTypeName c) "" then col_TypeName c
  else col_OverriddenTypeName c.

Inductive Severity : Type :=
  | ErrorValidationSeverity
  | WarningValidationSeverity
  | InfoValidationSeverity.

Definition isError (s : Severity) : bool :=
  match s with ErrorValidationSeverity => true | _ => false end.

Record ValidationWarning : Type := mkWarning {
  w_Msg : string;
  w_Severity : Severity;
  w_Meta : gmap string string
}.

Definition ValidationWarnings : Type := list ValidationWarning.

(** [NewValidationWarning()] followed by the setters used in the code. *)
Definition NewValidationWarning : ValidationWarning :=
  mkWarning "" WarningValidationSeverity ∅.
Definition SetMsg (m : string) (w : ValidationWarning) : ValidationWarning :=
  mkWarning m (w_Severity w) (w_Meta w).
Definition SetSeverity (s : Severity) (w : ValidationWarning) : ValidationWarning :=
  mkWarning (w_Msg w) s (w_Meta w).
Definition AddMeta (k v : string) (w : ValidationWarning) : ValidationWarning :=
  mkWarning (w_Msg w) (w_Severity w) (<[k := v]> (w_Meta w)).

(** Modelled from the spec: [ValidationWarnings.IsFatal] is not part of the
    sources.  "A list is fatal iff it contains any error." *)
Definition IsFatal (ws : ValidationWarnings) : bool :=
  existsb (fun w => isError (w_Severity w)) ws.

End Toolkit.

Module Entries.
Import Toolkit.

Record Table : Type := mkTable {
  Schema : string;
  Name : string;
  Oid : N;
  Columns : list Column;
  PrimaryKey : list string;
  RelKind : ascii;
  RootPtSchema : string;
  RootPtName : string;
  RootPtOid : N;
  SubsetConds : list string
}.

End Entries.

(** ** Package [subset]: SQL fragments *)

Module Subset.
Import GoStrings Toolkit Entries.

Record Key : Type := mkKey { key_Name : string }.

Record TableLink : Type := mkTableLink {
  tl_table : Table;
  tl_keys : list Key
}.

Record Edge : Type := mkEdge {
  edge_id : nat;
  edge_from : TableLink;
  edge_to : TableLink
}.

(** A strongly connected component, as far as [cteQuery.generateQuery]
    reads it: its cycles and the grouping of the cycles, of which only the
    number of groups is consulted. *)
Record Component : Type := mkComponent {
  cycles : list (list Edge);
  groupedCycles : list (list nat)
}.

(** The graph, as far as the config builder reads it: the tables and the
    reversed adjacency, where the edges of [reversedGraph !! i] lead from
    table [i] to the tables that reference it, and the keys of an edge's
    [To] side are the referencing (foreign key) columns. *)
Record Graph : Type := mkGraph {
  graph_tables : list Table;
  graph_reversed : list (list Edge)
}.

(** [shorten]: a postgres-safe identifier of at most 63 bytes. *)
Definition shorten (name : string) : string :=
  let maxLen := 63 in
  if String.length name <=? maxLen then name
  else
    let h := Sha1.Sum name in
    let prefixLen := if maxLen - 11 <? 40 then maxLen - 11 else 40 in
    String.substring 0 prefixLen name +:+ "_" +:+ Sha1.hex (firstn 5 h).

(** [generateWhereClause]. *)
Definition generateWhereClause (subsetConds : list string) : string :=
  if length subsetConds =? 0 then "WHERE TRUE"
  else
    let escapedConds :=
      fold_left (fun acc cond => acc ++ ["( " +:+ cond +:+ " )"])
                subsetConds [] in
    "WHERE " +:+ Join escapedConds " AND ".

(** The qualified, quoted column reference the select lists are made of. *)
Definition columnRef (table : Table) (c : string) : string :=
  quoted (Schema table) +:+ "." +:+ quoted (Name table) +:+ "." +:+ quoted c.

(** [generateSelectAllColumns]: the non-generated columns, in order. *)
Definition generateSelectAllColumns (table : Table) : string :=
  let cols :=
    fold_left (fun acc c =>
                 if col_IsGenerated c then acc
                 else acc ++ [columnRef table (col_Name c)])
              (Columns table) [] in
  "SELECT " +:+ Join cols ", ".

(** *** Recursive CTE query holder *)

Record cteItem : Type := mkCteItem {
  item_name : string;
  item_query : string
}.

Record cteQuery : Type := mkCteQuery {
  cq_items : list cteItem;
  cq_c : Component;
  cq_names : gmap string bool
}.

Definition newCteQuery (c : Component) : cteQuery :=
  mkCteQuery [] c ∅.

(** [cteQuery.addItem]: a name that was added before is skipped. *)
Definition addItem (c : cteQuery) (name query : string) : cteQuery :=
  if default false (cq_names c !! name) then c
  else mkCteQuery (cq_items c ++ [mkCteItem name query])
                  (cq_c c)
                  (<[name := true]> (cq_names c)).

(** The name of the CTE that holds the primary keys of a table. *)
Definition idsName (t : Table) : string :=
  Schema t +:+ "__" +:+ Name t +:+ "__ids".

(** [cteQuery.generateQuery]. *)
Definition generateQuery (c : cteQuery) (targetTable : Table) : result string :=
  if 1 <? length (groupedCycles (cq_c c)) then
    Panic "FIXME: found more than one grouped cycle"
  else
    match cycles (cq_c c) with
    | [] => Panic "runtime error: index out of range [0] with length 0"
    | cycle0 :: _ =>
        let excludedCteQueries :=
          fold_left (fun acc edge =>
                       if N.eqb (Oid (tl_table (edge_from edge))) (Oid targetTable)
                       then acc
                       else acc ++ [idsName (tl_table (edge_from edge))])
                    cycle0 [] in
        let queries :=
          fold_left (fun acc item =>
                       if slicesContains excludedCteQueries (item_name item)
                       then acc
                       else acc ++ [" " +:+ item_name item +:+ " AS (" +:+
                                    item_query item +:+ ")"])
                    (cq_items c) [] in
        let rightTableName := idsName targetTable in
        let leftTableKeys :=
          map (columnRef targetTable) (PrimaryKey targetTable) in
        let rightTableKeys :=
          map (fun key => quoted rightTableName +:+ "." +:+ quoted key)
              (PrimaryKey targetTable) in
        let leftKeysCSV := Join leftTableKeys "," in
        let rightKeysCSV := Join rightTableKeys "," in
        let selectClause := generateSelectAllColumns targetTable in
        let resultingQuery :=
          selectClause +:+ " FROM " +:+ quoted (Schema targetTable) +:+ "." +:+
          quoted (Name targetTable) +:+ " WHERE (" +:+ leftKeysCSV +:+
          ") IN (SELECT " +:+ rightKeysCSV +:+ " FROM " +:+
          quoted rightTableName +:+ ")" in
        Ok ("WITH RECURSIVE " +:+ Join queries "," +:+ " " +:+ resultingQuery)
    end.

(** *** Deterministic WITH clause *)

(** [sort.Strings]: the byte-wise increasing arrangement. *)
Definition sortStrings (l : list string) : list string :=
  merge_sort String.le l.

(** The loop-carried state of the dependency scan of [buildWithClause]:
    [dependsOn] and [inDegree]. *)
Definition depState : Type := gmap string (gset string) * gmap string Z.

Definition depsOf (d : gmap string (gset string)) (n : string) : gset string :=
  default ∅ (d !! n).
Definition degOf (i : gmap string Z) (n : string) : Z :=
  default 0%Z (i !! n).

(** [for _, n := range names { dependsOn[n] = make(...) }]. *)
Definition initDependsOn (names : list string) : gmap string (gset string) :=
  fold_left (fun d n => <[n := ∅]> d) names ∅.

(** The body of the inner scan loop, for the pair [n], [m]. *)
Definition scanPair (cteDefs : gmap string string) (n : string)
    (st : depState) (m : string) : depState :=
  if String.eqb n m then st
  else
    let body := default "" (cteDefs !! n) in
    let needle := quoted m in
    if Contains body needle then
      if decide (m ∈ depsOf st.1 n) then st
      else (<[n := {[m]} ∪ depsOf st.1 n]> st.1,
            <[n := (degOf st.2 n + 1)%Z]> st.2)
    else st.

Definition scanDeps (cteDefs : gmap string string) (names : list string)
    (st : depState) : depState :=
  fold_left (fun st n => fold_left (scanPair cteDefs n) names st) names st.

(** The body of [for m := range dependsOn] after [n] was emitted; [zero] is
    re-sorted after every append. *)
Definition relaxOne (n : string)
    (st : depState * list string) (m : string) : depState * list string :=
  let '(d, i, zero) := st in
  if decide (n ∈ depsOf d m) then
    let d' := <[m := depsOf d m ∖ {[n]}]> d in
    let i' := <[m := (degOf i m - 1)%Z]> i in
    if Z.eqb (degOf i' m) 0 then (d', i', sortStrings (zero ++ [m]))
    else (d', i', zero)
  else st.

(** [for len(zero) > 0 { ... }].  [keys] is the order in which the keys of
    [dependsOn] are visited; [fuel] bounds the number of iterations and
    [None] reports that it ran out. *)
Fixpoint kahnLoop (fuel : nat) (keys : list string) (st : depState)
    (zero ordered : list string) : option (list string) :=
  match zero with
  | [] => Some ordered
  | n :: zero' =>
      match fuel with
      | O => None
      | S fuel' =>
          let '(st', zero'') := fold_left (relaxOne n) keys (st, zero') in
          kahnLoop fuel' keys st' zero'' (ordered ++ [n])
      end
  end.

(** The sorted names of the CTEs. *)
Definition cteNames (cteDefs : gmap string string) : list string :=
  sortStrings (map fst (map_to_list cteDefs)).

(** The order in which [buildWithClause] lists the CTEs. *)
Definition cteOrder (cteDefs : gmap string string) : option (list string) :=
  let names := cteNames cteDefs in
  let st := scanDeps cteDefs names (initDependsOn names, ∅) in
  let zero :=
    sortStrings (List.filter (fun n => Z.eqb (degOf st.2 n) 0) names) in
  match kahnLoop (length names) names st zero [] with
  | None => None
  | Some ordered =>
      Some (if negb (length ordered =? length names) then names else ordered)
  end.

(** [buildWithClause]. *)
Definition buildWithClause (cteDefs : gmap string string) : option string :=
  if size cteDefs =? 0 then Some ""
  else
    match cteOrder cteDefs with
    | None => None
    | Some ordered =>
        let parts :=
          map (fun name => quoted name +:+ " AS (" +:+
                           default "" (cteDefs !! name) +:+ ")") ordered in
        Some ("WITH " +:+ Join parts ", ")
    end.

End Subset.

(** ** Package [domains]: the user configuration *)

Module Domains.

Record TransformerConfig : Type := mkTransformerConfig {
  tr_Name : string;
  tr_ApplyForReferences : bool;
  tr_Params : gmap string string;
  tr_When : string
}.

Record Table : Type := mkCfgTable {
  cfg_Schema : string;
  cfg_Name : string;
  cfg_Transformers : list TransformerConfig;
  cfg_ApplyForInherited : bool;
  cfg_ColumnsTypeOverride : gmap string string;
  cfg_SkipAutoAnonymize : list string
}.

Record Dump : Type := mkDump {
  AutoAnonymize : bool;
  Transformation : list Table
}.

(** [string(tr.Params[name])]: a missing parameter reads as the empty
    string. *)
Definition param (tr : TransformerConfig) (name : string) : string :=
  default "" (tr_Params tr !! name).

End Domains.

(** ** The transformer registry, as far as the config builder reads it *)

Module Registry.

Record ParameterDefinition : Type := mkParameterDefinition {
  pd_Name : string;
  pd_IsColumn : bool;
  pd_IsColumnContainer : bool
}.

Record TransformerDefinition : Type := mkTransformerDefinition {
  td_Parameters : list ParameterDefinition;
  (** [Properties.GetMeta]: the boolean capability flags *)
  td_Meta : gmap string bool
}.

Definition TransformerRegistry : Type := gmap string TransformerDefinition.

(** The metadata keys and the engine name of package [transformers]; their
    declarations are not part of the sources, the values are the names the
    specification uses. *)
Definition AllowApplyForReferenced : string := "AllowApplyForReferenced".
Definition RequireHashEngineParameter : string := "RequireHashEngineParameter".
Definition HashEngineParameterName : string := "hash".

End Registry.

(** ** Package [transformers]: default anonymizers *)

Module Transformers.
Import GoStrings Toolkit Domains.

Definition oneOf (s : string) (l : list string) : bool :=
  existsb (String.eqb s) l.

(** [&domains.TransformerConfig{Name: ..., Params: ...}]. *)
Definition defaultConfig (name : string) (ps : list (string * string))
  : TransformerConfig :=
  mkTransformerConfig name false (list_to_map ps) "".

Section WithUnicode.
(** [strings.Map(unicode.ToLower, s)], see [GoStrings.ToLower]. *)
Variable unicodeToLower : string -> string.

(** [getDefaultTransformerForScalarType]. *)
Definition getDefaultTransformerForScalarType (column : Column) (typeName : string)
  : option TransformerConfig * option string :=
  let t := ToLower unicodeToLower typeName in
  let col := col_Name column in
  if oneOf t ["text"; "varchar"; "character varying"; "char"; "character"; "bpchar"] then
    (Some (defaultConfig "RandomString"
             [("column", col); ("min_length", "5"); ("max_length", "20")]), None)
  else if oneOf t ["integer"; "int"; "int4"; "bigint"; "int8"; "smallint"; "int2"] then
    (Some (defaultConfig "RandomInt"
             [("column", col); ("min", "1"); ("max", "2147483647")]), None)
  else if oneOf t ["numeric"; "decimal"] then
    (Some (defaultConfig "RandomNumeric"
             [("column", col); ("min", "1"); ("max", "999999");
              ("precision", "10"); ("scale", "2")]), None)
  else if oneOf t ["real"; "float4"; "double precision"; "float8"] then
    (Some (defaultConfig "RandomFloat"
             [("column", col); ("min", "1.0"); ("max", "1000000.0")]), None)
  else if oneOf t ["date"] then
    (Some (defaultConfig "RandomDate"
             [("column", col); ("min", "1970-01-01"); ("max", "2024-12-31")]), None)
  else if oneOf t ["timestamp"; "timestamp without time zone"] then
    (Some (defaultConfig "RandomDate"
             [("column", col); ("min", "1970-01-01 00:00:00");
              ("max", "2024-12-31 23:59:59")]), None)
  else if oneOf t ["timestamptz"; "timestamp with time zone"] then
    (Some (defaultConfig "RandomDate"
             [("column", col); ("min", "1970-01-01 00:00:00+00");
              ("max", "2024-12-31 23:59:59+00")]), None)
  else if oneOf t ["boolean"; "bool"] then
    (Some (defaultConfig "RandomBool" [("column", col)]), None)
  else if oneOf t ["uuid"] then
    (Some (defaultConfig "RandomUuid" [("column", col)]), None)
  else if oneOf t ["json"; "jsonb"] then
    (Some (defaultConfig "Replace" [("column", col); ("value", "{}")]), None)
  else
    (None, Some ("unable to get default transformer for column " +:+ col +:+
                 " and type " +:+ typeName)).

(** [getDefaultTransformerForArrayType]. *)
Definition getDefaultTransformerForArrayType (column : Column) (typeName : string)
  : option TransformerConfig * option string :=
  (Some (defaultConfig "Replace"
           [("column", col_Name column); ("value", "{}"); ("keep_null", "true")]),
   None).

(** [GetDefaultTransformerForColumn]. *)
Definition GetDefaultTransformerForColumn (column : Column)
  : option TransformerConfig * option string :=
  let typeName := GetType column in
  let canonicalType := col_CanonicalTypeName column in
  let typeName :=
    if negb (String.eqb canonicalType "") then canonicalType else typeName in
  if HasSuffix typeName "[]" || HasPrefix typeName "_" then
    getDefaultTransformerForArrayType column typeName
  else getDefaultTransformerForScalarType column typeName.

End WithUnicode.

End Transformers.

(** ** Package [context]: the transformation config builder *)

Module ConfigBuilder.
Import GoStrings Toolkit Entries Subset Domains Registry Transformers.

Definition columnParameterName : string := "column".
Definition engineParameterName : string := "engine".

(** [toolkit.TransformationConditionNamespaceRecord] and
    [...NamespaceRawRecord]; the declarations are not part of the sources,
    the values are the namespaces the specification names. *)
Definition TransformationConditionNamespaceRecord : string := "record".
Definition TransformationConditionNamespaceRawRecord : string := "raw_record".

Record transformersMapping : Type := mkTransformersMapping {
  tm_entry : Entries.Table;
  tm_columnName : string;
  tm_attNum : nat;
  tm_cfg : TransformerConfig
}.

Record tableConfigMapping : Type := mkTcm {
  tcm_entry : Entries.Table;
  tcm_config : Domains.Table
}.

(** [hasTransformerWithApplyForReferences]. *)
Definition hasTransformerWithApplyForReferences (tcm : tableConfigMapping) : bool :=
  existsb tr_ApplyForReferences (cfg_Transformers (tcm_config tcm)).

(** The name test shared by [findTablesWithTransformers], [findTableIndex]
    and [setupConfigForPartitionedTableChildren]: equal, or equal once the
    left name is wrapped in double quotes. *)
Definition sameOrQuoted (a b : string) : bool :=
  String.eqb a b || String.eqb (quoted a) b.

(** [findTablesWithTransformers]. *)
Definition findTablesWithTransformers
    (cfg : list Domains.Table) (tables : list Entries.Table)
  : list tableConfigMapping :=
  fold_left
    (fun acc entry =>
       match IndexFunc cfg (fun table =>
               sameOrQuoted (cfg_Name table) (Name entry) &&
               sameOrQuoted (cfg_Schema table) (Schema entry)) with
       | Some idx =>
           match cfg !! idx with
           | Some c => acc ++ [mkTcm entry c]
           | None => acc
           end
       | None => acc
       end)
    tables [].

(** [isTransformerAllowedToApplyForReferences]. *)
Definition isTransformerAllowedToApplyForReferences
    (cfg : TransformerConfig) (r : TransformerRegistry)
  : bool * ValidationWarnings :=
  match r !! tr_Name cfg with
  | None =>
      (false,
       [SetSeverity ErrorValidationSeverity
          (AddMeta "TransformerName" (tr_Name cfg)
             (SetMsg "transformer not found" NewValidationWarning))])
  | Some td =>
      match td_Meta td !! AllowApplyForReferenced with
      | Some true =>
          match td_Meta td !! RequireHashEngineParameter with
          | None => (false, [])
          | Some false => (true, [])
          | Some true =>
              if negb (String.eqb (param cfg engineParameterName)
                                  HashEngineParameterName)
              then
                (false,
                 [SetSeverity ErrorValidationSeverity
                    (AddMeta "TransformerName" (tr_Name cfg)
                       (SetMsg "cannot apply transformer for references: engine parameter is not hash"
                          NewValidationWarning))])
              else (true, [])
          end
      | _ =>
          (false,
           [SetSeverity ErrorValidationSeverity
              (AddMeta "TransformerName" (tr_Name cfg)
                 (SetMsg "cannot apply transformer for references: transformer does not support apply for references"
                    NewValidationWarning))])
      end
  end.

(** [checkApplyForReferenceMetRequirements]. *)
Definition checkApplyForReferenceMetRequirements
    (tcm : tableConfigMapping) (r : TransformerRegistry)
  : bool * ValidationWarnings :=
  let warnings :=
    fold_left
      (fun warnings tr =>
         if negb (tr_ApplyForReferences tr) then warnings
         else
           let '(allowed, w) := isTransformerAllowedToApplyForReferences tr r in
           if negb allowed then warnings ++ w else warnings)
      (cfg_Transformers (tcm_config tcm)) [] in
  (negb (IsFatal warnings), warnings).

(** [collectRootTransformers]. *)
Definition collectRootTransformers
    (rootTable : Entries.Table) (rootTableCfg : Domains.Table)
  : list transformersMapping :=
  fold_left
    (fun acc tr =>
       if negb (tr_ApplyForReferences tr) ||
          negb (String.eqb (param tr engineParameterName) "hash")
       then acc
       else
         match slicesIndex (PrimaryKey rootTable) (param tr columnParameterName) with
         | None => acc
         | Some idx =>
             acc ++ [mkTransformersMapping rootTable
                       (param tr columnParameterName) idx tr]
         end)
    (cfg_Transformers rootTableCfg) [].

(** [findTableIndex]. *)
Definition findTableIndex (graph : Graph) (table : Entries.Table) : option nat :=
  IndexFunc (graph_tables graph)
    (fun t => sameOrQuoted (Name table) (Name t) &&
              sameOrQuoted (Schema table) (Schema t)).

(** *** The columns a [when] condition mentions

    The regular expression of the source reads: the word record or the
    word raw_record, a dot, then an identifier (a letter or an underscore
    followed by letters, digits and underscores), which is captured.
    [FindAllStringSubmatch] yields the leftmost matches that do not
    overlap, each with the longest identifier. *)

Definition isIdentStart (a : ascii) : bool :=
  let n := nat_of_ascii a in
  ((65 <=? n) && (n <=? 90)) || ((97 <=? n) && (n <=? 122)) || (n =? 95).

Definition isIdentChar (a : ascii) : bool :=
  let n := nat_of_ascii a in
  isIdentStart a || ((48 <=? n) && (n <=? 57)).

Fixpoint stripPrefix (p s : string) : option string :=
  match p, s with
  | EmptyString, _ => Some s
  | String b p', String a s' =>
      if Ascii.eqb a b then stripPrefix p' s' else None
  | String _ _, EmptyString => None
  end.

Fixpoint spanIdent (s : string) : string :=
  match s with
  | EmptyString => EmptyString
  | String a s' => if isIdentChar a then String a (spanIdent s') else EmptyString
  end.

(** A match that starts at the head of [s]: the captured column name and
    the length of the whole match. *)
Definition matchColumnRef (s : string) : option (string * nat) :=
  let try (p : string) :=
    match stripPrefix p s with
    | Some (String a r) =>
        if isIdentStart a then
          let col := String a (spanIdent r) in
          Some (col, String.length p + String.length col)
        else None
    | _ => None
    end in
  match try "record." with
  | Some m => Some m
  | None => try "raw_record."
  end.

(** All matches, left to right; [skip] bytes are still covered by the
    previous match. *)
Fixpoint findColumnRefs (skip : nat) (s : string) : list string :=
  match s with
  | EmptyString => []
  | String _ s' =>
      match skip with
      | S k => findColumnRefs k s'
      | O =>
          match matchColumnRef s with
          | Some (col, len) => col :: findColumnRefs (len - 1) s'
          | None => findColumnRefs 0 s'
          end
      end
  end.

(** [strings.ReplaceAll(s, old, new)] for a non-empty [old]; [skip] bytes are
    still covered by the previous occurrence. *)
Fixpoint replaceAllFrom (skip : nat) (s old new : string) : string :=
  match s with
  | EmptyString => EmptyString
  | String a s' =>
      match skip with
      | S k => replaceAllFrom k s' old new
      | O =>
          if HasPrefix s old
          then new +:+ replaceAllFrom (String.length old - 1) s' old new
          else String a (replaceAllFrom 0 s' old new)
      end
  end.

(** [strings.ReplaceAll]; with an empty [old] Go puts [new] before every
    byte of an ASCII string and at its end. *)
Definition ReplaceAll (s old new : string) : string :=
  if String.eqb old "" then
    (fix between (s : string) : string :=
       match s with
       | EmptyString => new
       | String a s' => new +:+ String a (between s')
       end) s
  else replaceAllFrom 0 s old new.

(** [validateDoesInheritedConditionHaveAllColumns]. *)
Definition validateDoesInheritedConditionHaveAllColumns
    (t : Entries.Table) (cfg : TransformerConfig) : ValidationWarnings :=
  if String.eqb (tr_When cfg) "" then []
  else
    fold_left
      (fun warnings colName =>
         if negb (existsb (fun c => String.eqb (col_Name c) colName) (Columns t))
         then
           warnings ++
           [AddMeta "ColumnName" colName
              (AddMeta "TableName" (Name t)
                 (AddMeta "SchemaName" (Schema t)
                    (SetSeverity ErrorValidationSeverity
                       (SetMsg ("cannot inherit condition: column " +:+ colName +:+
                                " not found in table " +:+ Schema t +:+ "." +:+ Name t)
                          NewValidationWarning))))]
         else warnings)
      (findColumnRefs 0 (tr_When cfg)) [].

(** [checkTransformerAlreadyExists]. *)
Definition checkTransformerAlreadyExists
    (conf : list Domains.Table) (schemaName tableName tranName tColumn : string)
  : bool :=
  existsb
    (fun c =>
       String.eqb (cfg_Name c) tableName && String.eqb (cfg_Schema c) schemaName &&
       existsb (fun tr => String.eqb (tr_Name tr) tranName &&
                          String.eqb (param tr columnParameterName) tColumn)
               (cfg_Transformers c))
    conf.

(** [getColumnTypeOverride]. *)
Definition getColumnTypeOverride (rootTableCfg : Domains.Table) (columnName : string)
  : gmap string string :=
  let v := default "" (cfg_ColumnsTypeOverride rootTableCfg !! columnName) in
  if negb (String.eqb v "") then {[columnName := v]} else ∅.

(** [addTransformerToReferenceTable]: the result list is updated in
    place. *)
Definition addTransformerToReferenceTable
    (r : Edge) (trConf : TransformerConfig) (colTypeOverride : gmap string string)
    (res : list tableConfigMapping) : list tableConfigMapping :=
  let child := tl_table (edge_to r) in
  match IndexFunc res (fun tcm =>
          String.eqb (Name (tcm_entry tcm)) (Name child) &&
          String.eqb (Schema (tcm_entry tcm)) (Schema child)) with
  | Some refTableIdx =>
      alter (fun tcm =>
               let c := tcm_config tcm in
               mkTcm (tcm_entry tcm)
                 (mkCfgTable (cfg_Schema c) (cfg_Name c)
                    (cfg_Transformers c ++ [trConf])
                    (cfg_ApplyForInherited c) (cfg_ColumnsTypeOverride c)
                    (cfg_SkipAutoAnonymize c)))
            refTableIdx res
  | None =>
      res ++ [mkTcm child
                (mkCfgTable (Schema child) (Name child) [trConf] false
                   colTypeOverride [])]
  end.

(** The state the reference walk threads: the result list and the
    warnings gathered so far. *)
Definition walkState : Type := list tableConfigMapping * ValidationWarnings.

(** The [when] condition a clone inherits: the references to the root
    column in both record namespaces are rewritten to the referencing
    column. *)
Definition inheritedWhen (rootTr : transformersMapping) (refColName : string) : string :=
  let rootCfg := tm_cfg rootTr in
  if negb (String.eqb (tr_When rootCfg) "") then
    let w1 :=
      ReplaceAll (tr_When rootCfg)
        (TransformationConditionNamespaceRecord +:+ "." +:+ tm_columnName rootTr)
        (TransformationConditionNamespaceRecord +:+ "." +:+ refColName) in
    ReplaceAll w1
      (TransformationConditionNamespaceRawRecord +:+ "." +:+ tm_columnName rootTr)
      (TransformationConditionNamespaceRawRecord +:+ "." +:+ refColName)
  else tr_When rootCfg.

(** [rootTr.cfg.Clone()], taken to copy every field, with the column
    parameter and the [when] condition rewritten for the referencing
    column. *)
Definition cloneTransformer (rootTr : transformersMapping) (refColName : string)
  : TransformerConfig :=
  let rootCfg := tm_cfg rootTr in
  mkTransformerConfig (tr_Name rootCfg) (tr_ApplyForReferences rootCfg)
    (<["column" := refColName]> (tr_Params rootCfg))
    (inheritedWhen rootTr refColName).

(** The body of the loop of [processReference] for one root
    transformer.  The key at the position of the root column is read first,
    without a test of the number of keys. *)
Definition processRootTransformer
    (r : Edge) (rootTableCfg : Domains.Table) (allTrans : list Domains.Table)
    (st : walkState) (rootTr : transformersMapping) : result walkState :=
  let '(res, warnings) := st in
  let fkKeys := tl_keys (edge_to r) in
  match fkKeys !! tm_attNum rootTr with
  | None => Panic (indexOutOfRange (tm_attNum rootTr) (length fkKeys))
  | Some key =>
      let refColName := key_Name key in
      let child := tl_table (edge_to r) in
      if checkTransformerAlreadyExists allTrans (Schema child) (Name child)
           (tr_Name (tm_cfg rootTr)) refColName
      then Ok (res, warnings)
      else
        let trConf := cloneTransformer rootTr refColName in
        let ws := validateDoesInheritedConditionHaveAllColumns child trConf in
        let colTypeOverride :=
          getColumnTypeOverride rootTableCfg (tm_columnName rootTr) in
        Ok (addTransformerToReferenceTable r trConf colTypeOverride res,
            warnings ++ ws)
  end.

(** [processReference]; the returned warnings are those of this call, the
    result list is the updated one. *)
Fixpoint processReferenceLoop
    (r : Edge) (rootTableCfg : Domains.Table) (allTrans : list Domains.Table)
    (rootTrans : list transformersMapping) (st : walkState) : result walkState :=
  match rootTrans with
  | [] => Ok st
  | rootTr :: rest =>
      st' ← processRootTransformer r rootTableCfg allTrans st rootTr;
      processReferenceLoop r rootTableCfg allTrans rest st'
  end.

Definition processReference
    (r : Edge) (rootTableCfg : Domains.Table)
    (rootTrans : list transformersMapping) (allTrans : list Domains.Table)
    (res : list tableConfigMapping) : result walkState :=
  processReferenceLoop r rootTableCfg allTrans rootTrans (res, []).

(** [isEndToEndPKFK]: some edge out of the table in the reversed graph has
    a key on its [To] side that is a primary key column of the [To]
    table. *)
Definition isEndToEndPKFK (graph : Graph) (table : Entries.Table) : result bool :=
  match IndexFunc (graph_tables graph)
          (fun t => String.eqb (Name t) (Name table) &&
                    String.eqb (Schema t) (Schema table)) with
  | None => Panic "runtime error: index out of range [-1]"
  | Some idx =>
      match graph_reversed graph !! idx with
      | None => Panic (indexOutOfRange idx (length (graph_reversed graph)))
      | Some refs =>
          Ok (existsb
                (fun ref =>
                   existsb
                     (fun fkColName =>
                        existsb (fun pkColName => String.eqb pkColName (key_Name fkColName))
                                (PrimaryKey (tl_table (edge_to ref))))
                     (tl_keys (edge_to ref)))
                refs)
      end
  end.

(** The loop over the edges in [buildRefsWithEndToEndDfs]; [recurse] is the
    recursive call on the referencing table. The state holds the result
    list and the warnings of this call. *)
Definition walkEdges
    (recurse : Entries.Table -> list tableConfigMapping -> result walkState)
    (rootTableCfg : Domains.Table) (rootTrans : list transformersMapping)
    (graph : Graph) (allTrans : list Domains.Table) (checkEndToEnd : bool)
  : list Edge -> walkState -> result walkState :=
  fix loop (edges : list Edge) (st : walkState) : result walkState :=
    match edges with
    | [] => Ok st
    | r :: rest =>
        let '(res, warnings) := st in
        skip ← (if checkEndToEnd
                then b ← isEndToEndPKFK graph (tl_table (edge_from r)); Ok (negb b)
                else Ok false);
        if (skip : bool) then loop rest st
        else
          '(res1, ws1) ← processReference r rootTableCfg rootTrans allTrans res;
          '(res2, ws2) ← recurse (tl_table (edge_to r)) res1;
          loop rest (res2, warnings ++ ws1 ++ ws2)
    end.

(** [buildRefsWithEndToEndDfs]; [fuel] bounds the depth of the recursion.
    The result list is threaded, the warnings returned are those of this
    call.  The comment of the source says that the walk avoids cycles; the
    function keeps no record of the tables it has been to, and the only
    thing that stops the recursion is an end-to-end test that fails or a
    table without referencing tables. *)
Fixpoint buildRefsWithEndToEndDfs (fuel : nat)
    (table : Entries.Table) (rootTableCfg : Domains.Table)
    (rootTrans : list transformersMapping) (graph : Graph)
    (allTrans : list Domains.Table) (res : list tableConfigMapping)
    (checkEndToEnd : bool) : result walkState :=
  match fuel with
  | O => OutOfFuel
  | S fuel' =>
      match findTableIndex graph table with
      | None =>
          Ok (res,
              [SetMsg "transformer inheritance for ref: cannot find table in the graph: table will be ignored"
                 (AddMeta "TableName" (Name table)
                    (AddMeta "SchemaName" (Schema table)
                       (SetSeverity WarningValidationSeverity NewValidationWarning)))])
      | Some tableIdx =>
          match graph_reversed graph !! tableIdx with
          | None => Panic (indexOutOfRange tableIdx (length (graph_reversed graph)))
          | Some edges =>
              walkEdges
                (fun child res =>
                   buildRefsWithEndToEndDfs fuel' child rootTableCfg rootTrans
                     graph allTrans res true)
                rootTableCfg rootTrans graph allTrans checkEndToEnd
                edges (res, [])
          end
      end
  end.

(** [getRefTables]. *)
Definition getRefTables (fuel : nat)
    (rootTable : Entries.Table) (rootTableCfg : Domains.Table)
    (graph : Graph) (allTrans : list Domains.Table) : result walkState :=
  let rootTrans := collectRootTransformers rootTable rootTableCfg in
  buildRefsWithEndToEndDfs fuel rootTable rootTableCfg rootTrans graph allTrans [] false.

(** *** Entries are shared

    An entry is a pointer ([*entries.Table]): the list of tables of the
    dump, the graph and the bindings hold the same objects, and a write
    through one of them is seen through all the others.  The only writes of
    the functions modelled here are the four assignments of
    [setupConfigForPartitionedTableChildren] to the entry of a partition
    (root partition name, schema and Oid, and the columns).  The model
    keeps the records as they are listed and, beside them, the store of
    the fields written so far; an object is identified by its Oid, which
    the catalog gives to one table only, and whoever reads an entry reads
    these four fields through the store. *)

Record entryWrites : Type := mkEntryWrites {
  ew_RootPtSchema : string;
  ew_RootPtName : string;
  ew_RootPtOid : N;
  ew_Columns : list Column
}.

Definition entryStore : Type := gmap N entryWrites.

(** The entry as it reads once the writes of the store are applied. *)
Definition readEntry (s : entryStore) (t : Entries.Table) : Entries.Table :=
  match s !! Oid t with
  | Some w =>
      mkTable (Schema t) (Name t) (Oid t) (ew_Columns w) (PrimaryKey t) (RelKind t)
        (ew_RootPtSchema w) (ew_RootPtName w) (ew_RootPtOid w) (SubsetConds t)
  | None => t
  end.

Definition readBinding (s : entryStore) (b : tableConfigMapping) : tableConfigMapping :=
  mkTcm (readEntry s (tcm_entry b)) (tcm_config b).

Definition readLink (s : entryStore) (l : TableLink) : TableLink :=
  mkTableLink (readEntry s (tl_table l)) (tl_keys l).

Definition readEdge (s : entryStore) (e : Edge) : Edge :=
  mkEdge (edge_id e) (readLink s (edge_from e)) (readLink s (edge_to e)).

(** The graph as it reads under the store: the same tables and edges, every
    entry with the writes applied. *)
Definition readGraph (s : entryStore) (g : Graph) : Graph :=
  mkGraph (map (readEntry s) (graph_tables g))
          (map (map (readEdge s)) (graph_reversed g)).

(** *** Binding configs to tables, partition expansion *)

Section WithCatalog.

(** [findPartitionsOfPartitionedTable]: the catalog query for the leaf
    partitions of a table, with its error.  It reads the schema, the name
    and the Oid of the entry, which nothing writes, so it is given the
    record as listed. *)
Variable findPartitionsOfPartitionedTable :
  Entries.Table -> list N * option string.

(** The state of the loop of [setupConfigForPartitionedTableChildren]: the
    bindings made and the store. *)
Definition childrenState : Type := list tableConfigMapping * entryStore.

(** [setupConfigForPartitionedTableChildren].  The entry of a partition in
    scope is written in place: the identity of the parent and the columns
    the parent has at that moment.  The binding holds the pointer to that
    entry and the config of the parent.  The lookup of the partition's own
    config only writes a log record. *)
Definition setupConfigForPartitionedTableChildren
    (parentTcm : tableConfigMapping) (tables : list Entries.Table)
    (cfg : list Domains.Table) (s : entryStore)
  : childrenState * option string :=
  let parent := tcm_entry parentTcm in
  match findPartitionsOfPartitionedTable parent with
  | (_, Some err) =>
      (([], s), Some ("cannot find partitions of the table " +:+ Schema parent +:+
                      "." +:+ Name parent +:+ ": " +:+ err))
  | (parts, None) =>
      (fold_left
         (fun (st : childrenState) pt =>
            let '(res, s) := st in
            match IndexFunc tables (fun table => N.eqb (Oid table) pt) with
            | None => (res, s)
            | Some idx =>
                match tables !! idx with
                | None => (res, s)
                | Some e =>
                    let p := readEntry s parent in
                    let s' :=
                      <[Oid e := mkEntryWrites (Schema p) (Name p) (Oid p) (Columns p)]> s in
                    (res ++ [mkTcm e (tcm_config parentTcm)], s')
                end
            end)
         parts ([], s),
       None)
  end.

(** The state of the loop of [setConfigToEntries]: the bindings, the
    warnings and the store. *)
Definition configState : Type := walkState * entryStore.

(** The second half of the body of the loop of [setConfigToEntries], from
    the partition test of the configured table on: the table is appended
    when it is not partitioned, gets a warning when it is partitioned and
    its config does not say apply_for_inherited, and is replaced by its
    partitions otherwise.  The second component is the error that makes the
    function return. *)
Definition appendOrExpand
    (cfg : list Domains.Table) (tables : list Entries.Table)
    (tcm : tableConfigMapping) (st : configState) : configState * option string :=
  let '(res, warnings, s) := st in
  if negb (Ascii.eqb (RelKind (tcm_entry tcm)) "p") then
    ((res ++ [tcm], warnings, s), None)
  else if negb (cfg_ApplyForInherited (tcm_config tcm)) then
    ((res,
      warnings ++
      [SetSeverity ErrorValidationSeverity
         (AddMeta "TableName" (Name (tcm_entry tcm))
            (AddMeta "SchemaName" (Schema (tcm_entry tcm))
               (SetMsg "the table is partitioned use apply_for_inherited"
                  NewValidationWarning)))], s),
     None)
  else
    match setupConfigForPartitionedTableChildren tcm tables cfg s with
    | (_, Some err) => ((res, warnings, s), Some err)
    | ((inhTab, s'), None) => ((res ++ inhTab, warnings, s'), None)
    end.

(** The body of the loop of [setConfigToEntries] for one table.  The
    first half deals with the transformers marked apply_for_references: a
    table that does not meet the requirements is passed over, with the
    warnings of the check; otherwise the bindings of the walk of the
    references are appended as they are.  The walk reads the root table and
    the graph as they are under the store. *)
Definition setConfigStep (fuel : nat)
    (cfg : list Domains.Table) (tables : list Entries.Table) (g : Graph)
    (r : TransformerRegistry) (tcm : tableConfigMapping) (st : configState)
  : result (configState * option string) :=
  let '(res, warnings, s) := st in
  if hasTransformerWithApplyForReferences tcm then
    let '(ok, checkWarns) := checkApplyForReferenceMetRequirements tcm r in
    if negb ok then Ok ((res, warnings ++ checkWarns, s), None)
    else
      '(refTables, warns) ←
        getRefTables fuel (readEntry s (tcm_entry tcm)) (tcm_config tcm)
          (readGraph s g) cfg;
      Ok (appendOrExpand cfg tables tcm (res ++ refTables, warnings ++ warns, s))
  else Ok (appendOrExpand cfg tables tcm st).

Fixpoint setConfigLoop (fuel : nat)
    (cfg : list Domains.Table) (tables : list Entries.Table) (g : Graph)
    (r : TransformerRegistry) (tcms : list tableConfigMapping) (st : configState)
  : result (configState * option string) :=
  match tcms with
  | [] => Ok (st, None)
  | tcm :: rest =>
      '(st', err) ← setConfigStep fuel cfg tables g r tcm st;
      match err with
      | Some e =>
          Ok (([], [], st'.2),
              Some ("cannot setup config for partitioned table children: " +:+ e))
      | None => setConfigLoop fuel cfg tables g r rest st'
      end
  end.

(** [setConfigToEntries]: the bindings, the warnings and the error.  No
    entry has been written when the loop starts; the bindings are returned
    as the caller reads them, with all the writes of the loop applied. *)
Definition setConfigToEntries (fuel : nat)
    (cfg : list Domains.Table) (tables : list Entries.Table) (g : Graph)
    (r : TransformerRegistry)
  : result (list tableConfigMapping * ValidationWarnings * option string) :=
  '(st, err) ← setConfigLoop fuel cfg tables g r
                 (findTablesWithTransformers cfg tables) ([], [], ∅);
  Ok (map (readBinding st.2) st.1.1, st.1.2, err).

End WithCatalog.

(** *** Auto-anonymize and transformer initialization *)

Section WithRuntime.

(** [strings.Map(unicode.ToLower, s)], see [GoStrings.ToLower]. *)
Variable unicodeToLower : string -> string.

(** [transformersUtils.DefaultTransformerRegistry]. *)
Variable DefaultTransformerRegistry : TransformerRegistry.

(** [json.Unmarshal] of a parameter into a list of objects with a [name]
    field: the names, or [None] when decoding fails. *)
Variable jsonUnmarshalColumnDefs : string -> option (list string).

(** [initTransformer]: the transformer context, the warnings and the
    error of the initialization callback. *)
Variable TransformerContext : Type.
Variable initTransformer :
  Entries.Table -> TransformerConfig -> TransformerRegistry ->
  TransformerContext * ValidationWarnings * option string.

(** [extractColumnNamesFromParam]. *)
Definition extractColumnNamesFromParam (p : string) : list string * option string :=
  match jsonUnmarshalColumnDefs p with
  | Some columnDefs =>
      if 0 <? length columnDefs then
        (List.filter (fun n => negb (String.eqb n "")) columnDefs, None)
      else ([], None)
  | None => ([], None)
  end.

(** [extractColumnNamesFromTransformer]. *)
Definition extractColumnNamesFromTransformer
    (transformer : TransformerConfig) (registry : TransformerRegistry)
  : list string * option string :=
  match registry !! tr_Name transformer with
  | None =>
      ([], Some ("transformer " +:+ tr_Name transformer +:+ " not found in registry"))
  | Some transformerDef =>
      (fix loop (defs : list ParameterDefinition) (columnNames : list string)
         : list string * option string :=
         match defs with
         | [] => (columnNames, None)
         | paramDef :: rest =>
             if pd_IsColumn paramDef then
               match tr_Params transformer !! pd_Name paramDef with
               | Some paramValue => loop rest (columnNames ++ [paramValue])
               | None => loop rest columnNames
               end
             else if pd_IsColumnContainer paramDef then
               match tr_Params transformer !! pd_Name paramDef with
               | Some paramValue =>
                   match extractColumnNamesFromParam paramValue with
                   | (_, Some err) =>
                       ([], Some ("failed to extract columns from container parameter "
                                  +:+ pd_Name paramDef +:+ ": " +:+ err))
                   | (containerColumns, None) =>
                       loop rest (columnNames ++ containerColumns)
                   end
               | None => loop rest columnNames
               end
             else loop rest columnNames
         end) (td_Parameters transformerDef) []
  end.

(** The first loop of [generateDefaultTransformersForUndefinedColumns]:
    the set of columns that have a transformer configured. *)
Fixpoint collectDefinedColumns (trs : list TransformerConfig)
    (definedColumns : gset string) : gset string * option string :=
  match trs with
  | [] => (definedColumns, None)
  | transformer :: rest =>
      match extractColumnNamesFromTransformer transformer DefaultTransformerRegistry with
      | (_, Some err) =>
          (∅, Some ("failed to extract column names from transformer " +:+
                    tr_Name transformer +:+ ": " +:+ err))
      | (columnNames, None) =>
          collectDefinedColumns rest (list_to_set columnNames ∪ definedColumns)
      end
  end.

(** The last loop of [generateDefaultTransformersForUndefinedColumns]. *)
Fixpoint defaultsForColumns (t : Entries.Table)
    (definedColumns skipColumns : gset string) (columns : list Column)
    (defaultTransformers : list TransformerConfig)
  : list TransformerConfig * option string :=
  match columns with
  | [] => (defaultTransformers, None)
  | column :: rest =>
      if decide (col_Name column ∈ definedColumns) then
        defaultsForColumns t definedColumns skipColumns rest defaultTransformers
      else if decide (col_Name column ∈ skipColumns) then
        defaultsForColumns t definedColumns skipColumns rest defaultTransformers
      else if col_IsGenerated column then
        defaultsForColumns t definedColumns skipColumns rest defaultTransformers
      else if slicesContains (PrimaryKey t) (col_Name column) then
        defaultsForColumns t definedColumns skipColumns rest defaultTransformers
      else
        match GetDefaultTransformerForColumn unicodeToLower column with
        | (_, Some err) =>
            ([], Some ("error getting default transformer for column " +:+
                       col_Name column +:+ ": " +:+ err))
        | (Some defaultTransformer, None) =>
            defaultsForColumns t definedColumns skipColumns rest
              (defaultTransformers ++ [defaultTransformer])
        | (None, None) =>
            defaultsForColumns t definedColumns skipColumns rest defaultTransformers
        end
  end.

(** [generateDefaultTransformersForUndefinedColumns]. *)
Definition generateDefaultTransformersForUndefinedColumns
    (t : Entries.Table) (tableConfig : Domains.Table) (dumpConfig : Dump)
  : list TransformerConfig * option string :=
  match collectDefinedColumns (cfg_Transformers tableConfig) ∅ with
  | (_, Some err) => ([], Some err)
  | (definedColumns, None) =>
      let skipColumns : gset string :=
        list_to_set (cfg_SkipAutoAnonymize tableConfig) in
      defaultsForColumns t definedColumns skipColumns (Columns t) []
  end.

(** [enrichWarningsWithTransformerName]. *)
Definition enrichWarningsWithTransformerName
    (warns : ValidationWarnings) (n : string) : ValidationWarnings :=
  map (AddMeta "TransformerName" n) warns.

(** What [initAndSetupTransformers] leaves behind: the table config with
    the default transformers appended, the transformer contexts added to
    the table, and the returned warnings and error. *)
Record initOutcome : Type := mkInitOutcome {
  io_config : Domains.Table;
  io_contexts : list TransformerContext;
  io_warnings : ValidationWarnings;
  io_err : option string
}.

Definition withTransformers (c : Domains.Table) (trs : list TransformerConfig)
  : Domains.Table :=
  mkCfgTable (cfg_Schema c) (cfg_Name c) trs (cfg_ApplyForInherited c)
    (cfg_ColumnsTypeOverride c) (cfg_SkipAutoAnonymize c).

(** The loop over the transformers of [initAndSetupTransformers]. *)
Fixpoint initLoop (t : Entries.Table) (r : TransformerRegistry)
    (trs : list TransformerConfig) (ctxs : list TransformerContext)
    (warnings : ValidationWarnings)
  : list TransformerContext * ValidationWarnings * option string :=
  match trs with
  | [] => (ctxs, warnings, None)
  | tc :: rest =>
      let '(transformationCtx, initWarnings, err) := initTransformer t tc r in
      let initWarnings := enrichWarningsWithTransformerName initWarnings (tr_Name tc) in
      match err with
      | Some e => (ctxs, initWarnings, Some e)
      | None => initLoop t r rest (ctxs ++ [transformationCtx]) (warnings ++ initWarnings)
      end
  end.

(** [initAndSetupTransformers]. *)
Definition initAndSetupTransformers
    (t : Entries.Table) (tableConfig : Domains.Table) (dumpConfig : Dump)
    (r : TransformerRegistry) : initOutcome :=
  let auto :=
    if AutoAnonymize dumpConfig then
      match generateDefaultTransformersForUndefinedColumns t tableConfig dumpConfig with
      | (_, Some err) =>
          inl ("cannot generate default transformers for undefined columns: " +:+ err)
      | (defaultTransformers, None) =>
          inr (withTransformers tableConfig
                 (cfg_Transformers tableConfig ++ defaultTransformers))
      end
    else inr tableConfig in
  match auto with
  | inl err => mkInitOutcome tableConfig [] [] (Some err)
  | inr tableConfig =>
      if length (cfg_Transformers tableConfig) =? 0 then
        mkInitOutcome tableConfig [] [] None
      else
        let '(ctxs, warnings, err) :=
          initLoop t r (cfg_Transformers tableConfig) [] [] in
        mkInitOutcome tableConfig ctxs warnings err
  end.

(** [enrichWarningsWithTableName]. *)
Definition enrichWarningsWithTableName
    (warns : ValidationWarnings) (t : Entries.Table) : ValidationWarnings :=
  map (fun w => AddMeta "TableName" (Name t) (AddMeta "SchemaName" (Schema t) w)) warns.

(** The last step of the loop body of [validateAndBuildEntriesConfig]:
    the transformers of one table are set up, the warnings are added to those
    gathered so far, and an error makes the whole function return no
    warnings and the wrapped error. *)
Definition initTransformersStep
    (t : Entries.Table) (tableConfig : Domains.Table) (dumpConfig : Dump)
    (r : TransformerRegistry) (warnings : ValidationWarnings)
  : ValidationWarnings * option string :=
  let o := initAndSetupTransformers t tableConfig dumpConfig r in
  let transformersInitWarns := enrichWarningsWithTableName (io_warnings o) t in
  let warnings := warnings ++ transformersInitWarns in
  match io_err o with
  | Some err =>
      ([], Some ("cannot initialise and set transformers for table " +:+ Schema t +:+
                 "." +:+ Name t +:+ ": " +:+ err))
  | None => (warnings, None)
  end.

End WithRuntime.

End ConfigBuilder.

(** ** Vocabulary for the statements about the WITH clause *)

Module SubsetSpec.
Import GoStrings Subset.

(** CTE [a] depends on CTE [b]: both are defined, they differ, and the body
    of [a] contains the name of [b] in double quotes. *)
Definition dependsOnCte (cteDefs : gmap string string) (a b : string) : Prop :=
  is_Some (cteDefs !! a) /\ is_Some (cteDefs !! b) /\ a <> b /\
  Contains (default "" (cteDefs !! a)) (quoted b) = true.

(** The dependency relation is cyclic: some CTE reaches itself. *)
Definition cyclicDeps (cteDefs : gmap string string) : Prop :=
  exists a, tc (dependsOnCte cteDefs) a a.

(** [x] stands before [y] in [l]. *)
Definition appearsBefore (l : list string) (x y : string) : Prop :=
  exists l1 l2 l3, l = l1 ++ x :: l2 ++ y :: l3.

(** The test of the dependency scan, and the set of names a CTE depends
    on. *)
Definition depb (cteDefs : gmap string string) (n m : string) : bool :=
  negb (String.eqb n m) && Contains (default "" (cteDefs !! n)) (quoted m).

Definition depSet (cteDefs : gmap string string) (n : string) : gset string :=
  list_to_set (List.filter (depb cteDefs n) (cteNames cteDefs)).

(** The rendering of one CTE in the WITH list of [buildWithClause]. *)
Definition renderWith (cteDefs : gmap string string) (name : string) : string :=
  quoted name +:+ " AS (" +:+ default "" (cteDefs !! name) +:+ ")".

(** The scan keeps [inDegree] equal to the size of [dependsOn]. *)
Definition degInv (st : depState) : Prop :=
  forall k, degOf st.2 k = Z.of_nat (size (depsOf st.1 k)).

(** The names that become available when [n] is emitted. *)
Definition released (n : string) (d : gmap string (gset string)) (i : gmap string Z)
    (ks : list string) : list string :=
  List.filter (fun m => bool_decide (n ∈ depsOf d m) && Z.eqb (degOf i m) 1) ks.

(** The loop invariant of the main loop of [buildWithClause]: [ordered] and
    [zero] are disjoint lists of names without repetition; [dependsOn] holds
    the dependencies that are not emitted yet and [inDegree] their number;
    [zero] is sorted and holds exactly the names that are not emitted and
    whose dependencies all are; every emitted name came after its
    dependencies and was the least name available at that point. *)
Record kahnInv (cteDefs : gmap string string) (st : depState)
    (zero ordered : list string) : Prop := mkKahnInv {
  ki_nodup : NoDup (ordered ++ zero);
  ki_names : forall x, x ∈ ordered ++ zero -> x ∈ cteNames cteDefs;
  ki_deps : forall m, m ∈ cteNames cteDefs ->
              depsOf st.1 m = depSet cteDefs m ∖ list_to_set ordered;
  ki_deg : forall m, m ∈ cteNames cteDefs ->
              degOf st.2 m = Z.of_nat (size (depsOf st.1 m));
  ki_sorted : StronglySorted String.le zero;
  ki_zero : forall m, m ∈ cteNames cteDefs ->
              (m ∈ zero <-> ((m ∉ ordered) /\ depSet cteDefs m ⊆ list_to_set ordered));
  ki_greedy : forall pre x post, ordered = pre ++ x :: post ->
              depSet cteDefs x ⊆ list_to_set pre /\
              forall y, y ∈ cteNames cteDefs -> y ∉ pre ->
                        depSet cteDefs y ⊆ list_to_set pre -> String.le x y
}.

End SubsetSpec.

(** ** Vocabulary for the statements about the config builder *)

Module ConfigBuilderSpec.
Import GoStrings Toolkit Entries Subset Domains Registry Transformers ConfigBuilder.

(** The result list holds, for the table [schema.name], the transformer
    [tr]. *)
Definition holdsTransformer (res : list tableConfigMapping)
    (schema name : string) (tr : TransformerConfig) : Prop :=
  exists tcm, In tcm res /\
    Schema (tcm_entry tcm) = schema /\ Name (tcm_entry tcm) = name /\
    In tr (cfg_Transformers (tcm_config tcm)).

(** The entry of a partition as it reads after the expansion wrote to it:
    it records the parent and has the columns of the parent. *)
Definition leafEntry (parent leaf : Entries.Table) : Entries.Table :=
  mkTable (Schema leaf) (Name leaf) (Oid leaf) (Columns parent) (PrimaryKey leaf)
    (RelKind leaf) (Schema parent) (Name parent) (Oid parent) (SubsetConds leaf).

(** A column that auto-anonymize has to give a default transformer: not
    configured, not skip-listed, not generated, not in the primary key. *)
Definition needsDefault (t : Entries.Table) (definedColumns skipColumns : gset string)
    (column : Column) : Prop :=
  (col_Name column ∉ definedColumns) /\ (col_Name column ∉ skipColumns) /\
  col_IsGenerated column = false /\
  slicesContains (PrimaryKey t) (col_Name column) = false.

(** The warnings of [checkApplyForReferenceMetRequirements], transformer by
    transformer. *)
Definition checkWarningsOf (r : TransformerRegistry) (tr : TransformerConfig)
  : ValidationWarnings :=
  if negb (tr_ApplyForReferences tr) then []
  else
    let '(allowed, w) := isTransformerAllowedToApplyForReferences tr r in
    if negb allowed then w else [].

(** The warning for a transformer that does not allow references. *)
Definition notSupportedWarning (name : string) : ValidationWarning :=
  SetSeverity ErrorValidationSeverity
    (AddMeta "TransformerName" name
       (SetMsg "cannot apply transformer for references: transformer does not support apply for references"
          NewValidationWarning)).

(** The root transformer [collectRootTransformers] makes of a configured
    transformer, if it makes one. *)
Definition rootTransformerOf (rootTable : Entries.Table) (tr : TransformerConfig)
  : list transformersMapping :=
  if negb (tr_ApplyForReferences tr) ||
     negb (String.eqb (param tr engineParameterName) "hash")
  then []
  else
    match slicesIndex (PrimaryKey rootTable) (param tr columnParameterName) with
    | None => []
    | Some idx =>
        [mkTransformersMapping rootTable (param tr columnParameterName) idx tr]
    end.

(** An edge the walk processes when it stands at row [i] of the reversed
    graph: an edge of that row and, beyond the first level, only when the
    end-to-end test of the table the edge leaves passes. *)
Definition processedAt (g : Graph) (deep : bool) (i : nat) (e : Edge) : Prop :=
  exists edges,
    graph_reversed g !! i = Some edges /\ In e edges /\
    (deep = true -> isEndToEndPKFK g (tl_table (edge_from e)) = Ok true).

(** The rows the walk that starts at row [i0] comes to, each with the
    level at which it comes to it: the first level or a deeper one. *)
Inductive walkedRow (g : Graph) (i0 : nat) : bool -> nat -> Prop :=
| walked_root : walkedRow g i0 false i0
| walked_child (deep : bool) (i : nat) (e : Edge) (j : nat) :
    walkedRow g i0 deep i ->
    processedAt g deep i e ->
    findTableIndex g (tl_table (edge_to e)) = Some j ->
    walkedRow g i0 true j.

(** What the walk from row [i0] needs in order to return, on the rows it
    comes to and the edges it processes there, and on no other part of the
    graph.  The first two conditions hold of any graph that has one row of
    edges per table and whose edges leave tables of the graph.  The last
    two are not checked by the code: the keys on the referencing side of a
    processed edge reach the positions of the root transformers (or the
    index expression of [processReference] panics), and a rank decreases
    from a row to the rows its processed edges lead to (or the recursion
    does not end; nothing in the walk recalls the tables it has seen).  A
    table that references itself meets the last condition unless it passes
    the end-to-end test. *)
Record walkInRange (g : Graph) (rootTrans : list transformersMapping)
    (i0 : nat) (rank : bool -> nat -> nat) : Prop := mkWalkInRange {
  wr_rows : forall deep i,
    walkedRow g i0 deep i -> i < length (graph_reversed g);
  wr_from : forall i edges e,
    walkedRow g i0 true i -> graph_reversed g !! i = Some edges -> In e edges ->
    exists b, isEndToEndPKFK g (tl_table (edge_from e)) = Ok b;
  wr_keys : forall deep i e rootTr,
    walkedRow g i0 deep i -> processedAt g deep i e -> In rootTr rootTrans ->
    tm_attNum rootTr < length (tl_keys (edge_to e));
  wr_rank : forall deep i e j,
    walkedRow g i0 deep i -> processedAt g deep i e ->
    findTableIndex g (tl_table (edge_to e)) = Some j ->
    rank true j < rank deep i
}.

(** The partition lookup of a configured table does not fail, if the
    builder makes one: the table is partitioned and its config says
    apply_for_inherited. *)
Definition partitionLookupSucceeds
    (findPartitions : Entries.Table -> list N * option string)
    (tcm : tableConfigMapping) : Prop :=
  RelKind (tcm_entry tcm) = "p"%char ->
  cfg_ApplyForInherited (tcm_config tcm) = true ->
  (findPartitions (tcm_entry tcm)).2 = None.

(** What the body of the loop of [setConfigToEntries] needs in order to
    return without error for the configured table [tcm]: its partition
    lookup, if one is made, does not fail; and when the references are
    walked from it, the walk stays in range and the fuel exceeds the rank of
    the walk (one unit is enough when the table is not in the graph). *)
Definition stepInRange
    (findPartitions : Entries.Table -> list N * option string) (fuel : nat)
    (g : Graph) (r : TransformerRegistry) (tcm : tableConfigMapping) : Prop :=
  partitionLookupSucceeds findPartitions tcm /\
  (hasTransformerWithApplyForReferences tcm = true ->
   (checkApplyForReferenceMetRequirements tcm r).1 = true ->
   0 < fuel /\
   forall idx, findTableIndex g (tcm_entry tcm) = Some idx ->
     exists rank,
       walkInRange g (collectRootTransformers (tcm_entry tcm) (tcm_config tcm)) idx rank /\
       rank false idx + 1 < fuel).

End ConfigBuilderSpec.

(** ** Fixtures: the scenarios of the specification *)

Module Fixtures.
Import GoStrings Toolkit Entries Subset Domains Registry Transformers ConfigBuilder.
Import ConfigBuilderSpec.

Definition intColumn (name : string) : Column :=
  mkColumn name "int4" "integer" false "".

Definition plainTable (schema name : string) (oid : N)
    (cols : list Column) (pk : list string) : Entries.Table :=
  mkTable schema name oid cols pk "r" "" "" 0%N [].

(** *** Two-table cycle: a(b_id) -> b(id), b(a_id) -> a(id) *)

Definition table_a : Entries.Table :=
  plainTable "public" "a" 1%N [intColumn "id"; intColumn "b_id"] ["id"].
Definition table_b : Entries.Table :=
  plainTable "public" "b" 2%N [intColumn "id"; intColumn "a_id"] ["id"].

Definition edge_a_b : Edge :=
  mkEdge 0 (mkTableLink table_a [mkKey "b_id"]) (mkTableLink table_b [mkKey "id"]).
Definition edge_b_a : Edge :=
  mkEdge 1 (mkTableLink table_b [mkKey "a_id"]) (mkTableLink table_a [mkKey "id"]).

Definition component_ab : Component :=
  mkComponent [[edge_a_b; edge_b_a]] [[0]].

(** Stand-ins for the two CTE bodies of the cycle. *)
Definition body_a : string :=
  "SELECT id FROM public.a WHERE TRUE UNION SELECT a.id FROM public.a JOIN public.b ON a.b_id = b.id".
Definition body_b : string :=
  "SELECT id FROM public.b WHERE TRUE UNION SELECT b.id FROM public.b JOIN public.a ON b.a_id = a.id".

(** A sequence of [addItem] calls, and the query holder it builds. *)
Definition addItems (calls : list (string * string)) (c : cteQuery) : cteQuery :=
  fold_left (fun c call => addItem c call.1 call.2) calls c.

Definition cq_ab : cteQuery :=
  addItems [("public__a__ids", body_a); ("public__b__ids", body_b)]
           (newCteQuery component_ab).

(** The first body registered under a name. *)
Definition firstBody (name : string) (calls : list (string * string)) : option string :=
  snd <$> List.find (fun call => String.eqb call.1 name) calls.

(** The rendering of one CTE in the WITH list of [generateQuery]. *)
Definition renderCte (item : cteItem) : string :=
  " " +:+ item_name item +:+ " AS (" +:+ item_query item +:+ ")".

(** The final projection of table [a] by primary key. *)
Definition projection_a : string :=
  "SELECT " +:+ quoted "public" +:+ "." +:+ quoted "a" +:+ "." +:+ quoted "id" +:+
  ", " +:+ quoted "public" +:+ "." +:+ quoted "a" +:+ "." +:+ quoted "b_id" +:+
  " FROM " +:+ quoted "public" +:+ "." +:+ quoted "a" +:+
  " WHERE (" +:+ quoted "public" +:+ "." +:+ quoted "a" +:+ "." +:+ quoted "id" +:+
  ") IN (SELECT " +:+ quoted "public__a__ids" +:+ "." +:+ quoted "id" +:+
  " FROM " +:+ quoted "public__a__ids" +:+ ")".

(** The names of the items of a query holder are exactly the names its
    [names] map marks, and no name is held twice. *)
Definition cq_wf (c : cteQuery) : Prop :=
  (forall n, default false (cq_names c !! n) = true <-> In n (map item_name (cq_items c))) /\
  List.NoDup (map item_name (cq_items c)).

(** *** Reference propagation: users, orders, order_items, comments *)

Definition users : Entries.Table :=
  plainTable "public" "users" 10%N [intColumn "id"] ["id"].
Definition orders : Entries.Table :=
  plainTable "public" "orders" 11%N [intColumn "id"; intColumn "user_id"] ["id"].
Definition order_items : Entries.Table :=
  plainTable "public" "order_items" 12%N [intColumn "order_id"] ["order_id"].
Definition comments : Entries.Table :=
  plainTable "public" "comments" 13%N [intColumn "id"; intColumn "user_id"] ["id"].
(** A second table that references [orders], with a primary key of its
    own. *)
Definition shipments : Entries.Table :=
  plainTable "public" "shipments" 14%N [intColumn "id"; intColumn "order_id"] ["id"].

(** The edge of the reversed graph from a referenced table to a referencing
    one. *)
Definition refEdge (id : nat) (parent : Entries.Table) (pk : string)
    (child : Entries.Table) (fk : string) : Edge :=
  mkEdge id (mkTableLink parent [mkKey pk]) (mkTableLink child [mkKey fk]).

Definition graph_shop : Graph :=
  mkGraph [users; orders; order_items; comments]
    [ [refEdge 0 users "id" orders "user_id"; refEdge 1 users "id" comments "user_id"];
      [refEdge 2 orders "id" order_items "order_id"];
      [];
      [] ].

(** The same schema with [shipments(order_id) -> orders(id)] added. *)
Definition graph_shop_shipments : Graph :=
  mkGraph [users; orders; order_items; comments; shipments]
    [ [refEdge 0 users "id" orders "user_id"; refEdge 1 users "id" comments "user_id"];
      [refEdge 2 orders "id" order_items "order_id";
       refEdge 3 orders "id" shipments "order_id"];
      [];
      [];
      [] ].

(** The same schema where only [shipments] references [orders]. *)
Definition graph_shop_only_shipments : Graph :=
  mkGraph [users; orders; comments; shipments]
    [ [refEdge 0 users "id" orders "user_id"; refEdge 1 users "id" comments "user_id"];
      [refEdge 3 orders "id" shipments "order_id"];
      [];
      [] ].

Definition hashTransformer (column : string) : TransformerConfig :=
  mkTransformerConfig "Hash" true
    (<["column" := column]> (<["engine" := "hash"]> ∅)) "".

Definition cfg_users : Domains.Table :=
  mkCfgTable "public" "users" [hashTransformer "id"] false ∅ [].

(** The clone the propagation puts on a referencing column. *)
Definition propagatedHash (column : string) : TransformerConfig :=
  mkTransformerConfig "Hash" true
    (<["column" := column]> (<["column" := "id"]> (<["engine" := "hash"]> ∅))) "".

Definition propagatedBinding (child : Entries.Table) (column : string)
  : tableConfigMapping :=
  mkTcm child (mkCfgTable (Schema child) (Name child) [propagatedHash column] false ∅ []).

Definition columnParams : list ParameterDefinition :=
  [mkParameterDefinition "column" true false].

Definition registry_std : TransformerRegistry :=
  <["Hash" := mkTransformerDefinition columnParams
                (<[AllowApplyForReferenced := true]>
                 (<[RequireHashEngineParameter := true]> ∅))]>
  (<["RandomString" := mkTransformerDefinition columnParams
                (<[AllowApplyForReferenced := false]>
                 (<[RequireHashEngineParameter := false]> ∅))]>
  (<["RandomDate" := mkTransformerDefinition columnParams
                (<[AllowApplyForReferenced := true]>
                 (<[RequireHashEngineParameter := true]> ∅))]>
  (<["Replace" := mkTransformerDefinition columnParams
                (<[AllowApplyForReferenced := true]>
                 (<[RequireHashEngineParameter := false]> ∅))]> ∅))).

(** A catalog without partitions. *)
Definition noPartitions (t : Entries.Table) : list N * option string := ([], None).

(** *** A transformer that passes the registry checks without the hash
    engine: [Replace] allows references and does not require the hash
    engine. *)
Definition replaceTransformer : TransformerConfig :=
  mkTransformerConfig "Replace" true
    (<["column" := "id"]> (<["value" := "0"]> ∅)) "".

Definition cfg_users_replace : Domains.Table :=
  mkCfgTable "public" "users" [replaceTransformer] false ∅ [].

(** *** Reference propagation rejected: RandomString on users.id *)

Definition randomStringTransformer : TransformerConfig :=
  mkTransformerConfig "RandomString" true (<["column" := "id"]> ∅) "".

Definition cfg_users_rejected : Domains.Table :=
  mkCfgTable "public" "users" [randomStringTransformer] false ∅ [].

(** *** Partitioned parent: events with events_2024 and events_2025 *)

Definition tsColumn : Column := mkColumn "ts" "timestamptz" "timestamp with time zone" false "".

Definition events : Entries.Table :=
  mkTable "public" "events" 20%N [intColumn "id"; tsColumn] ["id"] "p" "" "" 0%N [].
Definition events_2024 : Entries.Table :=
  plainTable "public" "events_2024" 21%N [intColumn "id"; tsColumn] ["id"].
Definition events_2025 : Entries.Table :=
  plainTable "public" "events_2025" 22%N [intColumn "id"; tsColumn] ["id"].

Definition randomDateTransformer : TransformerConfig :=
  mkTransformerConfig "RandomDate" false (<["column" := "ts"]> ∅) "".

Definition cfg_events : Domains.Table :=
  mkCfgTable "public" "events" [randomDateTransformer] true ∅ [].

Definition partitions_events (t : Entries.Table) : list N * option string :=
  if N.eqb (Oid t) 20%N then ([21%N; 22%N], None) else ([], None).

Definition graph_events : Graph :=
  mkGraph [events; events_2024; events_2025] [[]; []; []].

(** *** A partition that references a table of its own:
    visits_2024(user_id) -> users(id), where visits_2024 is a partition of
    visits. *)

Definition visits : Entries.Table :=
  mkTable "public" "visits" 80%N [intColumn "id"; intColumn "user_id"; tsColumn] ["id"]
    "p" "" "" 0%N [].
Definition visits_2024 : Entries.Table :=
  plainTable "public" "visits_2024" 81%N [intColumn "id"; intColumn "user_id"] ["id"].

Definition partitions_visits (t : Entries.Table) : list N * option string :=
  if N.eqb (Oid t) 80%N then ([81%N], None) else ([], None).

Definition graph_visits : Graph :=
  mkGraph [users; visits; visits_2024]
    [ [refEdge 0 users "id" visits_2024 "user_id"]; []; [] ].

Definition cfg_visits : Domains.Table :=
  mkCfgTable "public" "visits" [randomDateTransformer] true ∅ [].

(** A config of its own for the partition [events_2024]. *)
Definition cfg_events_2024 : Domains.Table :=
  mkCfgTable "public" "events_2024" [randomDateTransformer] false ∅ [].

(** *** A partitioned parent whose primary key is referenced by another
    partitioned table: events(id) hashed for references, and
    event_logs(event_id) -> events(id) with event_logs partitioned. *)

Definition event_logs : Entries.Table :=
  mkTable "public" "event_logs" 30%N [intColumn "id"; intColumn "event_id"] ["id"]
    "p" "" "" 0%N [].

Definition cfg_events_hash : Domains.Table :=
  mkCfgTable "public" "events" [hashTransformer "id"] true ∅ [].

Definition graph_events_logs : Graph :=
  mkGraph [events; events_2024; events_2025; event_logs]
    [ [refEdge 0 events "id" event_logs "event_id"]; []; []; [] ].

(** *** A table that references itself: staff(manager_id) -> staff(id),
    and badges(staff_id) -> staff(id). *)

Definition staff : Entries.Table :=
  plainTable "public" "staff" 70%N [intColumn "id"; intColumn "manager_id"] ["id"].
Definition badges : Entries.Table :=
  plainTable "public" "badges" 71%N [intColumn "id"; intColumn "staff_id"] ["id"].

Definition graph_staff : Graph :=
  mkGraph [staff; badges]
    [ [refEdge 0 staff "id" staff "manager_id"; refEdge 1 staff "id" badges "staff_id"];
      [] ].

Definition cfg_staff : Domains.Table :=
  mkCfgTable "public" "staff" [hashTransformer "id"] false ∅ [].

(** On the first level the walk stands at [staff] with rank 1; every row
    it comes to after that has rank 0. *)
Definition rank_staff (deep : bool) (i : nat) : nat :=
  if deep then 0 else 1.

(** *** A primary key of two columns that is referenced as a whole and
    through its second column alone: tenant_accounts(tenant_id, id);
    invoices(tenant_id, account_id) references both columns,
    audits(account_id) references tenant_accounts(id), which has a unique
    index of its own. *)

Definition tenant_accounts : Entries.Table :=
  plainTable "public" "tenant_accounts" 50%N
    [intColumn "tenant_id"; intColumn "id"] ["tenant_id"; "id"].
Definition invoices : Entries.Table :=
  plainTable "public" "invoices" 51%N
    [intColumn "id"; intColumn "tenant_id"; intColumn "account_id"] ["id"].
Definition audits : Entries.Table :=
  plainTable "public" "audits" 52%N [intColumn "id"; intColumn "account_id"] ["id"].

Definition edge_invoices : Edge :=
  mkEdge 0 (mkTableLink tenant_accounts [mkKey "tenant_id"; mkKey "id"])
           (mkTableLink invoices [mkKey "tenant_id"; mkKey "account_id"]).

Definition graph_tenants : Graph :=
  mkGraph [tenant_accounts; invoices; audits]
    [ [edge_invoices; refEdge 1 tenant_accounts "id" audits "account_id"]; []; [] ].

Definition cfg_tenant_accounts : Domains.Table :=
  mkCfgTable "public" "tenant_accounts" [hashTransformer "id"] false ∅ [].

(** *** Two tables that share their primary key and reference each other:
    person(id) -> passport(id) and passport(id) -> person(id). *)

Definition person : Entries.Table :=
  plainTable "public" "person" 60%N [intColumn "id"] ["id"].
Definition passport : Entries.Table :=
  plainTable "public" "passport" 61%N [intColumn "id"] ["id"].

Definition graph_person : Graph :=
  mkGraph [person; passport]
    [ [refEdge 0 person "id" passport "id"]; [refEdge 1 passport "id" person "id"] ].

Definition cfg_person : Domains.Table :=
  mkCfgTable "public" "person" [hashTransformer "id"] false ∅ [].

(** *** Auto-anonymize with a column of a type without default *)

Definition geoColumn : Column := mkColumn "location" "geography" "" false "".

Definition places : Entries.Table :=
  plainTable "public" "places" 40%N [intColumn "id"; geoColumn] ["id"].

Definition cfg_places : Domains.Table :=
  mkCfgTable "public" "places" [] false ∅ [].

Definition dump_auto : Dump := mkDump true [cfg_places].

(** Stand-ins for the runtime: no column containers to decode, and an
    initialization that yields no context data, no warnings and no error. *)
Definition noColumnDefs (p : string) : option (list string) := None.
Definition initNothing (t : Entries.Table) (tc : TransformerConfig)
    (r : TransformerRegistry) : unit * ValidationWarnings * option string :=
  (tt, [], None).

(** A stand-in for [strings.Map(unicode.ToLower, s)] in the examples: all
    their type names are ASCII, so [ToLower] never calls it. *)
Definition keepNonAscii (s : string) : string := s.

(** *** WITH lists *)

(** [c] mentions [a] and [b], [b] mentions [a]. *)
Definition ctes_chain : gmap string string :=
  <["c" := "SELECT * FROM " +:+ quoted "a" +:+ " JOIN " +:+ quoted "b" +:+ " USING (id)"]>
  (<["b" := "SELECT id FROM " +:+ quoted "a"]>
  (<["a" := "SELECT id FROM t"]> ∅)).

(** [a] mentions [z]; [b] and [z] mention nothing. *)
Definition ctes_ties : gmap string string :=
  <["a" := "SELECT id FROM " +:+ quoted "z"]>
  (<["b" := "SELECT id FROM t"]>
  (<["z" := "SELECT id FROM u"]> ∅)).

(** [a] and [z] mention each other. *)
Definition ctes_cyclic : gmap string string :=
  <["a" := "SELECT id FROM " +:+ quoted "z"]>
  (<["b" := "SELECT id FROM t"]>
  (<["z" := "SELECT id FROM " +:+ quoted "a"]> ∅)).

(** A rank that decreases along the dependencies of [ctes_ties]. *)
Definition rank_ties (s : string) : nat := if String.eqb s "a" then 1 else 0.

(** A component with two grouped cycles. *)
Definition component_two_groups : Component :=
  mkComponent [[edge_a_b; edge_b_a]] [[0]; [1]].

End Fixtures.

(** ** Package [subset]: join clauses and string lists *)

Module SubsetJoins.
Import GoStrings Toolkit Entries Subset.

Definition joinTypeInner : string := "INNER".
Definition joinTypeLeft : string := "LEFT".

(** [dedupeStrings]: the loop keeps the set of the strings seen and the
    output list. *)
Definition dedupeStep (st : gset string * list string) (v : string)
  : gset string * list string :=
  if decide (v ∈ st.1) then st else ({[v]} ∪ st.1, st.2 ++ [v]).

Definition dedupeStrings (values : list string) : list string :=
  if length values <=? 1 then values
  else (fold_left dedupeStep values (∅, [])).2.

Section Joins.

(** [Key.GetKeyReference], whose declaration is not part of the sources. *)
Variable GetKeyReference : Key -> Entries.Table -> string.

(** The names under which the columns of the left table of a dropped edge
    are selected: shortened to the identifier limit. *)
Definition droppedEdgeLeftKeys (edge : Edge) : list string :=
  let table := tl_table (edge_from edge) in
  fold_left
    (fun acc key =>
       acc ++ [shorten (Schema table +:+ "__" +:+ Name table +:+ "__" +:+ key_Name key)])
    (tl_keys (edge_from edge)) [].

(** The loop over the keys of the right side in
    [generateJoinClauseForDroppedEdge]; reading a left key past the end
    panics. *)
Fixpoint droppedEdgeConds (edge : Edge) (initTableName : string)
    (leftTableKeys : list string) (idx : nat) (toKeys : list Key)
    (conds : list string) : result (list string) :=
  match toKeys with
  | [] => Ok conds
  | key :: rest =>
      match leftTableKeys !! idx with
      | None => Panic (indexOutOfRange idx (length leftTableKeys))
      | Some leftKey =>
          let leftPart := quoted initTableName +:+ "." +:+ quoted leftKey in
          let rightPart := GetKeyReference key (tl_table (edge_to edge)) in
          droppedEdgeConds edge initTableName leftTableKeys (S idx) rest
            (conds ++ [leftPart +:+ " = " +:+ rightPart])
      end
  end.

(** [generateJoinClauseForDroppedEdge]. The polymorphic expressions of the
    two sides of the edge are passed beside it. *)
Definition generateJoinClauseForDroppedEdge (edge : Edge) (initTableName : string)
    (fromPolymorphicExprs toPolymorphicExprs : list string) : result string :=
  conds ← droppedEdgeConds edge initTableName (droppedEdgeLeftKeys edge) 0
             (tl_keys (edge_to edge)) [];
  let conds := if 0 <? length fromPolymorphicExprs then conds ++ fromPolymorphicExprs
               else conds in
  let conds := if 0 <? length toPolymorphicExprs then conds ++ toPolymorphicExprs
               else conds in
  let rightTableName :=
    quoted (Schema (tl_table (edge_to edge))) +:+ "." +:+
    quoted (Name (tl_table (edge_to edge))) in
  Ok ("JOIN " +:+ rightTableName +:+ " ON " +:+ Join conds " AND ").

(** The loop over the keys of the left side in [generateJoinClauseV2];
    reading a right key past the end panics. *)
Fixpoint joinConds (edge : Edge) (overridden : bool) (alias : string)
    (idx : nat) (fromKeys : list Key) (conds : list string) : result (list string) :=
  match fromKeys with
  | [] => Ok conds
  | key :: rest =>
      match tl_keys (edge_to edge) !! idx with
      | None => Panic (indexOutOfRange idx (length (tl_keys (edge_to edge))))
      | Some toKey =>
          let leftPart := GetKeyReference key (tl_table (edge_from edge)) in
          let rightPart := GetKeyReference toKey (tl_table (edge_to edge)) in
          let rightPart :=
            if overridden then quoted alias +:+ "." +:+ quoted (key_Name toKey)
            else rightPart in
          joinConds edge overridden alias (S idx) rest
            (conds ++ [leftPart +:+ " = " +:+ rightPart])
      end
  end.

(** [generateJoinClauseV2]. The polymorphic expressions of the two sides of
    the edge are passed beside it. *)
Definition generateJoinClauseV2 (edge : Edge) (joinType : string)
    (overriddenTables : gmap N string)
    (fromPolymorphicExprs toPolymorphicExprs : list string) : result string :=
  if negb (String.eqb joinType joinTypeInner) && negb (String.eqb joinType joinTypeLeft)
  then Panic ("invalid join type: " +:+ joinType)
  else
    let rightTable := tl_table (edge_to edge) in
    let override := default "" (overriddenTables !! Oid rightTable) in
    let overridden := bool_decide (is_Some (overriddenTables !! Oid rightTable)) in
    let alias := if overridden then override +:+ "_e" +:+ decimal (edge_id edge) else "" in
    conds ← joinConds edge overridden alias 0 (tl_keys (edge_from edge)) [];
    let conds :=
      if negb overridden && (0 <? length (SubsetConds rightTable))
      then conds ++ SubsetConds rightTable else conds in
    let conds := if 0 <? length fromPolymorphicExprs then conds ++ fromPolymorphicExprs
                 else conds in
    let conds := if 0 <? length toPolymorphicExprs then conds ++ toPolymorphicExprs
                 else conds in
    let rightTableName :=
      if overridden then override +:+ " AS " +:+ alias
      else quoted (Schema rightTable) +:+ "." +:+ quoted (Name rightTable) in
    Ok (joinType +:+ " JOIN " +:+ rightTableName +:+ " ON " +:+ Join conds " AND ").

End Joins.

(** A stand-in for [Key.GetKeyReference] in the examples: the qualified,
    quoted column of the key. *)
Definition keyReference (k : Key) (t : Entries.Table) : string :=
  columnRef t (key_Name k).

End SubsetJoins.

(** ** Package [context]: the tables of the config exist *)

Module ConfigTables.
Import GoStrings Toolkit Entries Domains.

Section WithQuery.

(** [tx.QueryRow(ctx, tableExistsQuery, schema, name)] followed by
    [row.Scan(&exists)]: the flag and the error of the scan. *)
Variable queryTableExists : string -> string -> bool * option string.

(** [validateTableExists]. *)
Definition validateTableExists (t : Domains.Table)
  : ValidationWarnings * option string :=
  match queryTableExists (cfg_Schema t) (cfg_Name t) with
  | (_, Some err) => ([], Some ("cannot scan table: " +:+ err))
  | (exists_, None) =>
      if negb exists_ then
        ([AddMeta "TableName" (cfg_Name t)
            (AddMeta "Schema" (cfg_Schema t)
               (SetSeverity ErrorValidationSeverity
                  (SetMsg "table is not found" NewValidationWarning)))],
         None)
      else ([], None)
  end.

(** [validateConfigTables]; the error message names the table as
    name.schema, as the source does. *)
Fixpoint validateConfigTablesLoop (cfg : list Domains.Table)
    (totalWarnings : ValidationWarnings) : ValidationWarnings * option string :=
  match cfg with
  | [] => (totalWarnings, None)
  | t :: rest =>
      match validateTableExists t with
      | (_, Some err) =>
          ([], Some ("cannot validate table " +:+ cfg_Name t +:+ "." +:+
                     cfg_Schema t +:+ ": " +:+ err))
      | (warnings, None) => validateConfigTablesLoop rest (totalWarnings ++ warnings)
      end
  end.

Definition validateConfigTables (cfg : list Domains.Table)
  : ValidationWarnings * option string :=
  validateConfigTablesLoop cfg [].

End WithQuery.

End ConfigTables.

(** ** Package [subset]: the WITH clause under any map iteration order *)

Module SubsetVisiting.
Import GoStrings Subset.

(** The main loop of [buildWithClause] when the range over the map
    [dependsOn], whose order Go leaves open, visits the keys in the order
    [orders !! k] during the k-th iteration; [None] reports that the list of
    orders ran out. *)
Fixpoint kahnLoopVisiting (orders : list (list string)) (st : depState)
    (zero ordered : list string) : option (list string) :=
  match zero with
  | [] => Some ordered
  | n :: zero' =>
      match orders with
      | [] => None
      | keys :: orders' =>
          let '(st', zero'') := fold_left (relaxOne n) keys (st, zero') in
          kahnLoopVisiting orders' st' zero'' (ordered ++ [n])
      end
  end.

Definition cteOrderVisiting (orders : list (list string)) (cteDefs : gmap string string)
  : option (list string) :=
  let names := cteNames cteDefs in
  let st := scanDeps cteDefs names (initDependsOn names, ∅) in
  let zero :=
    sortStrings (List.filter (fun n => Z.eqb (degOf st.2 n) 0) names) in
  match kahnLoopVisiting orders st zero [] with
  | None => None
  | Some ordered =>
      Some (if negb (length ordered =? length names) then names else ordered)
  end.

Definition buildWithClauseVisiting (orders : list (list string))
    (cteDefs : gmap string string) : option string :=
  if size cteDefs =? 0 then Some ""
  else
    match cteOrderVisiting orders cteDefs with
    | None => None
    | Some ordered =>
        let parts :=
          map (fun name => quoted name +:+ " AS (" +:+
                           default "" (cteDefs !! name) +:+ ")") ordered in
        Some ("WITH " +:+ Join parts ", ")
    end.

End SubsetVisiting.

(** ** Vocabulary for the statements about reference propagation *)

Module ReferenceTerms.
Import GoStrings Toolkit Entries Subset Domains Registry Transformers ConfigBuilder.

(** A transformer meets the requirements of propagation to references: it
    is registered, its definition reports AllowApplyForReferenced as true,
    and when the definition reports RequireHashEngineParameter as true the
    engine parameter is hash. *)
Definition meetsReferenceRequirements (r : TransformerRegistry) (tr : TransformerConfig)
  : Prop :=
  exists td,
    r !! tr_Name tr = Some td /\
    td_Meta td !! AllowApplyForReferenced = Some true /\
    (td_Meta td !! RequireHashEngineParameter = Some true ->
     param tr engineParameterName = HashEngineParameterName).

(** The table a binding is for, by schema and name. *)
Definition bindingKey (tcm : tableConfigMapping) : string * string :=
  (Schema (tcm_entry tcm), Name (tcm_entry tcm)).

(** [tr] is the clone of a root transformer for the column [refCol] of the
    table [entry], made because the config has no transformer of that name
    on that column of that table. *)
Definition cloneFor (rootTrans : list transformersMapping)
    (allTrans : list Domains.Table) (entry : Entries.Table) (tr : TransformerConfig)
  : Prop :=
  exists rootTr refCol,
    In rootTr rootTrans /\ tr = cloneTransformer rootTr refCol /\
    checkTransformerAlreadyExists allTrans (Schema entry) (Name entry)
      (tr_Name (tm_cfg rootTr)) refCol = false.

(** The invariant of the result list of the reference walk: one binding
    per table; the config of a binding names the table, does not apply to
    inherited tables and holds at least one transformer; every transformer
    is a clone of a root transformer. *)
Record refBindingsWf (rootTrans : list transformersMapping)
    (allTrans : list Domains.Table) (res : list tableConfigMapping) : Prop :=
  mkRefBindingsWf {
  rb_nodup : List.NoDup (map bindingKey res);
  rb_config : forall tcm, In tcm res ->
    cfg_Schema (tcm_config tcm) = Schema (tcm_entry tcm) /\
    cfg_Name (tcm_config tcm) = Name (tcm_entry tcm) /\
    cfg_ApplyForInherited (tcm_config tcm) = false /\
    cfg_Transformers (tcm_config tcm) <> [];
  rb_clones : forall tcm tr, In tcm res -> In tr (cfg_Transformers (tcm_config tcm)) ->
    cloneFor rootTrans allTrans (tcm_entry tcm) tr
}.

End ReferenceTerms.

Module MoreFixtures.
Import GoStrings Toolkit Entries Subset Domains Registry Transformers ConfigBuilder Fixtures.

(** The config gives [comments.user_id] a Hash transformer of its own,
    with a salt. *)
Definition saltedHash (column : string) : TransformerConfig :=
  mkTransformerConfig "Hash" false
    (<["column" := column]> (<["engine" := "hash"]> (<["salt" := "c2FsdA=="]> ∅))) "".

Definition cfg_comments_manual : Domains.Table :=
  mkCfgTable "public" "comments" [saltedHash "user_id"] false ∅ [].

(** The config gives [orders.id], not [orders.user_id], a Hash transformer
    of its own. *)
Definition cfg_orders_own : Domains.Table :=
  mkCfgTable "public" "orders" [saltedHash "id"] false ∅ [].

(** A table whose name the catalog reports in double quotes, and a config
    that names it without them: Orders(user_id) -> users(id), with a Hash
    transformer of its own on Orders.user_id. *)
Definition orders_quoted : Entries.Table :=
  plainTable "public" (quoted "Orders") 15%N [intColumn "id"; intColumn "user_id"] ["id"].

Definition graph_quoted : Graph :=
  mkGraph [users; orders_quoted] [ [refEdge 0 users "id" orders_quoted "user_id"]; [] ].

Definition cfg_orders_manual : Domains.Table :=
  mkCfgTable "public" "Orders" [saltedHash "user_id"] false ∅ [].

End MoreFixtures.

(** ** Vocabulary for the statements about bindings *)

Module BindingTerms.
Import GoStrings Toolkit Entries Subset Domains Registry Transformers ConfigBuilder.

(** The config [c] names the table [entry]: name and schema agree, each
    as written or once the config's is wrapped in double quotes. *)
Definition namesTable (entry : Entries.Table) (c : Domains.Table) : bool :=
  sameOrQuoted (cfg_Name c) (Name entry) && sameOrQuoted (cfg_Schema c) (Schema entry).

(** A catalog whose partition lookup fails. *)
Definition partitionsUnavailable (t : Entries.Table) : list N * option string :=
  ([], Some "connection reset").

End BindingTerms.

(** ** Vocabulary for the statements about default transformers *)

Module DefaultsTerms.
Import GoStrings Toolkit Entries Subset Domains Registry Transformers ConfigBuilder.

(** The type name [GetDefaultTransformerForColumn] goes by: the canonical
    type name when there is one, else the type of the column. *)
Definition effectiveType (column : Column) : string :=
  if negb (String.eqb (col_CanonicalTypeName column) "") then col_CanonicalTypeName column
  else GetType column.

(** The array test of [GetDefaultTransformerForColumn]. *)
Definition isArrayType (typeName : string) : bool :=
  HasSuffix typeName "[]" || HasPrefix typeName "_".

(** The scalar type names that have a default transformer. *)
Definition supportedScalarTypes : list string :=
  ["text"; "varchar"; "character varying"; "char"; "character"; "bpchar";
   "integer"; "int"; "int4"; "bigint"; "int8"; "smallint"; "int2";
   "numeric"; "decimal";
   "real"; "float4"; "double precision"; "float8";
   "date";
   "timestamp"; "timestamp without time zone";
   "timestamptz"; "timestamp with time zone";
   "boolean"; "bool";
   "uuid";
   "json"; "jsonb"].

(** The test of the last loop of
    [generateDefaultTransformersForUndefinedColumns]. *)
Definition needsDefaultb (t : Entries.Table) (definedColumns skipColumns : gset string)
    (column : Column) : bool :=
  bool_decide (col_Name column ∉ definedColumns) &&
  bool_decide (col_Name column ∉ skipColumns) &&
  negb (col_IsGenerated column) &&
  negb (slicesContains (PrimaryKey t) (col_Name column)).

End DefaultsTerms.

(** ** Vocabulary and fixtures for auto-anonymize and initialization *)

Module ExtractTerms.
Import GoStrings Toolkit Entries Subset Domains Registry Transformers ConfigBuilder.

(** The columns one parameter of a transformer contributes to the
    configured columns: the value of a column parameter; the non-empty
    names of a column container that decodes; nothing otherwise. *)
Definition columnsOfParam (jsonUnmarshalColumnDefs : string -> option (list string))
    (transformer : TransformerConfig) (paramDef : ParameterDefinition) : list string :=
  match tr_Params transformer !! pd_Name paramDef with
  | None => []
  | Some paramValue =>
      if pd_IsColumn paramDef then [paramValue]
      else if pd_IsColumnContainer paramDef then
        match jsonUnmarshalColumnDefs paramValue with
        | Some columnDefs => List.filter (fun n => negb (String.eqb n "")) columnDefs
        | None => []
        end
      else []
  end.

End ExtractTerms.

Module InitFixtures.
Import GoStrings Toolkit Entries Subset Domains Registry Transformers ConfigBuilder Fixtures.

(** A table with a column of every kind the auto-anonymize loop tells
    apart: the primary key, a configured column, a skip-listed column, a
    generated column and two columns left to the defaults. *)
Definition accounts : Entries.Table :=
  plainTable "public" "accounts" 50%N
    [intColumn "id";
     mkColumn "email" "text" "" false "";
     mkColumn "note" "text" "" false "";
     mkColumn "search" "tsvector" "" true "";
     mkColumn "born" "date" "" false "";
     mkColumn "tags" "_text" "" false ""]
    ["id"].

Definition cfg_accounts : Domains.Table :=
  mkCfgTable "public" "accounts"
    [mkTransformerConfig "RandomString" false (<["column" := "email"]> ∅) ""]
    false ∅ ["note"].

(** An initialization that warns about every transformer and fails for
    [Replace]. *)
Definition initWarning (m : string) : ValidationWarning :=
  mkWarning m WarningValidationSeverity ∅.

Definition initStrict (t : Entries.Table) (tc : TransformerConfig)
    (r : TransformerRegistry) : string * ValidationWarnings * option string :=
  (tr_Name tc, [initWarning "checked"],
   if String.eqb (tr_Name tc) "Replace" then Some "value is not valid" else None).

End InitFixtures.

(** ** Vocabulary for the statements about validation *)

Module ValidationTerms.
Import GoStrings Toolkit Entries Subset Domains Registry Transformers ConfigBuilder.

(** The warning [validateTableExists] gives for a table of the config that
    is not in the database. *)
Definition missingTableWarning (t : Domains.Table) : ValidationWarning :=
  AddMeta "TableName" (cfg_Name t)
    (AddMeta "Schema" (cfg_Schema t)
       (SetSeverity ErrorValidationSeverity
          (SetMsg "table is not found" NewValidationWarning))).

(** The warning [validateDoesInheritedConditionHaveAllColumns] gives for a
    column the condition mentions and the table lacks. *)
Definition missingColumnWarning (t : Entries.Table) (colName : string) : ValidationWarning :=
  AddMeta "ColumnName" colName
    (AddMeta "TableName" (Name t)
       (AddMeta "SchemaName" (Schema t)
          (SetSeverity ErrorValidationSeverity
             (SetMsg ("cannot inherit condition: column " +:+ colName +:+
                      " not found in table " +:+ Schema t +:+ "." +:+ Name t)
                NewValidationWarning)))).

Definition hasColumn (t : Entries.Table) (colName : string) : bool :=
  existsb (fun c => String.eqb (col_Name c) colName) (Columns t).

(** A database that holds the tables of the shop and nothing else, and
    one whose query fails for the schema [audit]. *)
Definition shopCatalog (schema name : string) : bool * option string :=
  (String.eqb schema "public" &&
   existsb (String.eqb name) ["users"; "orders"; "order_items"; "comments"],
   if String.eqb schema "audit" then Some "permission denied" else None).

End ValidationTerms.

(** ** Vocabulary for the statements about inherited type overrides *)

Module OverrideTerms.
Import GoStrings Toolkit Entries Subset Domains Registry Transformers ConfigBuilder.

(** The type overrides a propagated binding may carry: none, or the
    override the root config gives one root column, under the name of that
    root column. *)
Definition inheritedOverride (rootTableCfg : Domains.Table)
    (rootTrans : list transformersMapping) (o : gmap string string) : Prop :=
  o = ∅ \/
  exists rootTr v,
    In rootTr rootTrans /\ v <> "" /\
    cfg_ColumnsTypeOverride rootTableCfg !! tm_columnName rootTr = Some v /\
    o = {[tm_columnName rootTr := v]}.

(** The root config of the shop with the type of [users.id] overridden. *)
Definition cfg_users_override : Domains.Table :=
  mkCfgTable "public" "users" [Fixtures.hashTransformer "id"] false
    (<["id" := "int8"]> ∅) [].

End OverrideTerms.

(** ** Vocabulary of the partition expansion *)

Module ExpansionTerms.
Import GoStrings Toolkit Entries Subset Domains Registry Transformers ConfigBuilder.

(** The partitions in scope: for every Oid the partition lookup returned,
    in order, the first table of the dump with that Oid, if there is
    one. *)
Definition partitionsInScope (tables : list Entries.Table) (parts : list N)
  : list Entries.Table :=
  flat_map
    (fun pt =>
       match List.find (fun t => N.eqb (Oid t) pt) tables with
       | Some e => [e]
       | None => []
       end)
    parts.

(** The store after the fields [w] were written to the entries [leaves]. *)
Definition writeAll (w : entryWrites) (leaves : list Entries.Table) (s : entryStore)
  : entryStore :=
  fold_left (fun s e => <[Oid e := w]> s) leaves s.

End ExpansionTerms.

(** * Properties *)

(** ** Facts about the Go runtime helpers *)

Module GoStringsFacts.
Import GoStrings.

Lemma length_append (s t : string) :
  String.length (s +:+ t) = String.length s + String.length t.
Proof. induction s as [|a s IH]; simpl; [reflexivity|]. now rewrite IH. Qed.

Lemma length_substring_le (n m : nat) (s : string) :
  String.length (String.substring n m s) <= m.
Proof.
  revert n m. induction s as [|a s IH]; intros [|n] [|m]; simpl; try lia.
  - specialize (IH 0 m). lia.
  - apply (IH n 0).
  - apply (IH n (S m)).
Qed.

Lemma length_substring_exact (m : nat) (s : string) :
  m <= String.length s -> String.length (String.substring 0 m s) = m.
Proof.
  revert m. induction s as [|a s IH]; intros [|m] H; simpl in *; try lia.
  rewrite IH; lia.
Qed.

Lemma IndexFunc_Some {A} (l : list A) (p : A -> bool) (i : nat) :
  IndexFunc l p = Some i ->
  exists x, l !! i = Some x /\ p x = true /\
            forall j y, j < i -> l !! j = Some y -> p y = false.
Proof.
  revert i. induction l as [|a l IH]; intros i H; simpl in H; [discriminate|].
  destruct (p a) eqn:Hp.
  - inversion H; subst. exists a. repeat split; auto. intros; lia.
  - destruct (IndexFunc l p) as [k|] eqn:Hk; simpl in H; [|discriminate].
    inversion H; subst. destruct (IH k eq_refl) as (x & Hx & Hpx & Hmin).
    exists x. repeat split; auto.
    intros [|j] y Hj Hy; simpl in Hy.
    + inversion Hy; subst; exact Hp.
    + apply (Hmin j); [lia|exact Hy].
Qed.

Lemma IndexFunc_None {A} (l : list A) (p : A -> bool) :
  IndexFunc l p = None -> forall x, In x l -> p x = false.
Proof.
  induction l as [|a l IH]; intros H x Hx; simpl in *; [contradiction|].
  destruct (p a) eqn:Hp; [discriminate|].
  destruct (IndexFunc l p) eqn:Hk; simpl in H; [discriminate|].
  destruct Hx as [->|Hx]; auto.
Qed.

(** A loop that appends [f x] for the elements it does not skip is a
    filter followed by a map. *)
Lemma fold_left_skip_append {A B} (skip : A -> bool) (f : A -> B)
    (l : list A) (acc : list B) :
  fold_left (fun acc x => if skip x then acc else acc ++ [f x]) l acc =
  acc ++ map f (List.filter (fun x => negb (skip x)) l).
Proof.
  revert acc. induction l as [|x l IH]; intros acc; simpl.
  - now rewrite app_nil_r.
  - destruct (skip x); simpl; rewrite IH; [reflexivity|].
    now rewrite <- app_assoc.
Qed.

Lemma fold_left_append_map {A B} (f : A -> B) (l : list A) (acc : list B) :
  fold_left (fun acc x => acc ++ [f x]) l acc = acc ++ map f l.
Proof.
  revert acc. induction l as [|x l IH]; intros acc; simpl.
  - now rewrite app_nil_r.
  - rewrite IH. now rewrite <- app_assoc.
Qed.

Lemma slicesContains_In (l : list string) (x : string) :
  slicesContains l x = true <-> In x l.
Proof.
  unfold slicesContains. rewrite existsb_exists. split.
  - intros (y & Hy & Heq). apply String.eqb_eq in Heq. now subst.
  - intros H. exists x. split; [exact H|apply String.eqb_refl].
Qed.

End GoStringsFacts.

(** ** The SQL fragment builder *)

Module SubsetFacts.
Import GoStrings GoStringsFacts Toolkit Entries Subset Fixtures.

Lemma length_be32 (w : Z) : length (Sha1.be32 w) = 4.
Proof. reflexivity. Qed.

Lemma length_Sum (data : string) : length (Sha1.Sum data) = 20.
Proof.
  unfold Sha1.Sum.
  destruct (Sha1.blocks _ _ _) as [[[[h0 h1] h2] h3] h4].
  rewrite !length_app, !length_be32. reflexivity.
Qed.

Lemma length_hex (bs : list Z) : String.length (Sha1.hex bs) = 2 * length bs.
Proof. induction bs as [|b bs IH]; simpl; [reflexivity|]. rewrite IH. lia. Qed.

(** The model of [sha1.Sum] at the test vectors of the standard (FIPS
    180): the empty message, the message abc and the message of 56 bytes. *)
Lemma Sum_test_vectors :
  Sha1.hex (Sha1.Sum "") = "da39a3ee5e6b4b0d3255bfef95601890afd80709" /\
  Sha1.hex (Sha1.Sum "abc") = "a9993e364706816aba3e25717850c26c9cd0d89d" /\
  Sha1.hex (Sha1.Sum "abcdbcdecdefdefgefghfghighijhijkijkljklmklmnlmnomnopnopq") =
    "84983e441c3bd26ebaae4aa1f95129e5e54670f1".
Proof. repeat split; vm_compute; reflexivity. Qed.

(** C9. [shorten] is a function of its argument (the same name always
    yields the same identifier); a name of at most 63 bytes is returned
    unchanged; a longer name becomes its first 40 bytes, an underscore and
    the 10 hexadecimal digits of the first 5 bytes of its SHA-1 digest,
    which is 51 bytes long and so at most 63. *)
Theorem C9_shorten (name : string) :
  (forall name', name' = name -> shorten name' = shorten name) /\
  (String.length name <= 63 -> shorten name = name) /\
  (63 < String.length name ->
     shorten name =
       String.substring 0 40 name +:+ "_" +:+ Sha1.hex (firstn 5 (Sha1.Sum name)) /\
     String.length (Sha1.hex (firstn 5 (Sha1.Sum name))) = 10 /\
     String.length (shorten name) <= 63).
Proof.
  split; [intros name' ->; reflexivity|].
  unfold shorten. split.
  - intros H. apply Nat.leb_le in H. now rewrite H.
  - intros H. apply Nat.leb_gt in H. rewrite H. simpl Nat.ltb. cbv iota.
    assert (Hhex : String.length (Sha1.hex (firstn 5 (Sha1.Sum name))) = 10).
    { rewrite length_hex, length_firstn, length_Sum. reflexivity. }
    split; [reflexivity|]. split; [exact Hhex|].
    rewrite !length_append, Hhex. simpl String.length.
    pose proof (length_substring_le 0 40 name). lia.
Qed.

(** The clause of C9 at a name of 69 bytes. *)
Lemma C9_shorten_witness :
  shorten "public__a_very_long_table_name_that_goes_on_and_on_and_on_and_on__ids" =
    "public__a_very_long_table_name_that_goes_731e4efed8" /\
  String.length
    (shorten "public__a_very_long_table_name_that_goes_on_and_on_and_on_and_on__ids") <= 63.
Proof.
  pose proof (C9_shorten
    "public__a_very_long_table_name_that_goes_on_and_on_and_on_and_on__ids")
    as (_ & _ & H).
  destruct H as (Heq & _ & Hlen); [vm_compute; lia|].
  split; [|exact Hlen].
  rewrite Heq. vm_compute. reflexivity.
Defined.

(** C2 as stated fails: for the single predicate [active = true] the
    clause has no trailing [AND TRUE]. *)
Lemma C2_counterexample :
  generateWhereClause ["active = true"] = "WHERE ( active = true )" /\
  generateWhereClause ["active = true"] <> "WHERE ( active = true ) AND TRUE".
Proof. split; [reflexivity|discriminate]. Qed.

(** C2 (amended). For a non-empty list of subset conditions the WHERE
    clause is the conditions, each in parentheses, joined by AND, with
    nothing after the last one; for the empty list it is WHERE TRUE. *)
Theorem C2_generateWhereClause (subsetConds : list string) :
  generateWhereClause subsetConds =
    match subsetConds with
    | [] => "WHERE TRUE"
    | _ :: _ =>
        "WHERE " +:+ Join (map (fun cond => "( " +:+ cond +:+ " )") subsetConds) " AND "
    end.
Proof.
  unfold generateWhereClause. destruct subsetConds as [|c cs]; [reflexivity|].
  cbn [length Nat.eqb].
  now rewrite (fold_left_append_map (fun cond => "( " +:+ cond +:+ " )")).
Qed.

(** *** The recursive CTE query holder *)

Lemma newCteQuery_wf (comp : Component) : cq_wf (newCteQuery comp).
Proof.
  split; simpl.
  - intros n. rewrite lookup_empty. simpl. split; [discriminate|contradiction].
  - constructor.
Qed.

Lemma addItem_wf (c : cteQuery) (name query : string) :
  cq_wf c -> cq_wf (addItem c name query).
Proof.
  intros [Hn Hd]. unfold addItem.
  destruct (default false (cq_names c !! name)) eqn:E; [split; assumption|].
  assert (Hfresh : ~ In name (map item_name (cq_items c))).
  { intros Hin. apply Hn in Hin. congruence. }
  split; simpl.
  - intros n. rewrite map_app, in_app_iff. simpl.
    destruct (decide (name = n)) as [->|Hne].
    + rewrite lookup_insert_eq. simpl. tauto.
    + rewrite lookup_insert_ne by exact Hne. rewrite Hn. tauto.
  - rewrite map_app. simpl. apply NoDup_ListNoDup, NoDup_app. repeat split.
    + now apply NoDup_ListNoDup.
    + intros x Hx Hx'. apply list_elem_of_In in Hx.
      apply list_elem_of_In in Hx'. destruct Hx' as [<-|[]]. contradiction.
    + apply NoDup_singleton.
Qed.

Lemma addItem_component (c : cteQuery) (name query : string) :
  cq_c (addItem c name query) = cq_c c.
Proof. unfold addItem. now destruct (default false _). Qed.

(** An item is held after [addItem] iff it was held before, or its name
    was new and it is the one added. *)
Lemma addItem_In (c : cteQuery) (name query : string) (it : cteItem) :
  cq_wf c ->
  In it (cq_items (addItem c name query)) <->
  In it (cq_items c) \/
  (~ In name (map item_name (cq_items c)) /\ it = mkCteItem name query).
Proof.
  intros [Hn _]. unfold addItem.
  destruct (default false (cq_names c !! name)) eqn:E.
  - apply Hn in E. tauto.
  - assert (Hfresh : ~ In name (map item_name (cq_items c))).
    { intros Hin. apply Hn in Hin. congruence. }
    simpl. rewrite in_app_iff. simpl. intuition.
Qed.

Lemma addItems_wf (calls : list (string * string)) (c : cteQuery) :
  cq_wf c -> cq_wf (addItems calls c).
Proof.
  revert c. induction calls as [|[n q] calls IH]; intros c Hc; [exact Hc|].
  apply IH. now apply addItem_wf.
Qed.

Lemma addItems_component (calls : list (string * string)) (c : cteQuery) :
  cq_c (addItems calls c) = cq_c c.
Proof.
  revert c. induction calls as [|[n q] calls IH]; intros c; [reflexivity|].
  unfold addItems in *. simpl. rewrite IH. apply addItem_component.
Qed.

Lemma addItems_keeps (calls : list (string * string)) (c : cteQuery) (it : cteItem) :
  cq_wf c -> In it (cq_items c) -> In it (cq_items (addItems calls c)).
Proof.
  revert c. induction calls as [|[n q] calls IH]; intros c Hc Hin; [exact Hin|].
  apply IH; [now apply addItem_wf|]. apply addItem_In; auto.
Qed.

(** The body a name ends up with is the first one registered under it. *)
Lemma addItems_firstBody (calls : list (string * string)) (c : cteQuery)
    (name body : string) :
  cq_wf c -> ~ In name (map item_name (cq_items c)) ->
  firstBody name calls = Some body ->
  In (mkCteItem name body) (cq_items (addItems calls c)).
Proof.
  revert c. induction calls as [|[n q] calls IH]; intros c Hc Hfresh Hfirst.
  - discriminate.
  - unfold firstBody in Hfirst. simpl in Hfirst.
    destruct (String.eqb n name) eqn:E.
    + apply String.eqb_eq in E. subst n. simpl in Hfirst.
      inversion Hfirst; subst q.
      apply (addItems_keeps calls); [now apply addItem_wf|].
      apply addItem_In; auto.
    + apply String.eqb_neq in E.
      apply (IH (addItem c n q)); [now apply addItem_wf| |exact Hfirst].
      intros Hin. apply in_map_iff in Hin as (it & Hname & Hit).
      apply addItem_In in Hit; [|exact Hc].
      destruct Hit as [Hit|[_ ->]].
      * apply Hfresh. apply in_map_iff. eauto.
      * simpl in Hname. congruence.
Qed.

Lemma NoDup_names_count (items : list cteItem) (it : cteItem) :
  List.NoDup (map item_name items) -> In it items ->
  length (List.filter (fun i => String.eqb (item_name i) (item_name it)) items) = 1.
Proof.
  induction items as [|i items IH]; intros Hd Hin; [contradiction|].
  simpl in Hd. inversion Hd as [|? ? Hni Hd']; subst.
  assert (Hnone : forall k, ~ In k (map item_name items) ->
            List.filter (fun i => String.eqb (item_name i) k) items = []).
  { clear. intros k. induction items as [|j items IH]; intros Hk; [reflexivity|].
    simpl in *. destruct (String.eqb (item_name j) k) eqn:E.
    - apply String.eqb_eq in E. tauto.
    - apply IH. tauto. }
  simpl. destruct Hin as [->|Hin].
  - rewrite String.eqb_refl. simpl. now rewrite Hnone.
  - destruct (String.eqb (item_name i) (item_name it)) eqn:E.
    + apply String.eqb_eq in E. exfalso. apply Hni. rewrite E.
      apply in_map_iff. eauto.
    + now apply IH.
Qed.

(** The shape of the query of [generateQuery] when it returns: the CTEs
    that are not excluded, then the projection by primary key. *)
Lemma generateQuery_shape (c : cteQuery) (t : Entries.Table)
    (cycle0 : list Edge) (rest : list (list Edge)) :
  length (groupedCycles (cq_c c)) <= 1 ->
  cycles (cq_c c) = cycle0 :: rest ->
  let excluded :=
    map (fun e => idsName (tl_table (edge_from e)))
        (List.filter (fun e => negb (N.eqb (Oid (tl_table (edge_from e))) (Oid t))) cycle0) in
  generateQuery c t =
    Ok ("WITH RECURSIVE " +:+
        Join (map renderCte
                (List.filter (fun it => negb (slicesContains excluded (item_name it)))
                             (cq_items c))) "," +:+
        " " +:+
        (generateSelectAllColumns t +:+ " FROM " +:+ quoted (Schema t) +:+ "." +:+
         quoted (Name t) +:+ " WHERE (" +:+
         Join (map (columnRef t) (PrimaryKey t)) "," +:+
         ") IN (SELECT " +:+
         Join (map (fun key => quoted (idsName t) +:+ "." +:+ quoted key) (PrimaryKey t)) "," +:+
         " FROM " +:+ quoted (idsName t) +:+ ")")).
Proof.
  intros Hg Hc excluded. unfold generateQuery.
  assert (E : (1 <? length (groupedCycles (cq_c c))) = false) by (apply Nat.ltb_ge; lia).
  rewrite E, Hc.
  rewrite (fold_left_skip_append
             (fun e => N.eqb (Oid (tl_table (edge_from e))) (Oid t))
             (fun e => idsName (tl_table (edge_from e)))).
  rewrite (fold_left_skip_append
             (fun it => slicesContains _ (item_name it)) renderCte).
  reflexivity.
Qed.

(** C10. [generateQuery] panics for every component with more than one
    grouped cycle, and whenever it returns a query the component has at
    most one grouped cycle; it does return one exactly when, in addition,
    the component has a first cycle to read. *)
Theorem C10_generateQuery_grouped_cycles (c : cteQuery) (t : Entries.Table) :
  (1 < length (groupedCycles (cq_c c)) ->
     generateQuery c t = Panic "FIXME: found more than one grouped cycle") /\
  (forall q, generateQuery c t = Ok q -> length (groupedCycles (cq_c c)) <= 1) /\
  ((exists q, generateQuery c t = Ok q) <->
     length (groupedCycles (cq_c c)) <= 1 /\ cycles (cq_c c) <> []).
Proof.
  assert (Hpanic : 1 < length (groupedCycles (cq_c c)) ->
            generateQuery c t = Panic "FIXME: found more than one grouped cycle").
  { intros H. unfold generateQuery. apply Nat.ltb_lt in H. now rewrite H. }
  assert (Hret : forall q, generateQuery c t = Ok q ->
            length (groupedCycles (cq_c c)) <= 1 /\ cycles (cq_c c) <> []).
  { intros q Hq. split.
    - destruct (Nat.le_gt_cases (length (groupedCycles (cq_c c))) 1) as [H|H]; [exact H|].
      rewrite (Hpanic H) in Hq. discriminate.
    - intros Hnil. unfold generateQuery in Hq. rewrite Hnil in Hq.
      destruct (1 <? _); discriminate. }
  split; [exact Hpanic|]. split; [intros q Hq; apply (Hret q Hq)|].
  split; [intros [q Hq]; apply (Hret q Hq)|].
  intros [Hg Hc]. destruct (cycles (cq_c c)) as [|cycle0 rest] eqn:E; [congruence|].
  eexists. apply (generateQuery_shape c t cycle0 rest Hg E).
Qed.

(** C10 at the two-table cycle: one grouped cycle returns a query, two
    grouped cycles panic. *)
Lemma C10_generateQuery_grouped_cycles_witness :
  (exists q, generateQuery cq_ab table_a = Ok q) /\
  generateQuery (newCteQuery component_two_groups) table_a =
    Panic "FIXME: found more than one grouped cycle".
Proof.
  split.
  - apply (C10_generateQuery_grouped_cycles cq_ab table_a).
    split; [vm_compute; lia|vm_compute; discriminate].
  - apply (C10_generateQuery_grouped_cycles (newCteQuery component_two_groups) table_a).
    vm_compute. lia.
Defined.

(** C1 as stated fails: with both CTEs registered, the query for table
    [a] lists the body of [public__a__ids] once and leaves the body of
    [public__b__ids] out. *)
Lemma C1_counterexample :
  exists q, generateQuery cq_ab table_a = Ok q /\
            occurrences q body_a = 1 /\
            occurrences q body_b = 0 /\
            Contains q "public__b__ids" = false.
Proof. eexists. split; [vm_compute; reflexivity|]. vm_compute. auto. Qed.

(** C1 (amended). For the two-table cycle with target [a], whatever
    sequence of [addItem] calls fills the query holder, as long as one of
    them registers [public__a__ids]: the query is a single WITH RECURSIVE
    whose CTE list holds [public__a__ids] exactly once, with the body first
    registered under that name, holds no CTE named [public__b__ids], and is
    followed by the projection of the non-generated columns of [a] filtered
    by its primary key in [public__a__ids]. *)
Theorem C1_two_table_cycle_query (calls : list (string * string)) (qa : string) :
  firstBody "public__a__ids" calls = Some qa ->
  exists ctes,
    generateQuery (addItems calls (newCteQuery component_ab)) table_a =
      Ok ("WITH RECURSIVE " +:+ Join (map renderCte ctes) "," +:+ " " +:+ projection_a) /\
    In (mkCteItem "public__a__ids" qa) ctes /\
    length (List.filter (fun it => String.eqb (item_name it) "public__a__ids") ctes) = 1 /\
    (forall it, In it ctes -> item_name it <> "public__b__ids").
Proof.
  intros Hfirst.
  set (c := addItems calls (newCteQuery component_ab)).
  assert (Hwf : cq_wf c) by apply addItems_wf, newCteQuery_wf.
  assert (Hcomp : cq_c c = component_ab) by apply addItems_component.
  assert (Hin : In (mkCteItem "public__a__ids" qa) (cq_items c)).
  { apply addItems_firstBody; [apply newCteQuery_wf|simpl; tauto|exact Hfirst]. }
  pose (keep := fun it : cteItem =>
                  negb (slicesContains ["public__b__ids"] (item_name it))).
  exists (List.filter keep (cq_items c)).
  split; [|split; [|split]].
  - rewrite (generateQuery_shape c table_a [edge_a_b; edge_b_a] []);
      [reflexivity|rewrite Hcomp; simpl; lia|now rewrite Hcomp].
  - apply filter_In. split; [exact Hin|reflexivity].
  - apply (NoDup_names_count _ (mkCteItem "public__a__ids" qa)).
    + destruct Hwf as [_ Hd]. clear -Hd.
      induction (cq_items c) as [|i items IH]; [constructor|].
      simpl in *. inversion Hd; subst. destruct (keep i); simpl; auto.
      constructor; auto. intros Hi. apply H1.
      apply in_map_iff in Hi as (j & Hj & Hjin). apply filter_In in Hjin.
      apply in_map_iff. exists j. tauto.
    + apply filter_In. split; [exact Hin|reflexivity].
  - intros it Hit. apply filter_In in Hit as [_ Hk]. unfold keep in Hk.
    intros Heq. rewrite Heq in Hk. discriminate.
Qed.

(** C1 (amended) at the holder filled with both CTEs, each added twice. *)
Lemma C1_two_table_cycle_query_witness :
  exists ctes,
    generateQuery
      (addItems [("public__a__ids", body_a); ("public__b__ids", body_b);
                 ("public__a__ids", body_b); ("public__b__ids", body_a)]
                (newCteQuery component_ab)) table_a =
      Ok ("WITH RECURSIVE " +:+ Join (map renderCte ctes) "," +:+ " " +:+ projection_a) /\
    In (mkCteItem "public__a__ids" body_a) ctes /\
    length (List.filter (fun it => String.eqb (item_name it) "public__a__ids") ctes) = 1 /\
    (forall it, In it ctes -> item_name it <> "public__b__ids").
Proof.
  apply (C1_two_table_cycle_query
           [("public__a__ids", body_a); ("public__b__ids", body_b);
            ("public__a__ids", body_b); ("public__b__ids", body_a)] body_a).
  reflexivity.
Defined.

End SubsetFacts.


(** ** The order of the WITH list *)

Module WithClauseFacts.
Import GoStrings GoStringsFacts Subset SubsetSpec.

Section Order.
Variable cteDefs : gmap string string.
Local Abbreviation names := (cteNames cteDefs).

Lemma sortStrings_perm (l : list string) : sortStrings l ≡ₚ l.
Proof. apply merge_sort_Permutation. Qed.

Lemma sortStrings_sorted (l : list string) : StronglySorted String.le (sortStrings l).
Proof. apply StronglySorted_merge_sort; apply _. Qed.

Lemma sortStrings_elem (l : list string) (x : string) : x ∈ sortStrings l <-> x ∈ l.
Proof. now rewrite sortStrings_perm. Qed.

Lemma names_elem (n : string) : n ∈ names <-> is_Some (cteDefs !! n).
Proof.
  unfold cteNames. rewrite sortStrings_elem.
  change (map fst (map_to_list cteDefs)) with ((map_to_list cteDefs).*1).
  rewrite list_elem_of_fmap. split.
  - intros ([k v] & -> & Hkv). apply elem_of_map_to_list in Hkv. simpl. eauto.
  - intros [v Hv]. exists (n, v). split; [reflexivity|]. now apply elem_of_map_to_list.
Qed.

Lemma names_NoDup : NoDup names.
Proof.
  unfold cteNames. rewrite sortStrings_perm.
  apply NoDup_fst_map_to_list.
Qed.

Lemma names_sorted : StronglySorted String.le names.
Proof. apply sortStrings_sorted. Qed.

Lemma names_length : length names = size cteDefs.
Proof.
  unfold cteNames. rewrite sortStrings_perm, length_map.
  apply length_map_to_list.
Qed.

Lemma depb_spec (n m : string) :
  n ∈ names -> m ∈ names -> (depb cteDefs n m = true <-> dependsOnCte cteDefs n m).
Proof.
  intros Hn Hm. apply names_elem in Hn. apply names_elem in Hm.
  unfold depb, dependsOnCte. rewrite andb_true_iff, negb_true_iff, String.eqb_neq.
  tauto.
Qed.

Lemma depSet_elem (n m : string) :
  m ∈ depSet cteDefs n <-> m ∈ names /\ depb cteDefs n m = true.
Proof.
  unfold depSet. rewrite elem_of_list_to_set, list_elem_of_In, filter_In.
  now rewrite <- list_elem_of_In.
Qed.

Lemma depSet_dep (n m : string) :
  n ∈ names -> (m ∈ depSet cteDefs n <-> dependsOnCte cteDefs n m).
Proof.
  intros Hn. rewrite depSet_elem. split.
  - intros [Hm Hb]. now apply depb_spec.
  - intros Hd. assert (Hm : m ∈ names) by (apply names_elem, Hd).
    split; [exact Hm|]. now apply depb_spec.
Qed.

(** *** The dependency scan *)

Lemma depsOf_insert (d : gmap string (gset string)) (n k : string) (X : gset string) :
  depsOf (<[n := X]> d) k = if decide (n = k) then X else depsOf d k.
Proof. unfold depsOf. rewrite lookup_insert. now destruct (decide (n = k)). Qed.

Lemma degOf_insert (i : gmap string Z) (n k : string) (z : Z) :
  degOf (<[n := z]> i) k = if decide (n = k) then z else degOf i k.
Proof. unfold degOf. rewrite lookup_insert. now destruct (decide (n = k)). Qed.

Lemma scanPair_spec (n m : string) (st : depState) :
  degInv st ->
  degInv (scanPair cteDefs n st m) /\
  forall k, depsOf (scanPair cteDefs n st m).1 k =
            if decide (n = k)
            then depsOf st.1 k ∪ (if depb cteDefs n m then {[m]} else ∅)
            else depsOf st.1 k.
Proof.
  intros Hinv. unfold scanPair, depb.
  destruct (String.eqb n m) eqn:Enm; simpl.
  { split; [exact Hinv|]. intros k. destruct (decide (n = k)); set_solver. }
  destruct (Contains _ _); simpl.
  2:{ split; [exact Hinv|]. intros k. destruct (decide (n = k)); set_solver. }
  destruct (decide (m ∈ depsOf st.1 n)) as [Hin|Hnin].
  { split; [exact Hinv|]. intros k. destruct (decide (n = k)); [subst k|]; set_solver. }
  split.
  - intros k. simpl. rewrite depsOf_insert, degOf_insert.
    destruct (decide (n = k)) as [<-|]; [|apply Hinv].
    rewrite Hinv, size_union by set_solver. rewrite size_singleton. lia.
  - intros k. simpl. rewrite depsOf_insert.
    destruct (decide (n = k)) as [<-|]; set_solver.
Qed.

Lemma scanInner_spec (n : string) (ms : list string) (st : depState) :
  degInv st ->
  degInv (fold_left (scanPair cteDefs n) ms st) /\
  forall k, depsOf (fold_left (scanPair cteDefs n) ms st).1 k =
            if decide (n = k)
            then depsOf st.1 k ∪ list_to_set (List.filter (depb cteDefs n) ms)
            else depsOf st.1 k.
Proof.
  revert st. induction ms as [|m ms IH]; intros st Hinv; simpl.
  - split; [exact Hinv|]. intros k. destruct (decide (n = k)); set_solver.
  - destruct (scanPair_spec n m st Hinv) as [Hinv' Hd].
    destruct (IH _ Hinv') as [Hinv'' Hd'].
    split; [exact Hinv''|]. intros k. rewrite Hd', Hd.
    destruct (decide (n = k)); [|reflexivity].
    destruct (depb cteDefs n m); simpl; set_solver.
Qed.

Lemma scanOuter_spec (ns : list string) (st : depState) :
  degInv st ->
  let st' := fold_left (fun st n => fold_left (scanPair cteDefs n) names st) ns st in
  degInv st' /\
  forall k, depsOf st'.1 k =
            if decide (k ∈ ns) then depsOf st.1 k ∪ depSet cteDefs k else depsOf st.1 k.
Proof.
  revert st. induction ns as [|n ns IH]; intros st Hinv; simpl.
  - split; [exact Hinv|]. intros k. destruct (decide (k ∈ [])); [set_solver|reflexivity].
  - destruct (scanInner_spec n names st Hinv) as [Hinv' Hd].
    destruct (IH _ Hinv') as [Hinv'' Hd'].
    split; [exact Hinv''|]. intros k. rewrite Hd', Hd. unfold depSet.
    destruct (decide (n = k)) as [<-|Hne].
    + destruct (decide (n ∈ ns)), (decide (n ∈ n :: ns)); set_solver.
    + destruct (decide (k ∈ ns)), (decide (k ∈ n :: ns)); set_solver.
Qed.

Lemma initDependsOn_empty (ns : list string) (k : string) :
  depsOf (initDependsOn ns) k = ∅.
Proof.
  unfold initDependsOn.
  assert (H : forall d, depsOf d k = ∅ ->
            depsOf (fold_left (fun d n => <[n := ∅]> d) ns d) k = ∅).
  { induction ns as [|n ns IH]; intros d Hd; simpl; [exact Hd|].
    apply IH. rewrite depsOf_insert. now destruct (decide (n = k)). }
  apply H. reflexivity.
Qed.

(** After the scan, [dependsOn] of a name is the set of the names its body
    mentions, and [inDegree] is the size of that set. *)
Lemma scanDeps_spec :
  let st := scanDeps cteDefs names (initDependsOn names, ∅) in
  forall k, k ∈ names ->
    depsOf st.1 k = depSet cteDefs k /\
    degOf st.2 k = Z.of_nat (size (depSet cteDefs k)).
Proof.
  intros st k Hk.
  assert (Hinv0 : degInv (initDependsOn names, ∅)).
  { intros j. simpl. rewrite initDependsOn_empty. reflexivity. }
  destruct (scanOuter_spec names _ Hinv0) as [Hinv Hd].
  fold (scanDeps cteDefs names (initDependsOn names, ∅)) in Hinv, Hd. fold st in Hinv, Hd.
  assert (E : depsOf st.1 k = depSet cteDefs k).
  { rewrite Hd. simpl. rewrite initDependsOn_empty.
    destruct (decide (k ∈ names)); [set_solver|contradiction]. }
  split; [exact E|]. rewrite Hinv, E. reflexivity.
Qed.

(** *** One pass of the relaxation loop *)

Lemma relaxOne_spec (n m : string) (d : gmap string (gset string))
    (i : gmap string Z) (z : list string) :
  exists d' i' z',
    relaxOne n (d, i, z) m = (d', i', z') /\
    (forall k, depsOf d' k = if decide (m = k) then depsOf d k ∖ {[n]} else depsOf d k) /\
    (forall k, degOf i' k = if decide (m = k /\ n ∈ depsOf d k)
                            then (degOf i k - 1)%Z else degOf i k) /\
    z' ≡ₚ z ++ released n d i [m] /\
    (StronglySorted String.le z -> StronglySorted String.le z').
Proof.
  unfold relaxOne, released. simpl.
  destruct (decide (n ∈ depsOf d m)) as [Hin|Hnin].
  - rewrite (bool_decide_eq_true_2 _ Hin). simpl.
    rewrite degOf_insert. destruct (decide (m = m)) as [_|]; [|congruence].
    assert (E : ((degOf i m - 1 =? 0) = (degOf i m =? 1))%Z).
    { destruct (Z.eqb_spec (degOf i m) 1), (Z.eqb_spec (degOf i m - 1) 0); lia. }
    rewrite E.
    destruct (degOf i m =? 1)%Z; eexists _, _, _; (split; [reflexivity|]);
      (split; [intros k; rewrite depsOf_insert; destruct (decide (m = k)) as [<-|]; reflexivity|]);
      (split; [intros k; rewrite degOf_insert;
               destruct (decide (m = k)) as [<-|], (decide _); tauto || reflexivity|]).
    + split; [apply sortStrings_perm|]. intros _. apply sortStrings_sorted.
    + rewrite app_nil_r. split; [reflexivity|tauto].
  - rewrite (bool_decide_eq_false_2 _ Hnin). simpl.
    eexists _, _, _. split; [reflexivity|].
    split; [intros k; destruct (decide (m = k)) as [<-|]; [set_solver|reflexivity]|].
    split; [intros k; destruct (decide _) as [[<- ?]|]; [contradiction|reflexivity]|].
    rewrite app_nil_r. split; [reflexivity|tauto].
Qed.

Lemma released_ext (n : string) (d d' : gmap string (gset string))
    (i i' : gmap string Z) (ks : list string) :
  (forall k, k ∈ ks -> depsOf d' k = depsOf d k /\ degOf i' k = degOf i k) ->
  released n d' i' ks = released n d i ks.
Proof.
  intros H. unfold released. apply filter_ext_in. intros k Hk.
  apply list_elem_of_In in Hk. destruct (H k Hk) as [-> ->]. reflexivity.
Qed.

Lemma relax_spec (n : string) (ks : list string) :
  NoDup ks ->
  forall (d : gmap string (gset string)) (i : gmap string Z) (z : list string),
  exists d' i' z',
    fold_left (relaxOne n) ks (d, i, z) = (d', i', z') /\
    (forall k, depsOf d' k = if decide (k ∈ ks) then depsOf d k ∖ {[n]} else depsOf d k) /\
    (forall k, degOf i' k = if decide (k ∈ ks /\ n ∈ depsOf d k)
                            then (degOf i k - 1)%Z else degOf i k) /\
    z' ≡ₚ z ++ released n d i ks /\
    (StronglySorted String.le z -> StronglySorted String.le z').
Proof.
  induction 1 as [|m ks Hm Hnd IH]; intros d i z.
  - exists d, i, z. split; [reflexivity|].
    split; [intros k; destruct (decide (k ∈ [])); [set_solver|reflexivity]|].
    split; [intros k; destruct (decide _) as [[? ?]|]; [set_solver|reflexivity]|].
    unfold released. simpl. rewrite app_nil_r. split; [reflexivity|tauto].
  - destruct (relaxOne_spec n m d i z) as (d1 & i1 & z1 & E1 & Hd1 & Hi1 & Hz1 & Hs1).
    destruct (IH d1 i1 z1) as (d2 & i2 & z2 & E2 & Hd2 & Hi2 & Hz2 & Hs2).
    exists d2, i2, z2. cbn [fold_left]. rewrite E1.
    split; [exact E2|].
    split; [|split; [|split]].
    + intros k. rewrite Hd2, Hd1.
      destruct (decide (k ∈ ks)), (decide (m = k)) as [<-|], (decide (_ ∈ m :: ks));
        set_solver.
    + intros k. rewrite Hi2, Hi1, Hd1.
      destruct (decide (m = k)) as [<-|Hne].
      * destruct (decide (m ∈ ks /\ _)) as [[? ?]|]; [contradiction|].
        destruct (decide (m = m /\ _)) as [[_ ?]|Hn1], (decide (m ∈ m :: ks /\ _)) as [[_ ?]|Hn2];
          try reflexivity; try contradiction.
        -- exfalso. apply Hn2. split; [set_solver|assumption].
        -- exfalso. apply Hn1. split; [reflexivity|assumption].
      * destruct (decide (m = k /\ _)) as [[? ?]|]; [contradiction|].
        destruct (decide (k ∈ ks /\ _)) as [[? ?]|Hn1],
                 (decide (k ∈ m :: ks /\ _)) as [[? ?]|Hn2];
          try reflexivity.
        -- exfalso. apply Hn2. split; [set_solver|assumption].
        -- exfalso. apply Hn1. split; [set_solver|assumption].
    + rewrite Hz2, Hz1, <- app_assoc. apply Permutation_app_head.
      assert (Esplit : released n d i (m :: ks) = released n d i [m] ++ released n d i ks).
      { unfold released. change (m :: ks) with ([m] ++ ks). apply List.filter_app. }
      rewrite Esplit. apply Permutation_app_head.
      rewrite (released_ext n d d1 i i1 ks); [reflexivity|].
      intros k Hk. rewrite Hd1, Hi1.
      destruct (decide (m = k)) as [<-|]; [contradiction|].
      destruct (decide (m = k /\ _)) as [[? ?]|]; [contradiction|]. split; reflexivity.
    + tauto.
Qed.

(** *** The main loop *)

Lemma depSet_names (k m : string) : m ∈ depSet cteDefs k -> m ∈ names.
Proof. intros H. now apply depSet_elem in H. Qed.

Lemma depSet_irrefl (k : string) : k ∉ depSet cteDefs k.
Proof.
  intros H. apply depSet_elem in H as [_ H]. unfold depb in H.
  rewrite String.eqb_refl in H. discriminate.
Qed.

Lemma released_elem (n m : string) (d : gmap string (gset string)) (i : gmap string Z)
    (ks : list string) :
  m ∈ released n d i ks <-> m ∈ ks /\ n ∈ depsOf d m /\ degOf i m = 1%Z.
Proof.
  unfold released. rewrite list_elem_of_In, filter_In, <- list_elem_of_In.
  rewrite andb_true_iff, bool_decide_eq_true, Z.eqb_eq. tauto.
Qed.

(** The entries of the two maps after one pass. *)
Lemma relax_lookup (n : string) (ks : list string) :
  NoDup ks ->
  forall (d : gmap string (gset string)) (i : gmap string Z) (z : list string),
    (forall k, (fold_left (relaxOne n) ks (d, i, z)).1.1 !! k =
               if decide (k ∈ ks /\ n ∈ depsOf d k)
               then Some (depsOf d k ∖ {[n]}) else d !! k) /\
    (forall k, (fold_left (relaxOne n) ks (d, i, z)).1.2 !! k =
               if decide (k ∈ ks /\ n ∈ depsOf d k)
               then Some (degOf i k - 1)%Z else i !! k).
Proof.
  induction 1 as [|m ks Hm Hnd IH]; intros d i z.
  - simpl. split; intros k;
      destruct (decide (k ∈ [] /\ n ∈ depsOf d k)) as [[? ?]|]; set_solver.
  - cbn [fold_left].
    assert (E : exists d1 i1 z1,
              relaxOne n (d, i, z) m = (d1, i1, z1) /\
              (forall k, d1 !! k = if decide (m = k /\ n ∈ depsOf d k)
                                   then Some (depsOf d k ∖ {[n]}) else d !! k) /\
              (forall k, i1 !! k = if decide (m = k /\ n ∈ depsOf d k)
                                   then Some (degOf i k - 1)%Z else i !! k)).
    { unfold relaxOne. destruct (decide (n ∈ depsOf d m)) as [Hin|Hnin].
      - destruct (Z.eqb _ 0); eexists _, _, _; (split; [reflexivity|]);
          split; intros k; rewrite lookup_insert;
          destruct (decide (m = k)) as [<-|],
                   (decide (_ = _ /\ n ∈ depsOf d _)) as [[? ?]|Hn];
          try reflexivity; try contradiction; exfalso; apply Hn; auto.
      - eexists _, _, _. split; [reflexivity|].
        split; intros k; destruct (decide (m = k /\ n ∈ depsOf d k)) as [[<- ?]|];
          try reflexivity; contradiction. }
    destruct E as (d1 & i1 & z1 & -> & Hd1 & Hi1).
    destruct (IH d1 i1 z1) as [Hd2 Hi2].
    assert (Hdeps : forall k, k ∈ ks -> depsOf d1 k = depsOf d k).
    { intros k Hk. unfold depsOf at 1. rewrite Hd1.
      destruct (decide (m = k /\ _)) as [[<- ?]|]; [contradiction|reflexivity]. }
    assert (Hdegs : forall k, k ∈ ks -> degOf i1 k = degOf i k).
    { intros k Hk. unfold degOf at 1. rewrite Hi1.
      destruct (decide (m = k /\ _)) as [[<- ?]|]; [contradiction|reflexivity]. }
    split; intros k.
    + rewrite Hd2, Hd1.
      destruct (decide (k ∈ ks /\ n ∈ depsOf d1 k)) as [[Hk Hin]|Hn1].
      * rewrite (Hdeps k Hk) in *.
        destruct (decide (k ∈ m :: ks /\ _)) as [_|Hn2]; [reflexivity|].
        exfalso. apply Hn2. split; [set_solver|assumption].
      * destruct (decide (m = k /\ _)) as [[<- Hin]|Hn3].
        -- destruct (decide (m ∈ m :: ks /\ _)) as [_|Hn2]; [reflexivity|].
           exfalso. apply Hn2. split; [set_solver|assumption].
        -- destruct (decide (k ∈ m :: ks /\ _)) as [[Hk Hin]|_]; [|reflexivity].
           exfalso. apply elem_of_cons in Hk as [->|Hk].
           ++ apply Hn3. auto.
           ++ apply Hn1. rewrite (Hdeps k Hk). auto.
    + rewrite Hi2, Hi1.
      destruct (decide (k ∈ ks /\ n ∈ depsOf d1 k)) as [[Hk Hin]|Hn1].
      * rewrite (Hdeps k Hk) in *. rewrite (Hdegs k Hk).
        destruct (decide (k ∈ m :: ks /\ _)) as [_|Hn2]; [reflexivity|].
        exfalso. apply Hn2. split; [set_solver|assumption].
      * destruct (decide (m = k /\ _)) as [[<- Hin]|Hn3].
        -- destruct (decide (m ∈ m :: ks /\ _)) as [_|Hn2]; [reflexivity|].
           exfalso. apply Hn2. split; [set_solver|assumption].
        -- destruct (decide (k ∈ m :: ks /\ _)) as [[Hk Hin]|_]; [|reflexivity].
           exfalso. apply elem_of_cons in Hk as [->|Hk].
           ++ apply Hn3. auto.
           ++ apply Hn1. rewrite (Hdeps k Hk). auto.
Qed.

(** Go ranges over the keys of [dependsOn] in an unspecified order. The
    order does not matter: a pass over the same keys in another order leaves
    the same maps and the same [zero] list, so the run of the main loop is
    the same whatever order each of its iterations takes. *)
Lemma relax_order_irrelevant (n : string) (ks1 ks2 : list string)
    (d : gmap string (gset string)) (i : gmap string Z) (z : list string) :
  NoDup ks1 -> ks1 ≡ₚ ks2 -> StronglySorted String.le z ->
  fold_left (relaxOne n) ks1 (d, i, z) = fold_left (relaxOne n) ks2 (d, i, z).
Proof.
  intros Hnd1 Hperm Hsorted.
  assert (Hnd2 : NoDup ks2) by now rewrite <- Hperm.
  destruct (relax_lookup n ks1 Hnd1 d i z) as [Hl1 Hm1].
  destruct (relax_lookup n ks2 Hnd2 d i z) as [Hl2 Hm2].
  destruct (relax_spec n ks1 Hnd1 d i z) as (d1 & i1 & z1 & E1 & _ & _ & Hz1 & Hs1).
  destruct (relax_spec n ks2 Hnd2 d i z) as (d2 & i2 & z2 & E2 & _ & _ & Hz2 & Hs2).
  rewrite E1 in Hl1, Hm1. rewrite E2 in Hl2, Hm2. simpl in *.
  rewrite E1, E2. f_equal; [f_equal|].
  - apply map_eq. intros k. rewrite Hl1, Hl2.
    destruct (decide (k ∈ ks1 /\ _)) as [[H1 ?]|H1], (decide (k ∈ ks2 /\ _)) as [[H2 ?]|H2];
      try reflexivity; exfalso.
    + apply H2. rewrite <- Hperm. tauto.
    + apply H1. rewrite Hperm. tauto.
  - apply map_eq. intros k. rewrite Hm1, Hm2.
    destruct (decide (k ∈ ks1 /\ _)) as [[H1 ?]|H1], (decide (k ∈ ks2 /\ _)) as [[H2 ?]|H2];
      try reflexivity; exfalso.
    + apply H2. rewrite <- Hperm. tauto.
    + apply H1. rewrite Hperm. tauto.
  - apply (StronglySorted_unique String.le); [auto|auto|].
    rewrite Hz1, Hz2. apply Permutation_app_head.
    apply NoDup_Permutation.
    + unfold released. now apply NoDup_ListNoDup, List.NoDup_filter, NoDup_ListNoDup.
    + unfold released. now apply NoDup_ListNoDup, List.NoDup_filter, NoDup_ListNoDup.
    + intros x. rewrite !released_elem. now rewrite Hperm.
Qed.

(** An emitted name has all its dependencies emitted. *)
Lemma kahnInv_emitted (st : depState) (zero ordered : list string) (m : string) :
  kahnInv cteDefs st zero ordered -> m ∈ ordered ->
  depSet cteDefs m ⊆ list_to_set ordered.
Proof.
  intros Hinv Hm. apply list_elem_of_split in Hm as (pre & post & ->).
  destruct (ki_greedy _ _ _ _ Hinv pre m post eq_refl) as [Hsub _].
  set_solver.
Qed.

Lemma kahn_step (st : depState) (n : string) (zero ordered : list string) :
  kahnInv cteDefs st (n :: zero) ordered ->
  exists st' zero',
    fold_left (relaxOne n) names (st, zero) = (st', zero') /\
    kahnInv cteDefs st' zero' (ordered ++ [n]).
Proof.
  intros Hinv. destruct st as [d i].
  destruct (relax_spec n names names_NoDup d i zero)
    as (d' & i' & z' & E & Hd & Hi & Hz & Hs).
  exists (d', i'), z'. split; [exact E|].
  pose proof (ki_nodup _ _ _ _ Hinv) as Hnd.
  pose proof (ki_names _ _ _ _ Hinv) as Hnm.
  pose proof (ki_deps _ _ _ _ Hinv) as Hdeps. simpl in Hdeps.
  pose proof (ki_deg _ _ _ _ Hinv) as Hdeg. simpl in Hdeg.
  pose proof (ki_sorted _ _ _ _ Hinv) as Hsorted.
  pose proof (ki_zero _ _ _ _ Hinv) as Hzero.
  pose proof (ki_greedy _ _ _ _ Hinv) as Hgreedy.
  apply NoDup_app in Hnd as (Hnd_o & Hdisj & Hnd_z).
  apply NoDup_cons in Hnd_z as [Hn_z Hnd_z'].
  assert (Hn_names : n ∈ names) by (apply Hnm; set_solver).
  assert (Hn_o : n ∉ ordered) by (intros H; apply (Hdisj n H); set_solver).
  assert (Hn_dep : depSet cteDefs n ⊆ list_to_set ordered).
  { apply (Hzero n Hn_names). set_solver. }
  (* what the released names are *)
  assert (Hrel : forall m, m ∈ released n d i names ->
            m ∈ names /\ (m ∉ ordered) /\ (m ∉ n :: zero) /\ n ∈ depSet cteDefs m /\
            depSet cteDefs m ⊆ list_to_set (ordered ++ [n])).
  { intros m Hm. apply released_elem in Hm as (Hm & Hin & Hone).
    rewrite (Hdeps m Hm) in Hin.
    assert (Hmo : m ∉ ordered).
    { intros Hmo. pose proof (kahnInv_emitted _ _ _ m Hinv Hmo). set_solver. }
    split; [exact Hm|]. split; [exact Hmo|].
    split; [intros Hmz; apply (Hzero m Hm) in Hmz; set_solver|].
    split; [set_solver|].
    rewrite (Hdeg m Hm) in Hone.
    assert (Hsz : size (depsOf d m) = 1) by lia.
    intros x Hx. rewrite list_to_set_app_L. 
    destruct (decide (x ∈ ordered)) as [|Hxo]; [set_solver|].
    assert (Hxd : x ∈ depsOf d m) by (rewrite (Hdeps m Hm); set_solver).
    assert (Hnd' : n ∈ depsOf d m) by (rewrite (Hdeps m Hm); set_solver).
    pose proof (size_singleton_inv _ _ _ Hsz Hxd Hnd'). set_solver. }
  constructor; simpl.
  - (* no repetition *)
    rewrite Hz, <- app_assoc. apply NoDup_app. split; [exact Hnd_o|].
    split.
    + intros x Hx Hx'. apply elem_of_cons in Hx' as [->|Hx']; [contradiction|].
      apply elem_of_app in Hx' as [Hx'|Hx'].
      * apply (Hdisj x Hx). set_solver.
      * apply Hrel in Hx'. tauto.
    + apply NoDup_cons. split.
      * intros Hx. apply elem_of_app in Hx as [Hx|Hx]; [contradiction|].
        apply Hrel in Hx. set_solver.
      * apply NoDup_app. split; [exact Hnd_z'|]. split.
        -- intros x Hx Hx'. apply Hrel in Hx'. set_solver.
        -- unfold released. apply NoDup_ListNoDup, List.NoDup_filter, NoDup_ListNoDup, names_NoDup.
  - (* names *)
    intros x Hx. rewrite Hz in Hx.
    apply elem_of_app in Hx as [Hx|Hx]; [apply elem_of_app in Hx as [Hx|Hx]|].
    + apply Hnm. set_solver.
    + set_solver.
    + apply elem_of_app in Hx as [Hx|Hx]; [apply Hnm; set_solver|].
      now apply Hrel in Hx.
  - (* dependsOn *)
    intros m Hm. rewrite Hd, (Hdeps m Hm), list_to_set_app_L.
    destruct (decide (m ∈ names)); [set_solver|contradiction].
  - (* inDegree *)
    intros m Hm. rewrite Hi, Hd.
    destruct (decide (m ∈ names)); [|contradiction].
    destruct (decide (m ∈ names /\ n ∈ depsOf d m)) as [[_ Hin]|Hnin].
    + rewrite size_difference by set_solver. rewrite size_singleton, (Hdeg m Hm).
      assert (size (depsOf d m) <> 0).
      { intros H0. apply size_empty_inv in H0. set_solver. }
      lia.
    + rewrite (Hdeg m Hm).
      assert (Heq : depsOf d m ∖ {[n]} = depsOf d m) by set_solver.
      now rewrite Heq.
  - (* sorted *)
    apply Hs. now apply StronglySorted_inv in Hsorted as [? _].
  - (* zero holds the available names *)
    intros m Hm. rewrite Hz, elem_of_app. split.
    + intros [Hmz|Hmr].
      * assert (Hmz' : m ∈ n :: zero) by set_solver.
        apply (Hzero m Hm) in Hmz' as [Hmo Hsub].
        split; [|rewrite list_to_set_app_L; set_solver].
        intros Hx. apply elem_of_app in Hx as [Hx|Hx]; [contradiction|].
        apply list_elem_of_singleton in Hx. subst m. contradiction.
      * apply Hrel in Hmr as (_ & Hmo & Hmz & Hnin & Hsub).
        split; [|exact Hsub].
        intros Hx. apply elem_of_app in Hx as [Hx|Hx]; [contradiction|].
        apply list_elem_of_singleton in Hx. subst m. now apply depSet_irrefl in Hnin.
    + intros [Hmo Hsub]. rewrite list_to_set_app_L in Hsub.
      assert (Hmn : m <> n) by (intros ->; apply Hmo; set_solver).
      assert (Hmo' : m ∉ ordered) by set_solver.
      destruct (decide (n ∈ depSet cteDefs m)) as [Hin|Hnin].
      * right. apply released_elem. split; [exact Hm|].
        assert (Hdm : depsOf d m = {[n]}).
        { rewrite (Hdeps m Hm). apply set_eq. intros x. set_solver. }
        split; [rewrite Hdm; set_solver|].
        rewrite (Hdeg m Hm), Hdm, size_singleton. reflexivity.
      * left. assert (Hmz : m ∈ n :: zero).
        { apply (Hzero m Hm). split; [exact Hmo'|set_solver]. }
        set_solver.
  - (* every emitted name was the least available one *)
    intros pre x post Heq.
    destruct post as [|p post _] using rev_ind.
    + apply app_inj_tail in Heq as [<- <-].
      split; [exact Hn_dep|].
      intros y Hy Hyo Hsub.
      assert (Hyz : y ∈ n :: zero) by (apply (Hzero y Hy); tauto).
      apply elem_of_cons in Hyz as [->|Hyz]; [reflexivity|].
      apply StronglySorted_inv in Hsorted as [_ Hall].
      rewrite Forall_forall in Hall. apply Hall. exact Hyz.
    + rewrite app_comm_cons, app_assoc in Heq.
      apply app_inj_tail in Heq as [Heq _].
      apply (Hgreedy pre x post Heq).
Qed.

Lemma kahn_init :
  let st := scanDeps cteDefs names (initDependsOn names, ∅) in
  kahnInv cteDefs st
    (sortStrings (List.filter (fun n => Z.eqb (degOf st.2 n) 0) names)) [].
Proof.
  intros st. pose proof scanDeps_spec as Hscan. fold st in Hscan. simpl in Hscan.
  assert (Hz : forall m, m ∈ sortStrings (List.filter (fun n => Z.eqb (degOf st.2 n) 0) names)
                 <-> m ∈ names /\ depSet cteDefs m = ∅).
  { intros m. rewrite sortStrings_elem, list_elem_of_In, filter_In, <- list_elem_of_In.
    rewrite Z.eqb_eq. split; intros [Hm H]; (split; [exact Hm|]);
      destruct (Hscan m Hm) as [_ Hdeg].
    - rewrite Hdeg in H. apply leibniz_equiv, size_empty_inv. lia.
    - rewrite Hdeg, H, size_empty. reflexivity. }
  constructor; simpl.
  - rewrite sortStrings_perm. apply NoDup_ListNoDup, List.NoDup_filter, NoDup_ListNoDup, names_NoDup.
  - intros x Hx. now apply Hz in Hx.
  - intros m Hm. destruct (Hscan m Hm) as [-> _]. set_solver.
  - intros m Hm. destruct (Hscan m Hm) as [Hd ->]. now rewrite Hd.
  - apply sortStrings_sorted.
  - intros m Hm. rewrite Hz. split.
    + intros [_ ->]. set_solver.
    + intros [_ Hsub]. split; [exact Hm|]. set_solver.
  - intros [|? ?] x post Heq; discriminate.
Qed.

Lemma kahnInv_length (st : depState) (zero ordered : list string) :
  kahnInv cteDefs st zero ordered -> length (ordered ++ zero) <= length names.
Proof.
  intros Hinv. apply submseteq_length, NoDup_submseteq.
  - apply (ki_nodup _ _ _ _ Hinv).
  - apply (ki_names _ _ _ _ Hinv).
Qed.

(** The main loop ends within as many iterations as there are names, and
    ends with the invariant and an empty [zero]. *)
Lemma kahnLoop_spec (fuel : nat) :
  forall (st : depState) (zero ordered : list string),
    kahnInv cteDefs st zero ordered ->
    length names <= fuel + length ordered ->
    exists ordered' st',
      kahnLoop fuel names st zero ordered = Some ordered' /\
      kahnInv cteDefs st' [] ordered'.
Proof.
  induction fuel as [|fuel IH]; intros st zero ordered Hinv Hlen.
  - destruct zero as [|n zero].
    + exists ordered, st. split; [reflexivity|exact Hinv].
    + apply kahnInv_length in Hinv. rewrite length_app in Hinv. simpl in *. lia.
  - destruct zero as [|n zero].
    + exists ordered, st. split; [reflexivity|exact Hinv].
    + destruct (kahn_step st n zero ordered Hinv) as (st' & zero' & E & Hinv').
      cbn [kahnLoop]. rewrite E. apply (IH st' zero' (ordered ++ [n]) Hinv').
      rewrite length_app. simpl. lia.
Qed.

(** *** Cycles of the dependency relation *)

(** In a non-empty finite set where every element has a successor, some
    element reaches itself. *)
Lemma successor_cycle {A : Type} `{EqDecision A} (n : nat) :
  forall (R : relation A) (S : list A),
    length S <= n -> S <> [] ->
    (forall x, x ∈ S -> exists y, y ∈ S /\ R x y) ->
    exists x, x ∈ S /\ tc R x x.
Proof.
  induction n as [|n IH]; intros R S Hlen Hne Hsucc.
  - destruct S; [congruence|simpl in Hlen; lia].
  - destruct S as [|x S']; [congruence|]. simpl in Hlen.
    destruct (Hsucc x) as (y & Hy & Hxy); [set_solver|].
    destruct (decide (y = x)) as [->|Hyx].
    { exists x. split; [set_solver|now apply tc_once]. }
    pose (R' := fun a b => R a b \/ (R a x /\ R x b)).
    pose (S'' := filter (fun a => a <> x) S').
    assert (Hy'' : y ∈ S'').
    { apply list_elem_of_filter. split; [exact Hyx|set_solver]. }
    destruct (IH R' S'') as (z & Hz & Hzz).
    + pose proof (length_filter (fun a => a <> x) S'). unfold S''. lia.
    + intros E. rewrite E in Hy''. set_solver.
    + intros a Ha. apply list_elem_of_filter in Ha as [Hax Ha].
      destruct (Hsucc a) as (b & Hb & Hab); [set_solver|].
      destruct (decide (b = x)) as [->|Hbx].
      * exists y. split; [exact Hy''|]. right. tauto.
      * exists b. split; [|now left].
        apply list_elem_of_filter. split; [exact Hbx|set_solver].
    + exists z. split.
      * apply list_elem_of_filter in Hz as [_ Hz]. set_solver.
      * assert (Hincl : forall a b, tc R' a b -> tc R a b); [|now apply Hincl].
        clear. intros a b Hab.
        induction Hab as [a b [Hab|[Hax Hxb]]|a b c [Hab|[Hax Hxb]] _ IHtc].
        -- now apply tc_once.
        -- eapply tc_l; [exact Hax|now apply tc_once].
        -- eapply tc_l; [exact Hab|exact IHtc].
        -- eapply tc_l; [exact Hax|]. eapply tc_l; [exact Hxb|exact IHtc].
Qed.

(** A name that is emitted stands after everything it reaches. *)
Lemma kahnInv_reach (st : depState) (zero ordered : list string) (x y : string) :
  kahnInv cteDefs st zero ordered ->
  tc (dependsOnCte cteDefs) x y ->
  forall pre post, ordered = pre ++ x :: post -> y ∈ pre.
Proof.
  intros Hinv Htc. induction Htc as [x y Hxy|x z y Hxz _ IH]; intros pre post Heq.
  - destruct (ki_greedy _ _ _ _ Hinv pre x post Heq) as [Hsub _].
    assert (Hx : x ∈ names) by (apply names_elem, Hxy).
    apply (depSet_dep x y Hx) in Hxy. set_solver.
  - destruct (ki_greedy _ _ _ _ Hinv pre x post Heq) as [Hsub _].
    assert (Hx : x ∈ names) by (apply names_elem, Hxz).
    apply (depSet_dep x z Hx) in Hxz.
    assert (Hz : z ∈ pre) by set_solver.
    apply list_elem_of_split in Hz as (p1 & p2 & ->).
    assert (Hy : y ∈ p1).
    { apply (IH p1 (p2 ++ x :: post)). rewrite Heq, <- app_assoc. reflexivity. }
    set_solver.
Qed.

(** A name on a cycle is never emitted. *)
Lemma kahnInv_cycle_out (st : depState) (zero ordered : list string) (a : string) :
  kahnInv cteDefs st zero ordered ->
  tc (dependsOnCte cteDefs) a a -> a ∉ ordered.
Proof.
  intros Hinv Htc Ha. apply list_elem_of_split in Ha as (pre & post & Heq).
  pose proof (kahnInv_reach _ _ _ _ _ Hinv Htc pre post Heq) as Hpre.
  pose proof (ki_nodup _ _ _ _ Hinv) as Hnd. rewrite Heq in Hnd.
  apply NoDup_app in Hnd as [Hnd _]. apply NoDup_app in Hnd as (_ & Hdisj & _).
  apply (Hdisj a Hpre). set_solver.
Qed.

(** When the loop has ended and nothing is cyclic, every name is emitted. *)
Lemma kahnInv_complete (st : depState) (ordered : list string) :
  kahnInv cteDefs st [] ordered ->
  ~ cyclicDeps cteDefs ->
  forall m, m ∈ names -> m ∈ ordered.
Proof.
  intros Hinv Hacyc m Hm.
  destruct (decide (m ∈ ordered)) as [|Hmo]; [assumption|]. exfalso.
  pose (S := filter (fun k => k ∉ ordered) names).
  destruct (successor_cycle (length S) (dependsOnCte cteDefs) S) as (x & _ & Hx).
  - lia.
  - intros E. assert (Hin : m ∈ S) by (apply list_elem_of_filter; tauto).
    rewrite E in Hin. set_solver.
  - intros k Hk. apply list_elem_of_filter in Hk as [Hko Hk].
    pose proof (ki_zero _ _ _ _ Hinv k Hk) as Hz.
    assert (Hnsub : ~ depSet cteDefs k ⊆ list_to_set ordered).
    { intros Hsub. assert (Hin : k ∈ []) by (apply Hz; tauto). set_solver. }
    assert (Hex : Exists (fun b => b ∉ ordered) (elements (depSet cteDefs k))).
    { apply not_Forall_Exists; [apply _|]. intros Hall. apply Hnsub.
      intros b Hb. rewrite Forall_forall in Hall.
      apply elem_of_elements in Hb. specialize (Hall b Hb). simpl in Hall.
      destruct (decide (b ∈ ordered)); [set_solver|contradiction]. }
    apply Exists_exists in Hex as (b & Hb & Hbo). apply elem_of_elements in Hb.
    exists b. split.
    + apply list_elem_of_filter. split; [exact Hbo|]. now apply depSet_names in Hb.
    + now apply depSet_dep.
  - apply Hacyc. now exists x.
Qed.

End Order.

(** *** The order of the WITH list *)

(** A rank that decreases along every dependency rules cycles out. *)
Lemma acyclic_by_rank (cteDefs : gmap string string) (rank : string -> nat) :
  (forall a b, dependsOnCte cteDefs a b -> rank b < rank a) ->
  ~ cyclicDeps cteDefs.
Proof.
  intros Hrank [a Ha].
  assert (H : forall x y, tc (dependsOnCte cteDefs) x y -> rank y < rank x).
  { intros x y Hxy. induction Hxy as [x y Hxy|x z y Hxz _ IH].
    - now apply Hrank.
    - apply Hrank in Hxz. lia. }
  apply H in Ha. lia.
Qed.

(** C8. [buildWithClause] lists every CTE of the map exactly once. When
    the dependency relation (the body of A contains the name of B in double
    quotes, A and B different) has no cycle, every CTE stands after all the
    CTEs it depends on, and each position holds the alphabetically least CTE
    among those not listed yet whose dependencies are all listed. When the
    relation has a cycle, the list is the names in alphabetical order. The
    iteration bound of the model is never reached. *)
Theorem C8_buildWithClause_order (cteDefs : gmap string string) :
  exists ordered,
    cteOrder cteDefs = Some ordered /\
    buildWithClause cteDefs =
      Some (if decide (cteDefs = ∅) then ""
            else "WITH " +:+ Join (map (renderWith cteDefs) ordered) ", ") /\
    ordered ≡ₚ cteNames cteDefs /\
    (forall n, n ∈ cteNames cteDefs <-> is_Some (cteDefs !! n)) /\
    StronglySorted String.le (cteNames cteDefs) /\
    (~ cyclicDeps cteDefs ->
       (forall a b, dependsOnCte cteDefs a b -> appearsBefore ordered b a) /\
       (forall pre x post y, ordered = pre ++ x :: post -> y ∈ post ->
          (forall b, dependsOnCte cteDefs y b -> b ∈ pre) -> String.le x y)) /\
    (cyclicDeps cteDefs -> ordered = cteNames cteDefs).
Proof.
  pose proof (kahn_init cteDefs) as Hinit. cbv zeta in Hinit.
  destruct (kahnLoop_spec cteDefs (length (cteNames cteDefs)) _ _ _ Hinit)
    as (ordered0 & st' & Eloop & Hinv); [simpl; lia|].
  pose (final := if negb (length ordered0 =? length (cteNames cteDefs))
                 then cteNames cteDefs else ordered0).
  assert (Hord : cteOrder cteDefs = Some final).
  { unfold cteOrder. cbv zeta. rewrite Eloop. reflexivity. }
  pose proof (ki_nodup _ _ _ _ Hinv) as Hnd. rewrite app_nil_r in Hnd.
  assert (Hsub : forall x, x ∈ ordered0 -> x ∈ cteNames cteDefs).
  { intros x Hx. apply (ki_names _ _ _ _ Hinv). now rewrite app_nil_r. }
  exists final. split; [exact Hord|]. split; [|split; [|split; [|split; [|split]]]].
  - unfold buildWithClause. rewrite Hord.
    destruct (size cteDefs =? 0) eqn:Esz.
    + apply Nat.eqb_eq, map_size_empty_inv in Esz.
      destruct (decide (cteDefs = ∅)); [reflexivity|contradiction].
    + apply Nat.eqb_neq in Esz.
      destruct (decide (cteDefs = ∅)) as [->|]; [|reflexivity].
      now rewrite map_size_empty in Esz.
  - unfold final. destruct (length ordered0 =? length (cteNames cteDefs)) eqn:El; simpl.
    + apply Nat.eqb_eq in El. apply submseteq_length_Permutation; [|lia].
      now apply NoDup_submseteq.
    + reflexivity.
  - apply names_elem.
  - apply names_sorted.
  - intros Hacyc.
    assert (Hall : forall m, m ∈ cteNames cteDefs -> m ∈ ordered0)
      by (apply (kahnInv_complete cteDefs st'); assumption).
    assert (Hperm : ordered0 ≡ₚ cteNames cteDefs).
    { apply NoDup_Permutation; [exact Hnd|apply names_NoDup|]. intros x. split; auto. }
    assert (Hfinal : final = ordered0).
    { unfold final. rewrite (Permutation_length Hperm), Nat.eqb_refl. reflexivity. }
    rewrite Hfinal. split.
    + intros a b Hab.
      assert (Ha : a ∈ cteNames cteDefs) by (apply names_elem, Hab).
      pose proof (Hall a Ha) as Hao.
      apply list_elem_of_split in Hao as (pre & post & Heq).
      destruct (ki_greedy _ _ _ _ Hinv pre a post Heq) as [Hdeps _].
      apply (depSet_dep cteDefs a b Ha) in Hab.
      assert (Hb : b ∈ pre) by set_solver.
      apply list_elem_of_split in Hb as (l1 & l2 & ->).
      exists l1, l2, post. rewrite Heq, <- app_assoc. reflexivity.
    + intros pre x post y Heq Hy Hdeps.
      destruct (ki_greedy _ _ _ _ Hinv pre x post Heq) as [_ Hleast].
      assert (Hyn : y ∈ cteNames cteDefs) by (apply Hsub; rewrite Heq; set_solver).
      apply Hleast; [exact Hyn| |].
      * rewrite Heq in Hnd. apply NoDup_app in Hnd as (_ & Hdisj & _).
        intros Hyp. apply (Hdisj y Hyp). set_solver.
      * intros b Hb. apply (depSet_dep cteDefs y b Hyn) in Hb.
        apply elem_of_list_to_set. now apply Hdeps.
  - intros [a Ha].
    assert (Hout : a ∉ ordered0) by (apply (kahnInv_cycle_out cteDefs st' [] ordered0); assumption).
    assert (Han : a ∈ cteNames cteDefs).
    { apply names_elem. inversion Ha as [? ? H|? ? ? H _]; subst; apply H. }
    assert (Hlt : length ordered0 < length (cteNames cteDefs)).
    { assert (Hle : length (a :: ordered0) <= length (cteNames cteDefs)).
      { apply submseteq_length, NoDup_submseteq.
        - apply NoDup_cons. split; assumption.
        - intros x Hx. apply elem_of_cons in Hx as [->|Hx]; auto. }
      simpl in Hle. lia. }
    unfold final.
    assert (El : (length ordered0 =? length (cteNames cteDefs)) = false)
      by (apply Nat.eqb_neq; lia).
    rewrite El. reflexivity.
Qed.

(** C8 on a map without cycles: [a] mentions [z], so the free names [b]
    and [z] come first, in alphabetical order, and [a] comes last. *)
Lemma C8_buildWithClause_order_witness :
  cteOrder Fixtures.ctes_ties = Some ["b"; "z"; "a"] /\
  appearsBefore ["b"; "z"; "a"] "z" "a" /\
  String.le "b" "z".
Proof.
  destruct (C8_buildWithClause_order Fixtures.ctes_ties)
    as (ordered & Hord & _ & _ & _ & _ & Hacyc & _).
  assert (E : cteOrder Fixtures.ctes_ties = Some ["b"; "z"; "a"]) by (vm_compute; reflexivity).
  rewrite E in Hord. injection Hord as <-.
  assert (Hno : ~ cyclicDeps Fixtures.ctes_ties).
  { apply (acyclic_by_rank _ Fixtures.rank_ties).
    intros a b (Ha & Hb & Hne & Hc).
    apply names_elem in Ha. apply names_elem in Hb.
    assert (En : cteNames Fixtures.ctes_ties = ["a"; "b"; "z"]) by (vm_compute; reflexivity).
    rewrite En in Ha, Hb.
    apply list_elem_of_In in Ha. apply list_elem_of_In in Hb. simpl in Ha, Hb.
    destruct Ha as [<-|[<-|[<-|[]]]]; destruct Hb as [<-|[<-|[<-|[]]]];
      first [ (exfalso; apply Hne; reflexivity)
            | (vm_compute in Hc; discriminate Hc)
            | (vm_compute; lia) ]. }
  destruct (Hacyc Hno) as [Hbefore Hleast].
  split; [exact E|]. split.
  - apply Hbefore. split; [vm_compute; eauto|]. split; [vm_compute; eauto|].
    split; [discriminate|vm_compute; reflexivity].
  - apply (Hleast [] "b" ["z"; "a"] "z" eq_refl); [apply list_elem_of_here|].
    intros b (_ & _ & _ & Hc). vm_compute in Hc. discriminate Hc.
Defined.

End WithClauseFacts.

(** ** The config builder *)

Module ConfigBuilderFacts.
Import GoStrings GoStringsFacts Toolkit Entries Subset Domains Registry Transformers.
Import ConfigBuilder ConfigBuilderSpec Fixtures MoreFixtures BindingTerms.

Lemma Ok_inj {A} (x y : A) : Ok x = Ok y -> x = y.
Proof. intros H. now injection H. Qed.

Lemma fold_left_append_flat_map {A B} (f : A -> list B) (l : list A) (acc : list B) :
  fold_left (fun acc x => acc ++ f x) l acc = acc ++ flat_map f l.
Proof.
  revert acc. induction l as [|x l IH]; intros acc; simpl.
  - now rewrite app_nil_r.
  - rewrite IH. now rewrite <- app_assoc.
Qed.

Lemma IndexFunc_find {A} (l : list A) (p : A -> bool) :
  match IndexFunc l p with
  | Some i => l !! i
  | None => None
  end = List.find p l.
Proof.
  induction l as [|x l IH]; simpl; [reflexivity|].
  destruct (p x); [reflexivity|].
  destruct (IndexFunc l p); simpl in *; exact IH.
Qed.

(** *** The registry checks *)

Lemma checkApplyForReferenceMetRequirements_eq (tcm : tableConfigMapping)
    (r : TransformerRegistry) :
  checkApplyForReferenceMetRequirements tcm r =
    let ws := flat_map (checkWarningsOf r) (cfg_Transformers (tcm_config tcm)) in
    (negb (IsFatal ws), ws).
Proof.
  unfold checkApplyForReferenceMetRequirements. cbv zeta.
  assert (E : forall l acc,
            fold_left
              (fun warnings tr =>
                 if negb (tr_ApplyForReferences tr) then warnings
                 else
                   let '(allowed, w) := isTransformerAllowedToApplyForReferences tr r in
                   if negb allowed then warnings ++ w else warnings) l acc =
            acc ++ flat_map (checkWarningsOf r) l).
  { induction l as [|tr l IH]; intros acc; simpl; [now rewrite app_nil_r|].
    rewrite IH. unfold checkWarningsOf.
    destruct (negb (tr_ApplyForReferences tr)); simpl; [reflexivity|].
    destruct (isTransformerAllowedToApplyForReferences tr r) as [allowed w].
    destruct (negb allowed); simpl; [now rewrite <- app_assoc|reflexivity]. }
  rewrite E. reflexivity.
Qed.

Lemma checkWarningsOf_not_marked (r : TransformerRegistry) (trs : list TransformerConfig) :
  Forall (fun t => tr_ApplyForReferences t = false) trs ->
  flat_map (checkWarningsOf r) trs = [].
Proof.
  induction 1 as [|t trs Ht _ IH]; simpl; [reflexivity|].
  unfold checkWarningsOf at 1. rewrite Ht. simpl. exact IH.
Qed.

Lemma isTransformerAllowed_not_supported (tr : TransformerConfig)
    (r : TransformerRegistry) (td : TransformerDefinition) :
  r !! tr_Name tr = Some td ->
  td_Meta td !! AllowApplyForReferenced <> Some true ->
  isTransformerAllowedToApplyForReferences tr r =
    (false, [notSupportedWarning (tr_Name tr)]).
Proof.
  intros Hr Hmeta. unfold isTransformerAllowedToApplyForReferences. rewrite Hr.
  destruct (td_Meta td !! AllowApplyForReferenced) as [[|]|]; try reflexivity.
  congruence.
Qed.

(** C5 as stated fails: when the registry reports that RandomString does
    not allow references, the builder returns one warning of severity error
    and no binding at all; the binding of the configured table itself is not
    in the result. *)
Lemma C5_counterexample :
  setConfigToEntries noPartitions 10 [cfg_users_rejected]
    [users; orders; order_items; comments] graph_shop registry_std =
    Ok ([], [notSupportedWarning "RandomString"], None) /\
  ~ In (mkTcm users cfg_users_rejected) [].
Proof. split; [vm_compute; reflexivity|intros []]. Qed.

(** C5 (amended). When the config of a table has one transformer marked
    apply_for_references and the registry definition of that transformer
    does not report AllowApplyForReferenced = true, the step of the builder
    for that table adds exactly one warning, of severity error and naming the
    transformer, and adds no binding: none is propagated, and the binding of
    the table itself is left out of the result. No entry is written. *)
Theorem C5_reference_propagation_rejected
    (findPartitions : Entries.Table -> list N * option string) (fuel : nat)
    (cfg : list Domains.Table) (tables : list Entries.Table) (g : Graph)
    (r : TransformerRegistry) (tcm : tableConfigMapping)
    (res : list tableConfigMapping) (warnings : ValidationWarnings) (s : entryStore)
    (pre post : list TransformerConfig) (tr : TransformerConfig)
    (td : TransformerDefinition) :
  cfg_Transformers (tcm_config tcm) = pre ++ tr :: post ->
  Forall (fun t => tr_ApplyForReferences t = false) (pre ++ post) ->
  tr_ApplyForReferences tr = true ->
  r !! tr_Name tr = Some td ->
  td_Meta td !! AllowApplyForReferenced <> Some true ->
  exists w,
    setConfigStep findPartitions fuel cfg tables g r tcm (res, warnings, s) =
      Ok ((res, warnings ++ [w], s), None) /\
    w_Severity w = ErrorValidationSeverity /\
    w_Meta w !! "TransformerName" = Some (tr_Name tr).
Proof.
  intros Htrs Hothers Hmarked Hr Hmeta.
  exists (notSupportedWarning (tr_Name tr)).
  split; [|split; [reflexivity|apply lookup_insert_eq]].
  apply Forall_app in Hothers as [Hpre Hpost].
  unfold setConfigStep.
  assert (Hhas : hasTransformerWithApplyForReferences tcm = true).
  { unfold hasTransformerWithApplyForReferences. rewrite Htrs.
    apply existsb_exists. exists tr. split; [|exact Hmarked].
    apply in_or_app. right. now left. }
  rewrite Hhas, checkApplyForReferenceMetRequirements_eq, Htrs. cbv zeta.
  rewrite flat_map_app. simpl flat_map.
  rewrite (checkWarningsOf_not_marked r pre Hpre), (checkWarningsOf_not_marked r post Hpost).
  unfold checkWarningsOf. rewrite Hmarked. simpl negb. cbv iota.
  rewrite (isTransformerAllowed_not_supported tr r td Hr Hmeta).
  reflexivity.
Qed.

(** C5 (amended) at the rejected RandomString on users.id. *)
Lemma C5_reference_propagation_rejected_witness :
  exists w,
    setConfigStep noPartitions 10 [cfg_users_rejected]
      [users; orders; order_items; comments] graph_shop registry_std
      (mkTcm users cfg_users_rejected) ([], [], ∅) =
      Ok (([], [] ++ [w], ∅), None) /\
    w_Severity w = ErrorValidationSeverity /\
    w_Meta w !! "TransformerName" = Some "RandomString".
Proof.
  apply (C5_reference_propagation_rejected noPartitions 10 [cfg_users_rejected]
           [users; orders; order_items; comments] graph_shop registry_std
           (mkTcm users cfg_users_rejected) [] [] ∅ [] [] randomStringTransformer
           (mkTransformerDefinition columnParams
              (<[AllowApplyForReferenced := false]>
               (<[RequireHashEngineParameter := false]> ∅)))).
  - reflexivity.
  - constructor.
  - reflexivity.
  - vm_compute. reflexivity.
  - vm_compute. discriminate.
Defined.

(** *** Auto-anonymize *)

Section AutoAnonymize.
Variable unicodeToLower : string -> string.
Variable DefaultTransformerRegistry : TransformerRegistry.
Variable jsonUnmarshalColumnDefs : string -> option (list string).
Variable TransformerContext : Type.
Variable initTransformer :
  Entries.Table -> TransformerConfig -> TransformerRegistry ->
  TransformerContext * ValidationWarnings * option string.

(** [GetDefaultTransformerForColumn] returns a transformer or an error,
    never both and never neither. *)
Lemma GetDefaultTransformerForColumn_cases (column : Column) :
  (exists tr, GetDefaultTransformerForColumn unicodeToLower column = (Some tr, None)) \/
  (exists e, GetDefaultTransformerForColumn unicodeToLower column = (None, Some e)).
Proof.
  unfold GetDefaultTransformerForColumn.
  destruct (HasSuffix _ _ || HasPrefix _ _).
  - left. eexists. reflexivity.
  - unfold getDefaultTransformerForScalarType.
    repeat (match goal with
            | |- context [if ?b then _ else _] => destruct b
            end; [left; eexists; reflexivity|]).
    right. eexists. reflexivity.
Qed.

Lemma defaultsForColumns_error (t : Entries.Table) (definedColumns skipColumns : gset string)
    (columns : list Column) (acc : list TransformerConfig) (column : Column) :
  In column columns ->
  needsDefault t definedColumns skipColumns column ->
  fst (GetDefaultTransformerForColumn unicodeToLower column) = None ->
  exists e,
    defaultsForColumns unicodeToLower t definedColumns skipColumns columns acc =
      ([], Some e).
Proof.
  intros Hin (Hdef & Hskip & Hgen & Hpk) Hnone.
  revert acc. induction columns as [|c columns IH]; intros acc; [contradiction|].
  simpl.
  destruct (decide (col_Name c ∈ definedColumns)) as [Hc|_].
  { destruct Hin as [->|Hin]; [contradiction|]. now apply IH. }
  destruct (decide (col_Name c ∈ skipColumns)) as [Hc|_].
  { destruct Hin as [->|Hin]; [contradiction|]. now apply IH. }
  destruct (col_IsGenerated c) eqn:Hg.
  { destruct Hin as [->|Hin]; [congruence|]. now apply IH. }
  destruct (slicesContains (PrimaryKey t) (col_Name c)) eqn:Hp.
  { destruct Hin as [->|Hin]; [congruence|]. now apply IH. }
  destruct (GetDefaultTransformerForColumn_cases c) as [[tr E]|[e E]]; rewrite E.
  - destruct Hin as [->|Hin]; [rewrite E in Hnone; discriminate|]. now apply IH.
  - eexists. reflexivity.
Qed.

(** C6 (amended). With auto_anonymize set, when the column names of the
    configured transformers are extracted without error and the table has a
    column that is not configured, not skip-listed, not generated, not in
    the primary key and whose type has no default transformer, the phase
    returns a non-nil error and no warning at all (in particular no warning
    of severity error), and initializes no transformer. *)
Theorem C6_unsupported_type_is_error
    (t : Entries.Table) (tableConfig : Domains.Table) (dumpConfig : Dump)
    (r : TransformerRegistry) (definedColumns : gset string) (column : Column) :
  AutoAnonymize dumpConfig = true ->
  collectDefinedColumns DefaultTransformerRegistry jsonUnmarshalColumnDefs
    (cfg_Transformers tableConfig) ∅ = (definedColumns, None) ->
  In column (Columns t) ->
  needsDefault t definedColumns (list_to_set (cfg_SkipAutoAnonymize tableConfig)) column ->
  fst (GetDefaultTransformerForColumn unicodeToLower column) = None ->
  let o := initAndSetupTransformers unicodeToLower DefaultTransformerRegistry
             jsonUnmarshalColumnDefs TransformerContext initTransformer
             t tableConfig dumpConfig r in
  (exists e, io_err _ o = Some e) /\
  io_warnings _ o = [] /\
  IsFatal (io_warnings _ o) = false /\
  io_contexts _ o = [] /\
  (forall warnings, exists e,
     initTransformersStep unicodeToLower DefaultTransformerRegistry
       jsonUnmarshalColumnDefs TransformerContext initTransformer
       t tableConfig dumpConfig r warnings =
       ([], Some e)).
Proof.
  intros Hauto Hdefined Hin Hneeds Hnone o.
  destruct (defaultsForColumns_error t definedColumns
              (list_to_set (cfg_SkipAutoAnonymize tableConfig))
              (Columns t) [] column Hin Hneeds Hnone) as [e He].
  assert (Ho : o = mkInitOutcome _ tableConfig [] []
                 (Some ("cannot generate default transformers for undefined columns: " +:+ e))).
  { unfold o, initAndSetupTransformers, generateDefaultTransformersForUndefinedColumns.
    rewrite Hauto, Hdefined, He. reflexivity. }
  unfold initTransformersStep. fold o. rewrite Ho. simpl.
  repeat split; eauto.
Qed.

End AutoAnonymize.

(** C6 as stated fails: for the table [places] with a geography column and
    auto_anonymize set, the phase returns a non-nil error and no warning. *)
Lemma C6_counterexample :
  let o := initAndSetupTransformers keepNonAscii registry_std noColumnDefs unit initNothing
             places cfg_places dump_auto registry_std in
  io_err _ o =
    Some "cannot generate default transformers for undefined columns: error getting default transformer for column location: unable to get default transformer for column location and type geography" /\
  io_warnings _ o = [] /\
  IsFatal (io_warnings _ o) = false.
Proof. vm_compute. auto. Qed.

(** C6 (amended) at the table [places]. *)
Lemma C6_unsupported_type_is_error_witness :
  let o := initAndSetupTransformers keepNonAscii registry_std noColumnDefs unit initNothing
             places cfg_places dump_auto registry_std in
  (exists e, io_err _ o = Some e) /\
  io_warnings _ o = [] /\
  IsFatal (io_warnings _ o) = false /\
  io_contexts _ o = [] /\
  (forall warnings, exists e,
     initTransformersStep keepNonAscii registry_std noColumnDefs unit initNothing
       places cfg_places dump_auto registry_std warnings = ([], Some e)).
Proof.
  apply (C6_unsupported_type_is_error keepNonAscii registry_std noColumnDefs unit initNothing
           places cfg_places dump_auto registry_std ∅ geoColumn).
  - reflexivity.
  - reflexivity.
  - right. left. reflexivity.
  - repeat split; try reflexivity; apply not_elem_of_empty.
  - vm_compute. reflexivity.
Defined.

(** *** Partition expansion *)

(** The entries are shared.  [events_2024] has a config of its own and is
    a partition of [events], which is configured with apply_for_inherited:
    the binding of [events_2024] to its own config, made before the
    expansion of [events] wrote to the entry, shows the parent and the
    columns of the parent like the binding the expansion made.  In the same
    way the binding propagated from [users] to [visits_2024] shows what the
    expansion of [visits] wrote to the entry afterwards. *)
Lemma setConfigToEntries_shares_entries :
  setConfigToEntries partitions_events 10 [cfg_events_2024; cfg_events]
    [events_2024; events; events_2025] graph_events registry_std =
    Ok ([mkTcm (leafEntry events events_2024) cfg_events_2024;
         mkTcm (leafEntry events events_2024) cfg_events;
         mkTcm (leafEntry events events_2025) cfg_events], [], None) /\
  setConfigToEntries partitions_visits 10 [cfg_users; cfg_visits]
    [users; visits; visits_2024] graph_visits registry_std =
    Ok ([propagatedBinding (leafEntry visits visits_2024) "user_id";
         mkTcm users cfg_users;
         mkTcm (leafEntry visits visits_2024) cfg_visits], [], None).
Proof. split; vm_compute; reflexivity. Qed.

(** C7. The code at the failing input: [events] is partitioned and
    configured with apply_for_inherited and a transformer on its primary key
    that asks for reference propagation; [event_logs] references [events]
    and is partitioned itself. The configured table goes through the
    partition test: it is replaced by one binding per partition in scope,
    each with the config of the parent and the parent recorded on the
    entry, and no binding is left for [events]. The binding propagated to
    [event_logs] does not go through that test: it is appended as it is and
    stays in the result with partition kind [p]. Without the propagation
    flag the same input gives the two partitions and nothing else. *)
Theorem C7_partitioned_reference_stays :
  let res := [propagatedBinding event_logs "event_id";
              mkTcm (leafEntry events events_2024) cfg_events_hash;
              mkTcm (leafEntry events events_2025) cfg_events_hash] in
  setConfigToEntries partitions_events 10 [cfg_events_hash]
    [events; events_2024; events_2025; event_logs] graph_events_logs registry_std =
    Ok (res, [], None) /\
  cfg_ApplyForInherited cfg_events_hash = true /\
  RelKind events = "p"%char /\
  (forall b, In b res -> Name (tcm_entry b) <> "events") /\
  (exists b, In b res /\ Name (tcm_entry b) = "event_logs" /\
             RelKind (tcm_entry b) = "p"%char) /\
  setConfigToEntries partitions_events 10 [cfg_events]
    [events; events_2024; events_2025; event_logs] graph_events_logs registry_std =
    Ok ([mkTcm (leafEntry events events_2024) cfg_events;
         mkTcm (leafEntry events events_2025) cfg_events], [], None).
Proof.
  cbv zeta. split; [vm_compute; reflexivity|].
  split; [reflexivity|]. split; [reflexivity|]. split; [|split].
  - intros b [<-|[<-|[<-|[]]]] H; discriminate H.
  - eexists. split; [left; reflexivity|]. split; reflexivity.
  - vm_compute. reflexivity.
Qed.

(** *** Reference propagation *)

Lemma collectRootTransformers_eq (rootTable : Entries.Table) (rootTableCfg : Domains.Table) :
  collectRootTransformers rootTable rootTableCfg =
    flat_map (rootTransformerOf rootTable) (cfg_Transformers rootTableCfg).
Proof.
  unfold collectRootTransformers.
  assert (E : forall l acc,
            fold_left
              (fun acc tr =>
                 if negb (tr_ApplyForReferences tr) ||
                    negb (String.eqb (param tr engineParameterName) "hash")
                 then acc
                 else
                   match slicesIndex (PrimaryKey rootTable) (param tr columnParameterName) with
                   | None => acc
                   | Some idx =>
                       acc ++ [mkTransformersMapping rootTable
                                 (param tr columnParameterName) idx tr]
                   end) l acc =
            acc ++ flat_map (rootTransformerOf rootTable) l).
  { induction l as [|tr l IH]; intros acc; simpl; [now rewrite app_nil_r|].
    rewrite IH. unfold rootTransformerOf.
    destruct (negb (tr_ApplyForReferences tr) || _); simpl; [reflexivity|].
    destruct (slicesIndex _ _); simpl; [now rewrite <- app_assoc|reflexivity]. }
  apply (E _ []).
Qed.

(** A configured transformer becomes a root transformer when it is marked
    for references, its engine parameter is literally hash and its column is
    a primary key column; [attNum] is the position of the column in the
    primary key. *)
Lemma collectRootTransformers_In (rootTable : Entries.Table) (rootTableCfg : Domains.Table)
    (tr : TransformerConfig) (attNum : nat) :
  In tr (cfg_Transformers rootTableCfg) ->
  tr_ApplyForReferences tr = true ->
  param tr engineParameterName = "hash" ->
  slicesIndex (PrimaryKey rootTable) (param tr columnParameterName) = Some attNum ->
  In (mkTransformersMapping rootTable (param tr columnParameterName) attNum tr)
     (collectRootTransformers rootTable rootTableCfg).
Proof.
  intros Hin Hmarked Hengine Hidx. rewrite collectRootTransformers_eq.
  apply in_flat_map. exists tr. split; [exact Hin|].
  unfold rootTransformerOf. rewrite Hmarked, Hengine, Hidx. simpl. now left.
Qed.

Lemma alter_In_keep {A} (f : A -> A) (l : list A) (i : nat) (x : A) :
  In x l -> In x (alter f i l) \/ In (f x) (alter f i l).
Proof.
  revert i. induction l as [|a l IH]; intros i Hin; [contradiction|].
  destruct i as [|i]; simpl.
  - destruct Hin as [->|Hin]; [right; now left|left; now right].
  - destruct Hin as [->|Hin]; [left; now left|].
    destruct (IH i Hin); [left|right]; now right.
Qed.

Lemma alter_In_at {A} (f : A -> A) (l : list A) (i : nat) (x : A) :
  l !! i = Some x -> In (f x) (alter f i l).
Proof.
  revert i. induction l as [|a l IH]; intros i Hx; [discriminate|].
  destruct i as [|i]; simpl in *.
  - inversion Hx; subst. now left.
  - right. now apply IH.
Qed.

Section Holds.
Variables (schema name : string) (tr : TransformerConfig).

Lemma addTransformer_keeps (r : Edge) (trConf : TransformerConfig)
    (o : gmap string string) (res : list tableConfigMapping) :
  holdsTransformer res schema name tr ->
  holdsTransformer (addTransformerToReferenceTable r trConf o res) schema name tr.
Proof.
  intros (tcm & Hin & Hs & Hn & Htr). unfold addTransformerToReferenceTable.
  destruct (IndexFunc res _) as [idx|].
  - match goal with |- holdsTransformer (alter ?f _ _) _ _ _ =>
      destruct (alter_In_keep f res idx tcm Hin) as [H|H] end.
    + exists tcm. auto.
    + eexists. split; [exact H|]. simpl. repeat split; auto.
      apply in_or_app. now left.
  - exists tcm. split; [apply in_or_app; now left|auto].
Qed.

Lemma processRootTransformer_keeps (r : Edge) (rootTableCfg : Domains.Table)
    (allTrans : list Domains.Table) (st st' : walkState) (rootTr : transformersMapping) :
  processRootTransformer r rootTableCfg allTrans st rootTr = Ok st' ->
  holdsTransformer st.1 schema name tr -> holdsTransformer st'.1 schema name tr.
Proof.
  destruct st as [res ws]. unfold processRootTransformer. simpl.
  destruct (tl_keys (edge_to r) !! tm_attNum rootTr); [|discriminate].
  destruct (checkTransformerAlreadyExists _ _ _ _ _); intros H; inversion H; subst; simpl.
  - auto.
  - apply addTransformer_keeps.
Qed.

Lemma processReferenceLoop_keeps (r : Edge) (rootTableCfg : Domains.Table)
    (allTrans : list Domains.Table) (rootTrans : list transformersMapping) :
  forall st st',
    processReferenceLoop r rootTableCfg allTrans rootTrans st = Ok st' ->
    holdsTransformer st.1 schema name tr -> holdsTransformer st'.1 schema name tr.
Proof.
  induction rootTrans as [|rootTr rootTrans IH]; intros st st' H Hholds.
  - inversion H; subst. exact Hholds.
  - cbn [processReferenceLoop] in H.
    destruct (processRootTransformer r rootTableCfg allTrans st rootTr) as [st1| |] eqn:E;
      try discriminate H.
    apply (IH st1 st' H). now apply (processRootTransformer_keeps _ _ _ _ _ _ E).
Qed.

Lemma isEndToEnd_skip_cases (graph : Graph) (checkEndToEnd : bool) (r : Edge) :
  (if checkEndToEnd
   then b ← isEndToEndPKFK graph (tl_table (edge_from r)); Ok (negb b)
   else Ok false) = Ok true \/
  (if checkEndToEnd
   then b ← isEndToEndPKFK graph (tl_table (edge_from r)); Ok (negb b)
   else Ok false) = Ok false \/
  (forall b, (if checkEndToEnd
   then b ← isEndToEndPKFK graph (tl_table (edge_from r)); Ok (negb b)
   else Ok false) <> Ok b).
Proof.
  destruct checkEndToEnd; [|auto].
  destruct (isEndToEndPKFK graph (tl_table (edge_from r))) as [[|]| |]; simpl; auto;
    right; right; intros b; discriminate.
Qed.

Lemma walkEdges_keeps
    (recurse : Entries.Table -> list tableConfigMapping -> result walkState)
    (rootTableCfg : Domains.Table) (rootTrans : list transformersMapping)
    (graph : Graph) (allTrans : list Domains.Table) (checkEndToEnd : bool) :
  (forall t res st', recurse t res = Ok st' ->
     holdsTransformer res schema name tr -> holdsTransformer st'.1 schema name tr) ->
  forall edges st st',
    walkEdges recurse rootTableCfg rootTrans graph allTrans checkEndToEnd edges st = Ok st' ->
    holdsTransformer st.1 schema name tr -> holdsTransformer st'.1 schema name tr.
Proof.
  intros Hrec. induction edges as [|r edges IH]; intros [res ws] st' H Hholds.
  - inversion H; subst. exact Hholds.
  - cbn [walkEdges] in H.
    destruct (isEndToEnd_skip_cases graph checkEndToEnd r) as [E|[E|E]].
    + rewrite E in H. simpl in H. apply (IH _ _ H Hholds).
    + rewrite E in H. cbn [mbind result_mbind result_bind] in H.
      destruct (processReference r rootTableCfg rootTrans allTrans res)
        as [[res1 ws1]| |] eqn:E1; try discriminate H.
      cbn [mbind result_mbind result_bind] in H.
      destruct (recurse (tl_table (edge_to r)) res1) as [[res2 ws2]| |] eqn:E2;
        try discriminate H.
      cbn [mbind result_mbind result_bind] in H.
      apply (IH _ _ H). simpl.
      apply (Hrec _ _ _ E2).
      apply (processReferenceLoop_keeps _ _ _ _ _ _ E1 Hholds).
    + exfalso.
      destruct (if checkEndToEnd then _ else _) as [b| |] eqn:Eb;
        [now apply (E b)|discriminate H|discriminate H].
Qed.

Lemma buildRefsWithEndToEndDfs_keeps (fuel : nat)
    (rootTableCfg : Domains.Table) (rootTrans : list transformersMapping)
    (graph : Graph) (allTrans : list Domains.Table) :
  forall table res checkEndToEnd st',
    buildRefsWithEndToEndDfs fuel table rootTableCfg rootTrans graph allTrans res
      checkEndToEnd = Ok st' ->
    holdsTransformer res schema name tr -> holdsTransformer st'.1 schema name tr.
Proof.
  induction fuel as [|fuel IH]; intros table res checkEndToEnd st' H Hholds;
    [discriminate H|].
  cbn [buildRefsWithEndToEndDfs] in H.
  destruct (findTableIndex graph table) as [idx|].
  - destruct (graph_reversed graph !! idx) as [edges|]; [|discriminate H].
    eapply walkEdges_keeps; [|exact H|exact Hholds].
    intros t res0 st0 H0. apply (IH _ _ _ _ H0).
  - inversion H; subst. exact Hholds.
Qed.

End Holds.

Lemma addTransformer_adds (r : Edge) (trConf : TransformerConfig)
    (o : gmap string string) (res : list tableConfigMapping) :
  holdsTransformer (addTransformerToReferenceTable r trConf o res)
    (Schema (tl_table (edge_to r))) (Name (tl_table (edge_to r))) trConf.
Proof.
  unfold addTransformerToReferenceTable.
  destruct (IndexFunc res _) as [idx|] eqn:E.
  - apply IndexFunc_Some in E as (x & Hx & Hp & _).
    apply andb_true_iff in Hp as [Hn Hs].
    apply String.eqb_eq in Hn. apply String.eqb_eq in Hs.
    eexists. split; [apply (alter_In_at _ res idx x Hx)|]. simpl.
    repeat split; auto. apply in_or_app. right. now left.
  - eexists. split; [apply in_or_app; right; now left|]. simpl.
    repeat split. now left.
Qed.

Lemma processReferenceLoop_adds (r : Edge) (rootTableCfg : Domains.Table)
    (allTrans : list Domains.Table) (rootTrans : list transformersMapping)
    (rootTr : transformersMapping) (key : Key) :
  In rootTr rootTrans ->
  tl_keys (edge_to r) !! tm_attNum rootTr = Some key ->
  checkTransformerAlreadyExists allTrans (Schema (tl_table (edge_to r)))
    (Name (tl_table (edge_to r))) (tr_Name (tm_cfg rootTr)) (key_Name key) = false ->
  forall st st',
    processReferenceLoop r rootTableCfg allTrans rootTrans st = Ok st' ->
    holdsTransformer st'.1 (Schema (tl_table (edge_to r))) (Name (tl_table (edge_to r)))
      (cloneTransformer rootTr (key_Name key)).
Proof.
  intros Hin Hkey Hmanual.
  induction rootTrans as [|rt rootTrans IH]; intros st st' H; [contradiction|].
  cbn [processReferenceLoop] in H.
  destruct (processRootTransformer r rootTableCfg allTrans st rt) as [st1| |] eqn:E;
    try discriminate H.
  cbn [mbind result_mbind result_bind] in H.
  destruct Hin as [->|Hin].
  - apply (processReferenceLoop_keeps _ _ _ _ _ _ _ _ _ H).
    destruct st as [res ws]. unfold processRootTransformer in E.
    rewrite Hkey in E. cbv zeta in E. rewrite Hmanual in E.
    inversion E; subst. simpl. apply addTransformer_adds.
  - apply (IH Hin st1 st' H).
Qed.

(** On the first level every edge out of the configured table is
    processed, and what it adds stays until the walk returns. *)
Lemma walkEdges_first_level
    (recurse : Entries.Table -> list tableConfigMapping -> result walkState)
    (rootTableCfg : Domains.Table) (rootTrans : list transformersMapping)
    (graph : Graph) (allTrans : list Domains.Table)
    (r : Edge) (rootTr : transformersMapping) (key : Key) :
  (forall schema name tr t res st', recurse t res = Ok st' ->
     holdsTransformer res schema name tr -> holdsTransformer st'.1 schema name tr) ->
  In rootTr rootTrans ->
  tl_keys (edge_to r) !! tm_attNum rootTr = Some key ->
  checkTransformerAlreadyExists allTrans (Schema (tl_table (edge_to r)))
    (Name (tl_table (edge_to r))) (tr_Name (tm_cfg rootTr)) (key_Name key) = false ->
  forall edges st st',
    In r edges ->
    walkEdges recurse rootTableCfg rootTrans graph allTrans false edges st = Ok st' ->
    holdsTransformer st'.1 (Schema (tl_table (edge_to r))) (Name (tl_table (edge_to r)))
      (cloneTransformer rootTr (key_Name key)).
Proof.
  intros Hrec Hin Hkey Hmanual.
  induction edges as [|e edges IH]; intros [res ws] st' Hr H; [contradiction|].
  cbn [walkEdges mbind result_mbind result_bind] in H.
  destruct (processReference e rootTableCfg rootTrans allTrans res)
    as [[res1 ws1]| |] eqn:E1; try discriminate H.
  cbn [mbind result_mbind result_bind] in H.
  destruct (recurse (tl_table (edge_to e)) res1) as [[res2 ws2]| |] eqn:E2;
    try discriminate H.
  cbn [mbind result_mbind result_bind] in H.
  destruct Hr as [->|Hr].
  - eapply walkEdges_keeps; [apply Hrec|exact H|]. simpl.
    apply (Hrec _ _ _ _ _ _ E2).
    apply (processReferenceLoop_adds _ _ _ _ _ _ Hin Hkey Hmanual _ _ E1).
  - apply (IH _ _ Hr H).
Qed.

(** What [getRefTables] returns holds, for every edge out of the root
    table, the clone of every root transformer whose position the keys of
    the edge cover and that is not configured by hand on the referencing
    table. *)
Lemma getRefTables_first_level (fuel : nat)
    (rootTable : Entries.Table) (rootTableCfg : Domains.Table) (graph : Graph)
    (allTrans : list Domains.Table) (idx : nat) (edges : list Edge)
    (r : Edge) (rootTr : transformersMapping) (key : Key) (st' : walkState) :
  findTableIndex graph rootTable = Some idx ->
  graph_reversed graph !! idx = Some edges ->
  In r edges ->
  In rootTr (collectRootTransformers rootTable rootTableCfg) ->
  tl_keys (edge_to r) !! tm_attNum rootTr = Some key ->
  checkTransformerAlreadyExists allTrans (Schema (tl_table (edge_to r)))
    (Name (tl_table (edge_to r))) (tr_Name (tm_cfg rootTr)) (key_Name key) = false ->
  getRefTables fuel rootTable rootTableCfg graph allTrans = Ok st' ->
  holdsTransformer st'.1 (Schema (tl_table (edge_to r))) (Name (tl_table (edge_to r)))
    (cloneTransformer rootTr (key_Name key)).
Proof.
  intros Hidx Hedges Hr Hroot Hkey Hmanual H.
  unfold getRefTables in H. destruct fuel as [|fuel]; [discriminate H|].
  cbn [buildRefsWithEndToEndDfs] in H. rewrite Hidx, Hedges in H.
  eapply walkEdges_first_level; [|exact Hroot|exact Hkey|exact Hmanual|exact Hr|exact H].
  intros schema name tr t res st0 H0 Hholds.
  eapply buildRefsWithEndToEndDfs_keeps; [exact H0|exact Hholds].
Qed.

(** *** Reading through the store *)

Lemma readEntry_names (s : entryStore) (t : Entries.Table) :
  Schema (readEntry s t) = Schema t /\ Name (readEntry s t) = Name t /\
  Oid (readEntry s t) = Oid t /\ PrimaryKey (readEntry s t) = PrimaryKey t /\
  RelKind (readEntry s t) = RelKind t.
Proof. unfold readEntry. destruct (s !! Oid t); repeat split. Qed.

Lemma readEntry_Schema (s : entryStore) (t : Entries.Table) :
  Schema (readEntry s t) = Schema t.
Proof. apply readEntry_names. Qed.

Lemma readEntry_Name (s : entryStore) (t : Entries.Table) :
  Name (readEntry s t) = Name t.
Proof. apply readEntry_names. Qed.

Lemma readEntry_PrimaryKey (s : entryStore) (t : Entries.Table) :
  PrimaryKey (readEntry s t) = PrimaryKey t.
Proof. apply readEntry_names. Qed.

Lemma IndexFunc_ext {A} (l : list A) (p q : A -> bool) :
  (forall x, In x l -> p x = q x) -> IndexFunc l p = IndexFunc l q.
Proof.
  induction l as [|a l IH]; intros H; [reflexivity|]. simpl.
  rewrite (H a) by now left. rewrite IH by (intros; apply H; now right). reflexivity.
Qed.

Lemma IndexFunc_map {A B} (f : A -> B) (l : list A) (p : B -> bool) :
  IndexFunc (map f l) p = IndexFunc l (fun x => p (f x)).
Proof. induction l as [|a l IH]; [reflexivity|]. simpl. now rewrite IH. Qed.

Lemma findTableIndex_read (s : entryStore) (g : Graph) (t : Entries.Table) :
  findTableIndex (readGraph s g) (readEntry s t) = findTableIndex g t.
Proof.
  unfold findTableIndex, readGraph. cbn [graph_tables].
  rewrite IndexFunc_map. apply IndexFunc_ext. intros x _.
  now rewrite !readEntry_Schema, !readEntry_Name.
Qed.

Lemma graph_reversed_read (s : entryStore) (g : Graph) (i : nat) :
  graph_reversed (readGraph s g) !! i = map (readEdge s) <$> graph_reversed g !! i.
Proof. unfold readGraph. cbn [graph_reversed]. apply list_lookup_fmap. Qed.

Lemma existsb_map_ext {A B} (f : A -> B) (p : B -> bool) (q : A -> bool) (l : list A) :
  (forall x, p (f x) = q x) -> existsb p (map f l) = existsb q l.
Proof.
  intros H. induction l as [|a l IH]; [reflexivity|]. simpl. now rewrite IH, H.
Qed.

Lemma isEndToEndPKFK_read (s : entryStore) (g : Graph) (t : Entries.Table) :
  isEndToEndPKFK (readGraph s g) (readEntry s t) = isEndToEndPKFK g t.
Proof.
  unfold isEndToEndPKFK.
  assert (E : IndexFunc (graph_tables (readGraph s g))
                (fun t0 => String.eqb (Name t0) (Name (readEntry s t)) &&
                           String.eqb (Schema t0) (Schema (readEntry s t))) =
              IndexFunc (graph_tables g)
                (fun t0 => String.eqb (Name t0) (Name t) &&
                           String.eqb (Schema t0) (Schema t))).
  { unfold readGraph. cbn [graph_tables]. rewrite IndexFunc_map.
    apply IndexFunc_ext. intros x _.
    now rewrite !readEntry_Schema, !readEntry_Name. }
  rewrite E. destruct (IndexFunc (graph_tables g) _) as [idx|]; [|reflexivity].
  rewrite graph_reversed_read.
  assert (El : length (graph_reversed (readGraph s g)) = length (graph_reversed g))
    by (unfold readGraph; cbn [graph_reversed]; apply length_map).
  rewrite El. destruct (graph_reversed g !! idx) as [refs|]; [|reflexivity].
  cbn [fmap option_fmap option_map]. f_equal.
  apply existsb_map_ext. intros ref. cbn [readEdge edge_to readLink tl_keys tl_table].
  now rewrite readEntry_PrimaryKey.
Qed.

Lemma processedAt_read (s : entryStore) (g : Graph) (deep : bool) (i : nat) (e' : Edge) :
  processedAt (readGraph s g) deep i e' ->
  exists e, e' = readEdge s e /\ processedAt g deep i e.
Proof.
  intros (edges' & Hrow & He & Hdeep). rewrite graph_reversed_read in Hrow.
  destruct (graph_reversed g !! i) as [edges|] eqn:Er; [|discriminate Hrow].
  cbn in Hrow. injection Hrow as <-.
  apply in_map_iff in He as (e & <- & He).
  exists e. split; [reflexivity|]. exists edges. split; [exact Er|]. split; [exact He|].
  intros Hd. specialize (Hdeep Hd).
  cbn [readEdge edge_from readLink tl_table] in Hdeep.
  now rewrite isEndToEndPKFK_read in Hdeep.
Qed.

Lemma walkedRow_read (s : entryStore) (g : Graph) (i0 : nat) (deep : bool) (i : nat) :
  walkedRow (readGraph s g) i0 deep i -> walkedRow g i0 deep i.
Proof.
  induction 1 as [|deep i e' j _ IH Hp Hj]; [constructor|].
  destruct (processedAt_read s g deep i e' Hp) as (e & -> & Hp').
  cbn [readEdge edge_to readLink tl_table] in Hj. rewrite findTableIndex_read in Hj.
  exact (walked_child g i0 deep i e j IH Hp' Hj).
Qed.

Lemma collectRootTransformers_read (s : entryStore) (t : Entries.Table)
    (c : Domains.Table) (rootTr' : transformersMapping) :
  In rootTr' (collectRootTransformers (readEntry s t) c) ->
  exists rootTr, In rootTr (collectRootTransformers t c) /\
                 tm_attNum rootTr' = tm_attNum rootTr.
Proof.
  rewrite !collectRootTransformers_eq, !in_flat_map. intros (tr & Htr & Hin).
  unfold rootTransformerOf in Hin. rewrite readEntry_PrimaryKey in Hin.
  destruct (negb (tr_ApplyForReferences tr) || _) eqn:Eg; [contradiction|].
  destruct (slicesIndex (PrimaryKey t) (param tr columnParameterName)) as [idx|] eqn:Ei;
    [|contradiction].
  destruct Hin as [<-|[]].
  exists (mkTransformersMapping t (param tr columnParameterName) idx tr).
  split; [|reflexivity]. apply in_flat_map. exists tr. split; [exact Htr|].
  unfold rootTransformerOf. rewrite Eg, Ei. now left.
Qed.

(** The conditions of the walk are conditions on the shape of the graph:
    they hold of the graph as it reads under any store. *)
Lemma walkInRange_read (s : entryStore) (g : Graph) (t : Entries.Table)
    (c : Domains.Table) (i0 : nat) (rank : bool -> nat -> nat) :
  walkInRange g (collectRootTransformers t c) i0 rank ->
  walkInRange (readGraph s g) (collectRootTransformers (readEntry s t) c) i0 rank.
Proof.
  intros Hwf. constructor.
  - intros deep i Hw. apply walkedRow_read in Hw.
    unfold readGraph. cbn [graph_reversed]. rewrite length_map.
    apply (wr_rows _ _ _ _ Hwf deep i Hw).
  - intros i edges' e' Hw Hrow He. apply walkedRow_read in Hw.
    rewrite graph_reversed_read in Hrow.
    destruct (graph_reversed g !! i) as [edges|] eqn:Er; [|discriminate Hrow].
    cbn in Hrow. injection Hrow as <-. apply in_map_iff in He as (e & <- & He).
    cbn [readEdge edge_from readLink tl_table]. rewrite isEndToEndPKFK_read.
    apply (wr_from _ _ _ _ Hwf i edges e Hw Er He).
  - intros deep i e' rootTr' Hw Hp Hr. apply walkedRow_read in Hw.
    destruct (processedAt_read s g deep i e' Hp) as (e & -> & Hp').
    destruct (collectRootTransformers_read s t c rootTr' Hr) as (rootTr & Hr' & ->).
    cbn [readEdge edge_to readLink tl_keys].
    apply (wr_keys _ _ _ _ Hwf deep i e rootTr Hw Hp' Hr').
  - intros deep i e' j Hw Hp Hj. apply walkedRow_read in Hw.
    destruct (processedAt_read s g deep i e' Hp) as (e & -> & Hp').
    cbn [readEdge edge_to readLink tl_table] in Hj. rewrite findTableIndex_read in Hj.
    apply (wr_rank _ _ _ _ Hwf deep i e j Hw Hp' Hj).
Qed.

(** *** The reference walk returns *)

Lemma IndexFunc_is_Some {A} (l : list A) (p : A -> bool) (x : A) :
  In x l -> p x = true -> exists i, IndexFunc l p = Some i /\ i < length l.
Proof.
  induction l as [|a l IH]; intros Hin Hp; [contradiction|]. simpl.
  destruct (p a) eqn:Ea; [exists 0; split; [reflexivity|simpl; lia]|].
  destruct Hin as [->|Hin]; [congruence|].
  destruct (IH Hin Hp) as (i & -> & Hi). exists (S i). split; [reflexivity|simpl; lia].
Qed.

Lemma IndexFunc_lt {A} (l : list A) (p : A -> bool) (i : nat) :
  IndexFunc l p = Some i -> i < length l.
Proof.
  intros H. apply IndexFunc_Some in H as (x & Hx & _).
  now apply lookup_lt_Some in Hx.
Qed.

(** The first two conditions of the walk hold of a graph that has one row
    of edges per table and whose edges leave tables of the graph. *)
Lemma walkedRow_in_rows (g : Graph) (i0 : nat) :
  length (graph_reversed g) = length (graph_tables g) ->
  i0 < length (graph_reversed g) ->
  forall deep i, walkedRow g i0 deep i -> i < length (graph_reversed g).
Proof.
  intros Hrows Hi0 deep i Hw. destruct Hw as [|deep i e j _ _ Hj]; [exact Hi0|].
  rewrite Hrows. apply (IndexFunc_lt _ _ _ Hj).
Qed.

Lemma isEndToEndPKFK_returns (g : Graph) (e : Edge) :
  length (graph_reversed g) = length (graph_tables g) ->
  In (tl_table (edge_from e)) (graph_tables g) ->
  exists b, isEndToEndPKFK g (tl_table (edge_from e)) = Ok b.
Proof.
  intros Hrows Hfrom. unfold isEndToEndPKFK.
  destruct (IndexFunc_is_Some (graph_tables g)
              (fun t => String.eqb (Name t) (Name (tl_table (edge_from e))) &&
                        String.eqb (Schema t) (Schema (tl_table (edge_from e))))
              (tl_table (edge_from e)) Hfrom)
    as (j & -> & Hj).
  { rewrite !String.eqb_refl. reflexivity. }
  rewrite <- Hrows in Hj.
  apply lookup_lt_is_Some_2 in Hj as [refs ->]. eauto.
Qed.

(** [processReference] returns for an edge whose keys reach the positions
    of the root transformers. *)
Lemma processReferenceLoop_returns (e : Edge) (rootTableCfg : Domains.Table)
    (allTrans : list Domains.Table) (rts : list transformersMapping) :
  (forall rt, In rt rts -> tm_attNum rt < length (tl_keys (edge_to e))) ->
  forall st, exists st', processReferenceLoop e rootTableCfg allTrans rts st = Ok st'.
Proof.
  induction rts as [|rt rts IH]; intros Hkeys st; [eexists; reflexivity|].
  cbn [processReferenceLoop].
  assert (Hlt : tm_attNum rt < length (tl_keys (edge_to e))) by (apply Hkeys; now left).
  apply lookup_lt_is_Some_2 in Hlt as [key Hkey].
  destruct st as [res ws]. unfold processRootTransformer at 1. rewrite Hkey. cbv zeta.
  destruct (checkTransformerAlreadyExists _ _ _ _ _);
    cbn [mbind result_mbind result_bind]; apply IH; intros; apply Hkeys; now right.
Qed.

Section Returns.
Variables (g : Graph) (rootTableCfg : Domains.Table)
          (rootTrans : list transformersMapping) (allTrans : list Domains.Table)
          (i0 : nat) (rank : bool -> nat -> nat).
Hypothesis Hwf : walkInRange g rootTrans i0 rank.

Lemma walkEdges_returns
    (recurse : Entries.Table -> list tableConfigMapping -> result walkState)
    (deep : bool) (i : nat) (edges : list Edge) :
  walkedRow g i0 deep i ->
  graph_reversed g !! i = Some edges ->
  (forall e res, processedAt g deep i e ->
     exists st', recurse (tl_table (edge_to e)) res = Ok st') ->
  forall es st, (forall e, In e es -> In e edges) ->
    exists st', walkEdges recurse rootTableCfg rootTrans g allTrans deep es st = Ok st'.
Proof.
  intros Hw Hrow Hrec.
  induction es as [|e es IH]; intros [res ws] Hsub; [eexists; reflexivity|].
  cbn [walkEdges].
  assert (He : In e edges) by (apply Hsub; now left).
  assert (Hes : forall e', In e' es -> In e' edges) by (intros; apply Hsub; now right).
  assert (Hskip : (if deep
                   then b ← isEndToEndPKFK g (tl_table (edge_from e)); Ok (negb b)
                   else Ok false) = Ok true \/
                  (if deep
                   then b ← isEndToEndPKFK g (tl_table (edge_from e)); Ok (negb b)
                   else Ok false) = Ok false /\ processedAt g deep i e).
  { destruct deep.
    - destruct (wr_from _ _ _ _ Hwf i edges e Hw Hrow He) as [b Hb]. rewrite Hb.
      destruct b; [right|left; reflexivity].
      split; [reflexivity|]. exists edges. auto.
    - right. split; [reflexivity|]. exists edges. split; [exact Hrow|]. split; [exact He|].
      intros H; discriminate H. }
  destruct Hskip as [->|[-> Hp]]; cbn [mbind result_mbind result_bind].
  - apply IH, Hes.
  - destruct (processReferenceLoop_returns e rootTableCfg allTrans rootTrans
                (fun rt Hrt => wr_keys _ _ _ _ Hwf deep i e rt Hw Hp Hrt) (res, []))
      as [[res1 ws1] E1].
    unfold processReference. rewrite E1. cbn [mbind result_mbind result_bind].
    destruct (Hrec e res1 Hp) as [[res2 ws2] ->]. cbn [mbind result_mbind result_bind].
    apply IH, Hes.
Qed.

(** With more fuel than the rank of the row the walk stands at, and one
    unit for a table that is not in the graph, the walk returns. *)
Lemma buildRefsWithEndToEndDfs_returns (fuel : nat) :
  forall deep table res,
    0 < fuel ->
    (forall i, findTableIndex g table = Some i ->
               walkedRow g i0 deep i /\ rank deep i + 1 < fuel) ->
    exists st', buildRefsWithEndToEndDfs fuel table rootTableCfg rootTrans g allTrans
                  res deep = Ok st'.
Proof.
  induction fuel as [|fuel IH]; intros deep table res Hpos Hrow; [lia|].
  cbn [buildRefsWithEndToEndDfs].
  destruct (findTableIndex g table) as [i|] eqn:Ei; [|eexists; reflexivity].
  destruct (Hrow i eq_refl) as [Hw Hrank].
  pose proof (wr_rows _ _ _ _ Hwf deep i Hw) as Hi.
  apply lookup_lt_is_Some_2 in Hi as [edges Hedges]. rewrite Hedges.
  apply (walkEdges_returns _ deep i edges Hw Hedges); [|auto].
  intros e res0 Hp. apply IH; [lia|].
  intros j Hj. split; [exact (walked_child g i0 deep i e j Hw Hp Hj)|].
  pose proof (wr_rank _ _ _ _ Hwf deep i e j Hw Hp Hj). lia.
Qed.

End Returns.

(** [getRefTables] returns when the walk from the row of the root table
    stays in range and the fuel exceeds the rank of that row. *)
Lemma getRefTables_returns (fuel : nat) (rootTable : Entries.Table)
    (rootTableCfg : Domains.Table) (g : Graph) (allTrans : list Domains.Table)
    (idx : nat) (rank : bool -> nat -> nat) :
  findTableIndex g rootTable = Some idx ->
  walkInRange g (collectRootTransformers rootTable rootTableCfg) idx rank ->
  rank false idx + 1 < fuel ->
  exists st', getRefTables fuel rootTable rootTableCfg g allTrans = Ok st'.
Proof.
  intros Hidx Hwf Hfuel. unfold getRefTables.
  apply (buildRefsWithEndToEndDfs_returns g rootTableCfg _ allTrans idx rank Hwf);
    [lia|].
  intros i Hi. rewrite Hidx in Hi. injection Hi as <-. split; [constructor|exact Hfuel].
Qed.

(** *** The bindings only grow *)

Section Binding.
Variable findPartitions : Entries.Table -> list N * option string.

Lemma setupConfigForPartitionedTableChildren_ok
    (parentTcm : tableConfigMapping) (tables : list Entries.Table)
    (cfg : list Domains.Table) (s : entryStore) :
  (findPartitions (tcm_entry parentTcm)).2 = None ->
  exists st, setupConfigForPartitionedTableChildren findPartitions parentTcm tables cfg s =
               (st, None).
Proof.
  unfold setupConfigForPartitionedTableChildren.
  destruct (findPartitions (tcm_entry parentTcm)) as [parts [err|]]; cbn [snd];
    intros H; [discriminate H|]. eexists. reflexivity.
Qed.

Lemma appendOrExpand_grows
    (cfg : list Domains.Table) (tables : list Entries.Table)
    (tcm : tableConfigMapping) (st st' : configState) (err : option string) :
  appendOrExpand findPartitions cfg tables tcm st = (st', err) ->
  forall b, In b st.1.1 -> In b st'.1.1.
Proof.
  destruct st as [[res warnings] s]. unfold appendOrExpand. cbn [fst].
  destruct (negb (Ascii.eqb (RelKind (tcm_entry tcm)) "p")).
  { intros H b Hb. injection H as <- _. cbn [fst]. apply in_or_app. now left. }
  destruct (negb (cfg_ApplyForInherited (tcm_config tcm))).
  { intros H b Hb. injection H as <- _. exact Hb. }
  destruct (setupConfigForPartitionedTableChildren findPartitions tcm tables cfg s)
    as [[inhTab s'] [e|]]; intros H b Hb; injection H as <- _; cbn [fst].
  - exact Hb.
  - apply in_or_app. now left.
Qed.

Lemma appendOrExpand_ok
    (cfg : list Domains.Table) (tables : list Entries.Table)
    (tcm : tableConfigMapping) (st : configState) :
  partitionLookupSucceeds findPartitions tcm ->
  exists st', appendOrExpand findPartitions cfg tables tcm st = (st', None).
Proof.
  intros Hlookup. destruct st as [[res warnings] s]. unfold appendOrExpand.
  destruct (Ascii.eqb (RelKind (tcm_entry tcm)) "p") eqn:Ek; cbn [negb];
    [|eexists; reflexivity].
  destruct (cfg_ApplyForInherited (tcm_config tcm)) eqn:Ei; cbn [negb];
    [|eexists; reflexivity].
  apply Ascii.eqb_eq in Ek.
  destruct (setupConfigForPartitionedTableChildren_ok tcm tables cfg s (Hlookup Ek Ei))
    as [[inhTab s'] ->].
  eexists. reflexivity.
Qed.

Lemma setConfigStep_grows (fuel : nat)
    (cfg : list Domains.Table) (tables : list Entries.Table) (g : Graph)
    (r : TransformerRegistry) (tcm : tableConfigMapping) (st st' : configState)
    (err : option string) :
  setConfigStep findPartitions fuel cfg tables g r tcm st = Ok (st', err) ->
  forall b, In b st.1.1 -> In b st'.1.1.
Proof.
  destruct st as [[res warnings] s]. unfold setConfigStep. cbn [fst].
  destruct (hasTransformerWithApplyForReferences tcm).
  - destruct (checkApplyForReferenceMetRequirements tcm r) as [ok checkWarns].
    destruct (negb ok).
    { intros H b Hb. apply Ok_inj in H. injection H as <- _. exact Hb. }
    destruct (getRefTables fuel _ (tcm_config tcm) _ cfg)
      as [[refTables warns]| |]; cbn [mbind result_mbind result_bind];
      try (intros H; discriminate H).
    intros H b Hb. apply Ok_inj in H.
    apply (appendOrExpand_grows _ _ _ _ _ _ H). cbn [fst]. apply in_or_app. now left.
  - intros H b Hb. apply Ok_inj in H. apply (appendOrExpand_grows _ _ _ _ _ _ H). exact Hb.
Qed.

Lemma setConfigLoop_grows (fuel : nat)
    (cfg : list Domains.Table) (tables : list Entries.Table) (g : Graph)
    (r : TransformerRegistry) (tcms : list tableConfigMapping) :
  forall (st st' : configState),
    setConfigLoop findPartitions fuel cfg tables g r tcms st = Ok (st', None) ->
    forall b, In b st.1.1 -> In b st'.1.1.
Proof.
  induction tcms as [|tcm tcms IH]; intros st st' H b Hb.
  - apply Ok_inj in H. injection H as <-. exact Hb.
  - cbn [setConfigLoop] in H.
    destruct (setConfigStep findPartitions fuel cfg tables g r tcm st)
      as [[st1 [e1|]]| |] eqn:E; cbn [mbind result_mbind result_bind] in H;
      try discriminate H.
    apply (IH _ _ H). apply (setConfigStep_grows _ _ _ _ _ _ _ _ _ E). exact Hb.
Qed.

(** When the loop returns without error, every configured table went
    through the body of the loop without error, and what the body returned
    for it is still among the bindings at the end. *)
Lemma setConfigLoop_In (fuel : nat)
    (cfg : list Domains.Table) (tables : list Entries.Table) (g : Graph)
    (r : TransformerRegistry) (tcms : list tableConfigMapping) (tcm : tableConfigMapping) :
  In tcm tcms ->
  forall (st st' : configState),
    setConfigLoop findPartitions fuel cfg tables g r tcms st = Ok (st', None) ->
    exists st0 st1,
      setConfigStep findPartitions fuel cfg tables g r tcm st0 = Ok (st1, None) /\
      forall b, In b st1.1.1 -> In b st'.1.1.
Proof.
  induction tcms as [|tcm' tcms IH]; intros Hin st st' H; [contradiction|].
  cbn [setConfigLoop] in H.
  destruct (setConfigStep findPartitions fuel cfg tables g r tcm' st)
    as [[st1 [e1|]]| |] eqn:E; cbn [mbind result_mbind result_bind] in H;
    try discriminate H.
  destruct Hin as [->|Hin].
  - exists st, st1. split; [exact E|]. apply (setConfigLoop_grows _ _ _ _ _ _ _ _ H).
  - apply (IH Hin _ _ H).
Qed.

End Binding.

(** [getRefTables] returns for a root table that is not in the graph as
    soon as there is fuel, and for one that is in the graph when the walk
    from its row stays in range. *)
Lemma getRefTables_returns_or_absent (fuel : nat) (rootTable : Entries.Table)
    (rootTableCfg : Domains.Table) (g : Graph) (allTrans : list Domains.Table) :
  0 < fuel ->
  (forall idx, findTableIndex g rootTable = Some idx ->
     exists rank,
       walkInRange g (collectRootTransformers rootTable rootTableCfg) idx rank /\
       rank false idx + 1 < fuel) ->
  exists st', getRefTables fuel rootTable rootTableCfg g allTrans = Ok st'.
Proof.
  intros Hpos Hrow.
  destruct (findTableIndex g rootTable) as [idx|] eqn:Eidx.
  - destruct (Hrow idx eq_refl) as (rank & Hwf & Hfuel).
    apply (getRefTables_returns fuel rootTable rootTableCfg g allTrans idx rank Eidx Hwf Hfuel).
  - unfold getRefTables. destruct fuel as [|fuel]; [lia|].
    cbn [buildRefsWithEndToEndDfs]. rewrite Eidx. eexists. reflexivity.
Qed.

Section Builder.
Variable findPartitions : Entries.Table -> list N * option string.

Lemma setConfigStep_returns (fuel : nat)
    (cfg : list Domains.Table) (tables : list Entries.Table) (g : Graph)
    (r : TransformerRegistry) (tcm : tableConfigMapping) :
  stepInRange findPartitions fuel g r tcm ->
  forall st, exists st',
    setConfigStep findPartitions fuel cfg tables g r tcm st = Ok (st', None).
Proof.
  intros [Hlookup Hwalk] [[res warnings] s]. unfold setConfigStep.
  destruct (hasTransformerWithApplyForReferences tcm) eqn:Ehas.
  - destruct (checkApplyForReferenceMetRequirements tcm r) as [ok checkWarns] eqn:Echeck.
    destruct ok; cbn [negb]; [|eexists; reflexivity].
    destruct (Hwalk eq_refl eq_refl) as [Hpos Hrow].
    destruct (getRefTables_returns_or_absent fuel (readEntry s (tcm_entry tcm))
                (tcm_config tcm) (readGraph s g) cfg Hpos) as [[refTables warns] ->].
    { intros idx Hidx. rewrite findTableIndex_read in Hidx.
      destruct (Hrow idx Hidx) as (rank & Hwf & Hfuel).
      exists rank. split; [apply walkInRange_read, Hwf|exact Hfuel]. }
    cbn [mbind result_mbind result_bind].
    destruct (appendOrExpand_ok findPartitions cfg tables tcm
                (res ++ refTables, warnings ++ warns, s) Hlookup) as [st' E].
    exists st'. apply f_equal. exact E.
  - destruct (appendOrExpand_ok findPartitions cfg tables tcm (res, warnings, s) Hlookup)
      as [st' E].
    exists st'. apply f_equal. exact E.
Qed.

Lemma setConfigLoop_returns (fuel : nat)
    (cfg : list Domains.Table) (tables : list Entries.Table) (g : Graph)
    (r : TransformerRegistry) (tcms : list tableConfigMapping) :
  (forall tcm, In tcm tcms -> stepInRange findPartitions fuel g r tcm) ->
  forall st, exists st',
    setConfigLoop findPartitions fuel cfg tables g r tcms st = Ok (st', None).
Proof.
  induction tcms as [|tcm tcms IH]; intros Hall st; [eexists; reflexivity|].
  cbn [setConfigLoop].
  destruct (setConfigStep_returns fuel cfg tables g r tcm (Hall tcm (or_introl eq_refl)) st)
    as [st1 ->].
  cbn [mbind result_mbind result_bind]. apply IH. intros; apply Hall. now right.
Qed.

(** [setConfigToEntries] returns without error when every configured table
    meets the conditions of the body of the loop. *)
Lemma setConfigToEntries_returns (fuel : nat)
    (cfg : list Domains.Table) (tables : list Entries.Table) (g : Graph)
    (r : TransformerRegistry) :
  (forall tcm, In tcm (findTablesWithTransformers cfg tables) ->
     stepInRange findPartitions fuel g r tcm) ->
  exists res ws, setConfigToEntries findPartitions fuel cfg tables g r = Ok (res, ws, None).
Proof.
  intros Hall. unfold setConfigToEntries.
  destruct (setConfigLoop_returns fuel cfg tables g r _ Hall ([], [], ∅)) as [st' ->].
  cbn [mbind result_mbind result_bind]. eexists _, _. reflexivity.
Qed.

End Builder.

(** The walk of a table whose edges lead back to it through tables that
    pass the end-to-end test does not end: whatever the fuel, it is used
    up. *)
Lemma person_walk_does_not_end (fuel : nat) :
  forall (res : list tableConfigMapping) (deep : bool),
    buildRefsWithEndToEndDfs fuel person cfg_person
      (collectRootTransformers person cfg_person) graph_person [cfg_person] res deep =
      OutOfFuel /\
    buildRefsWithEndToEndDfs fuel passport cfg_person
      (collectRootTransformers person cfg_person) graph_person [cfg_person] res true =
      OutOfFuel.
Proof.
  assert (Hkeys : forall e rt,
            In e [refEdge 0 person "id" passport "id"; refEdge 1 passport "id" person "id"] ->
            In rt (collectRootTransformers person cfg_person) ->
            tm_attNum rt < length (tl_keys (edge_to e))).
  { intros e rt He Hrt.
    assert (Ert : collectRootTransformers person cfg_person =
                  [mkTransformersMapping person "id" 0 (hashTransformer "id")])
      by (vm_compute; reflexivity).
    rewrite Ert in Hrt. destruct Hrt as [<-|[]].
    destruct He as [<-|[<-|[]]]; simpl; lia. }
  assert (E1 : findTableIndex graph_person person = Some 0) by (vm_compute; reflexivity).
  assert (E2 : findTableIndex graph_person passport = Some 1) by (vm_compute; reflexivity).
  assert (E3 : isEndToEndPKFK graph_person person = Ok true) by (vm_compute; reflexivity).
  assert (E4 : isEndToEndPKFK graph_person passport = Ok true) by (vm_compute; reflexivity).
  assert (E5 : graph_reversed graph_person !! 0 = Some [refEdge 0 person "id" passport "id"])
    by reflexivity.
  assert (E6 : graph_reversed graph_person !! 1 = Some [refEdge 1 passport "id" person "id"])
    by reflexivity.
  induction fuel as [|fuel IH]; intros res deep; [split; reflexivity|].
  split.
  - cbn [buildRefsWithEndToEndDfs]. rewrite E1, E5. cbn [walkEdges].
    assert (Eskip : (if deep
                     then b ← isEndToEndPKFK graph_person
                                (tl_table (edge_from (refEdge 0 person "id" passport "id")));
                          Ok (negb b)
                     else Ok false) = Ok false).
    { destruct deep; [|reflexivity].
      cbn [refEdge edge_from tl_table]. rewrite E3. reflexivity. }
    rewrite Eskip. cbn [mbind result_mbind result_bind].
    destruct (processReferenceLoop_returns (refEdge 0 person "id" passport "id") cfg_person
                [cfg_person] (collectRootTransformers person cfg_person)
                (fun rt Hrt => Hkeys _ rt (or_introl eq_refl) Hrt) (res, []))
      as [[res1 ws1] Ep].
    unfold processReference. rewrite Ep. cbn [mbind result_mbind result_bind].
    cbn [refEdge edge_to tl_table].
    rewrite (proj2 (IH res1 true)). reflexivity.
  - cbn [buildRefsWithEndToEndDfs]. rewrite E2, E6. cbn [walkEdges].
    cbn [refEdge edge_from tl_table]. rewrite E4. cbn [mbind result_mbind result_bind negb].
    destruct (processReferenceLoop_returns (refEdge 1 passport "id" person "id") cfg_person
                [cfg_person] (collectRootTransformers person cfg_person)
                (fun rt Hrt => Hkeys _ rt (or_intror (or_introl eq_refl)) Hrt) (res, []))
      as [[res1 ws1] Ep].
    unfold processReference. rewrite Ep. cbn [mbind result_mbind result_bind].
    cbn [refEdge edge_to tl_table].
    rewrite (proj1 (IH res1 true)). reflexivity.
Qed.



(** The graph where [staff] references itself meets the conditions of the
    walk from [staff]: the walk comes back to [staff] once and stops there,
    as [staff] does not pass the end-to-end test. *)
Lemma graph_staff_in_range :
  walkInRange graph_staff (collectRootTransformers staff cfg_staff) 0 rank_staff.
Proof.
  assert (Hrows : forall i edges e,
            graph_reversed graph_staff !! i = Some edges -> In e edges ->
            i = 0 /\ (e = refEdge 0 staff "id" staff "manager_id" \/
                      e = refEdge 1 staff "id" badges "staff_id")).
  { intros i edges e Hrow He.
    destruct i as [|[|i]]; simpl in Hrow; inversion Hrow; subst; simpl in He.
    - split; [reflexivity|]. destruct He as [<-|[<-|[]]]; auto.
    - contradiction. }
  assert (Eend : isEndToEndPKFK graph_staff staff = Ok false) by (vm_compute; reflexivity).
  constructor.
  - intros deep i Hw. change (length (graph_reversed graph_staff)) with 2.
    destruct Hw as [|deep i e j _ _ Hj]; [lia|].
    apply IndexFunc_lt in Hj. exact Hj.
  - intros i edges e _ Hrow He.
    destruct (Hrows i edges e Hrow He) as [_ [->| ->]]; exists false; exact Eend.
  - intros deep i e rootTr _ (edges & Hrow & He & _) Hroot.
    assert (Ert : collectRootTransformers staff cfg_staff =
                  [mkTransformersMapping staff "id" 0 (hashTransformer "id")])
      by (vm_compute; reflexivity).
    rewrite Ert in Hroot. destruct Hroot as [<-|[]].
    destruct (Hrows i edges e Hrow He) as [_ [->| ->]]; simpl; lia.
  - intros deep i e j _ (edges & Hrow & He & Hdeep) _.
    destruct deep; [|unfold rank_staff; lia].
    specialize (Hdeep eq_refl).
    destruct (Hrows i edges e Hrow He) as [_ [->| ->]];
      cbn [refEdge edge_from tl_table] in Hdeep; rewrite Eend in Hdeep; discriminate Hdeep.
Qed.


(** The reference propagation scenario of the specification: the Hash
    transformer on users.id reaches orders.user_id and comments.user_id on
    the first level and order_items.order_id on the second level, and
    nothing else. *)
Lemma reference_propagation_scenario :
  getRefTables 10 users cfg_users graph_shop [cfg_users] =
    Ok ([propagatedBinding orders "user_id"; propagatedBinding order_items "order_id";
         propagatedBinding comments "user_id"], []).
Proof. vm_compute. reflexivity. Qed.

(** C4. The code at the failing input: orders is referenced by order_items,
    whose foreign key column is its primary key, and by shipments, whose
    foreign key column is not in its primary key. The end-to-end test is
    made on the table the edges leave, not on the edge, so on the second
    level the transformer is propagated to shipments.order_id as well. When
    shipments is the only table that references orders, nothing is
    propagated on the second level. *)
Theorem C4_propagation_to_sibling :
  slicesContains (PrimaryKey shipments) "order_id" = false /\
  isEndToEndPKFK graph_shop_shipments orders = Ok true /\
  getRefTables 10 users cfg_users graph_shop_shipments [cfg_users] =
    Ok ([propagatedBinding orders "user_id"; propagatedBinding order_items "order_id";
         propagatedBinding shipments "order_id"; propagatedBinding comments "user_id"], []) /\
  getRefTables 10 users cfg_users graph_shop_only_shipments [cfg_users] =
    Ok ([propagatedBinding orders "user_id"; propagatedBinding comments "user_id"], []).
Proof. repeat split; vm_compute; reflexivity. Qed.

End ConfigBuilderFacts.

(** ** More of the SQL fragment builder *)

Module SubsetMoreFacts.
Import GoStrings GoStringsFacts Toolkit Entries Subset SubsetJoins Fixtures SubsetFacts.

(** X1. Whatever the name, [shorten] yields an identifier of at most 63
    bytes, and shortening an identifier that was shortened before changes
    nothing. *)
Theorem shorten_fits_and_stable (name : string) :
  String.length (shorten name) <= 63 /\ shorten (shorten name) = shorten name.
Proof.
  assert (Hlen : String.length (shorten name) <= 63).
  { unfold shorten. destruct (String.length name <=? 63) eqn:E.
    - now apply Nat.leb_le.
    - simpl Nat.ltb. cbv iota.
      rewrite !length_append, length_hex, length_firstn, length_Sum. simpl String.length.
      pose proof (length_substring_le 0 40 name). lia. }
  split; [exact Hlen|].
  unfold shorten at 1. apply Nat.leb_le in Hlen. now rewrite Hlen.
Qed.

Lemma dedupe_acc (l : list string) (S : gset string) (out : list string) :
  (fold_left dedupeStep l (S, out)).2 = out ++ (fold_left dedupeStep l (S, [])).2.
Proof.
  revert S out. induction l as [|a l IH]; intros S out; cbn [fold_left].
  - simpl. now rewrite app_nil_r.
  - unfold dedupeStep at 2 4. cbn [fst snd].
    destruct (decide (a ∈ S)); [apply IH|].
    rewrite (IH _ (out ++ [a])), (IH _ ([] ++ [a])). now rewrite <- app_assoc.
Qed.

Lemma dedupe_members (l : list string) (S : gset string) (v : string) :
  v ∈ (fold_left dedupeStep l (S, [])).2 <-> v ∈ l /\ v ∉ S.
Proof.
  revert S. induction l as [|a l IH]; intros S; cbn [fold_left].
  - simpl. set_solver.
  - unfold dedupeStep at 2. cbn [fst snd].
    destruct (decide (a ∈ S)) as [Ha|Ha].
    + rewrite IH. set_solver.
    + rewrite dedupe_acc. cbn [app]. rewrite elem_of_cons, IH, elem_of_cons.
      destruct (decide (v = a)) as [->|Hne]; [tauto|]. set_solver.
Qed.

Lemma dedupe_skip (l : list string) (S : gset string) (x : string) :
  (fold_left dedupeStep l ({[x]} ∪ S, [])).2 =
  List.filter (fun w => negb (String.eqb w x)) (fold_left dedupeStep l (S, [])).2.
Proof.
  revert S. induction l as [|a l IH]; intros S; cbn [fold_left]; [reflexivity|].
  unfold dedupeStep at 2 4. cbn [fst snd].
  destruct (decide (a ∈ S)) as [Ha|Ha].
  - destruct (decide (a ∈ {[x]} ∪ S)) as [_|Hn]; [apply IH|set_solver].
  - destruct (decide (a ∈ {[x]} ∪ S)) as [Hin|Hn].
    + assert (a = x) by set_solver. subst a.
      rewrite (dedupe_acc l _ ([] ++ [x])). cbn [app List.filter].
      rewrite String.eqb_refl. cbn [negb].
      symmetry. apply forallb_filter_id, forallb_forall. intros w Hw.
      apply list_elem_of_In, dedupe_members in Hw as [_ Hw].
      apply negb_true_iff, String.eqb_neq. set_solver.
    + rewrite (dedupe_acc l _ ([] ++ [a])), (dedupe_acc l ({[a]} ∪ S) ([] ++ [a])).
      cbn [app List.filter].
      assert (En : String.eqb a x = false) by (apply String.eqb_neq; set_solver).
      rewrite En. cbn [negb]. f_equal.
      rewrite <- IH.
      replace ({[a]} ∪ ({[x]} ∪ S)) with ({[x]} ∪ ({[a]} ∪ S)); [reflexivity|].
      apply leibniz_equiv. set_solver.
Qed.

Lemma dedupeStrings_fold (values : list string) :
  dedupeStrings values = (fold_left dedupeStep values (∅, [])).2.
Proof.
  unfold dedupeStrings. destruct values as [|a [|b l]]; try reflexivity.
Qed.

Lemma dedupeStrings_cons (v : string) (rest : list string) :
  dedupeStrings (v :: rest) =
  v :: List.filter (fun w => negb (String.eqb w v)) (dedupeStrings rest).
Proof.
  rewrite !dedupeStrings_fold. cbn [fold_left]. unfold dedupeStep at 2. cbn [fst snd].
  destruct (decide (v ∈ (∅ : gset string))) as [H|_]; [set_solver|].
  rewrite dedupe_acc. cbn [app]. f_equal.
  rewrite <- dedupe_skip. reflexivity.
Qed.

(** X2. [dedupeStrings] returns a list without repetition that holds
    exactly the strings of its argument, in the order in which they are
    first seen: the head stays the head and the rest is the result for the
    tail with the head removed. It changes no list that is free of
    repetition, and applying it twice is applying it once. *)
Theorem dedupeStrings_first_seen (values : list string) :
  NoDup (dedupeStrings values) /\
  (forall v, v ∈ dedupeStrings values <-> v ∈ values) /\
  (forall v rest, values = v :: rest ->
     dedupeStrings values =
       v :: List.filter (fun w => negb (String.eqb w v)) (dedupeStrings rest)) /\
  (NoDup values -> dedupeStrings values = values) /\
  dedupeStrings (dedupeStrings values) = dedupeStrings values.
Proof.
  assert (Hmem : forall l v, v ∈ dedupeStrings l <-> v ∈ l).
  { intros l v. rewrite dedupeStrings_fold, dedupe_members. set_solver. }
  assert (Hnd : forall l, NoDup (dedupeStrings l)).
  { induction l as [|a l IH]; [constructor|].
    rewrite dedupeStrings_cons. apply NoDup_cons. split.
    - rewrite list_elem_of_In, filter_In, String.eqb_refl. simpl. intros [_ H]. discriminate H.
    - now apply NoDup_ListNoDup, List.NoDup_filter, NoDup_ListNoDup. }
  assert (Hid : forall l, NoDup l -> dedupeStrings l = l).
  { induction l as [|a l IH]; intros Hl; [reflexivity|].
    apply NoDup_cons in Hl as [Ha Hl]. rewrite dedupeStrings_cons, (IH Hl). f_equal.
    apply forallb_filter_id, forallb_forall. intros w Hw.
    apply negb_true_iff, String.eqb_neq. intros ->. apply Ha, list_elem_of_In, Hw. }
  split; [apply Hnd|]. split; [apply Hmem|]. split; [|split].
  - intros v rest ->. apply dedupeStrings_cons.
  - apply Hid.
  - apply Hid, Hnd.
Qed.


(** X3. Whatever is registered in the query holder and whatever the
    component, as long as [generateQuery] has one grouped cycle at most and
    a first cycle to read: the names of the listed CTEs are pairwise
    distinct; no CTE is listed under the ids name of a cycle table other
    than the target; and a registered name that is not such an ids name is
    listed with the body first registered under it. *)
Theorem generateQuery_with_list (calls : list (string * string)) (comp : Component)
    (t : Entries.Table) (cycle0 : list Edge) (rest : list (list Edge)) :
  length (groupedCycles comp) <= 1 ->
  cycles comp = cycle0 :: rest ->
  exists ctes,
    generateQuery (addItems calls (newCteQuery comp)) t =
      Ok ("WITH RECURSIVE " +:+ Join (map renderCte ctes) "," +:+ " " +:+
          (generateSelectAllColumns t +:+ " FROM " +:+ quoted (Schema t) +:+ "." +:+
           quoted (Name t) +:+ " WHERE (" +:+
           Join (map (columnRef t) (PrimaryKey t)) "," +:+
           ") IN (SELECT " +:+
           Join (map (fun key => quoted (idsName t) +:+ "." +:+ quoted key) (PrimaryKey t)) "," +:+
           " FROM " +:+ quoted (idsName t) +:+ ")")) /\
    List.NoDup (map item_name ctes) /\
    (forall e, In e cycle0 -> Oid (tl_table (edge_from e)) <> Oid t ->
       ~ In (idsName (tl_table (edge_from e))) (map item_name ctes)) /\
    (forall name body,
       firstBody name calls = Some body ->
       (forall e, In e cycle0 -> Oid (tl_table (edge_from e)) <> Oid t ->
          idsName (tl_table (edge_from e)) <> name) ->
       In (mkCteItem name body) ctes).
Proof.
  intros Hg Hc.
  set (c := addItems calls (newCteQuery comp)).
  assert (Hwf : cq_wf c) by apply addItems_wf, newCteQuery_wf.
  assert (Hcomp : cq_c c = comp) by apply addItems_component.
  pose (excluded :=
    map (fun e => idsName (tl_table (edge_from e)))
        (List.filter (fun e => negb (N.eqb (Oid (tl_table (edge_from e))) (Oid t))) cycle0)).
  assert (Hex : forall n, In n excluded <->
            exists e, In e cycle0 /\ Oid (tl_table (edge_from e)) <> Oid t /\
                      idsName (tl_table (edge_from e)) = n).
  { intros n. unfold excluded. rewrite in_map_iff. split.
    - intros (e & <- & He). apply filter_In in He as [He Hne].
      apply negb_true_iff, N.eqb_neq in Hne. eauto.
    - intros (e & He & Hne & <-). exists e. split; [reflexivity|].
      apply filter_In. split; [exact He|]. now apply negb_true_iff, N.eqb_neq. }
  pose (keep := fun it : cteItem => negb (slicesContains excluded (item_name it))).
  exists (List.filter keep (cq_items c)).
  split; [|split; [|split]].
  - apply (generateQuery_shape c t cycle0 rest); now rewrite Hcomp.
  - destruct Hwf as [_ Hd]. clear -Hd.
    induction (cq_items c) as [|i items IH]; [constructor|].
    simpl in *. inversion Hd; subst. destruct (keep i); simpl; auto.
    constructor; auto. intros Hi. apply H1.
    apply in_map_iff in Hi as (j & Hj & Hjin). apply filter_In in Hjin.
    apply in_map_iff. exists j. tauto.
  - intros e He Hne Hin. apply in_map_iff in Hin as (it & Hname & Hit).
    apply filter_In in Hit as [_ Hk]. unfold keep in Hk.
    apply negb_true_iff in Hk.
    assert (Hin : slicesContains excluded (item_name it) = true).
    { apply slicesContains_In, Hex. exists e. auto. }
    congruence.
  - intros name body Hfirst Hfree.
    apply filter_In. split.
    + apply addItems_firstBody; [apply newCteQuery_wf|simpl; tauto|exact Hfirst].
    + unfold keep. simpl. apply negb_true_iff.
      destruct (slicesContains excluded name) eqn:E; [|reflexivity].
      apply slicesContains_In, Hex in E as (e & He & Hne & Heq).
      exfalso. apply (Hfree e He Hne Heq).
Qed.

(** X3 at the two-table cycle with target [b]. *)
Lemma generateQuery_with_list_witness :
  exists ctes,
    generateQuery
      (addItems [("public__b__ids", body_b); ("public__a__ids", body_a);
                 ("public__a__ids", body_b)]
                (newCteQuery component_ab)) table_b =
      Ok ("WITH RECURSIVE " +:+ Join (map renderCte ctes) "," +:+ " " +:+
          (generateSelectAllColumns table_b +:+ " FROM " +:+ quoted (Schema table_b) +:+ "." +:+
           quoted (Name table_b) +:+ " WHERE (" +:+
           Join (map (columnRef table_b) (PrimaryKey table_b)) "," +:+
           ") IN (SELECT " +:+
           Join (map (fun key => quoted (idsName table_b) +:+ "." +:+ quoted key)
                     (PrimaryKey table_b)) "," +:+
           " FROM " +:+ quoted (idsName table_b) +:+ ")")) /\
    List.NoDup (map item_name ctes) /\
    ~ In "public__a__ids" (map item_name ctes) /\
    In (mkCteItem "public__b__ids" body_b) ctes.
Proof.
  destruct (generateQuery_with_list
              [("public__b__ids", body_b); ("public__a__ids", body_a);
               ("public__a__ids", body_b)]
              component_ab table_b [edge_a_b; edge_b_a] [])
    as (ctes & Hq & Hnd & Hex & Hin); [simpl; lia|reflexivity|].
  exists ctes. split; [exact Hq|]. split; [exact Hnd|]. split.
  - apply (Hex edge_a_b); [simpl; tauto|discriminate].
  - apply Hin; [reflexivity|].
    intros e [<-|[<-|[]]] Hne; [discriminate|exfalso; apply Hne; reflexivity].
Defined.

End SubsetMoreFacts.

(** ** Join clauses *)

Module JoinFacts.
Import GoStrings GoStringsFacts Toolkit Entries Subset SubsetJoins Fixtures.

Section Joins.
Variable GetKeyReference : Key -> Entries.Table -> string.

Lemma joinConds_spec (edge : Edge) (overridden : bool) (alias : string) (fromKeys : list Key) :
  forall (idx : nat) (conds : list string),
    joinConds GetKeyReference edge overridden alias idx fromKeys conds =
    if length fromKeys + idx <=? length (tl_keys (edge_to edge)) then
      Ok (conds ++
          map (fun p : Key * Key =>
                 GetKeyReference p.1 (tl_table (edge_from edge)) +:+ " = " +:+
                 (if overridden then quoted alias +:+ "." +:+ quoted (key_Name p.2)
                  else GetKeyReference p.2 (tl_table (edge_to edge))))
              (zip fromKeys (drop idx (tl_keys (edge_to edge)))))
    else if length fromKeys =? 0 then Ok conds
    else Panic (indexOutOfRange (Nat.max idx (length (tl_keys (edge_to edge))))
                  (length (tl_keys (edge_to edge)))).
Proof.
  induction fromKeys as [|key rest IH]; intros idx conds; cbn [joinConds].
  - simpl. rewrite app_nil_r. now destruct (idx <=? _).
  - destruct (tl_keys (edge_to edge) !! idx) as [toKey|] eqn:E.
    + rewrite IH. pose proof (lookup_lt_Some _ _ _ E) as Hlt.
      cbn [length]. replace (S (length rest) + idx) with (length rest + S idx) by lia.
      destruct (length rest + S idx <=? length (tl_keys (edge_to edge))) eqn:Eb.
      * rewrite (drop_S _ _ _ E). cbn [zip zip_with map fst snd].
        rewrite <- app_assoc. reflexivity.
      * apply Nat.leb_gt in Eb.
        destruct rest as [|k2 rest]; [simpl in Eb; lia|].
        cbn [length Nat.eqb]. do 2 f_equal. lia.
    + apply lookup_ge_None in E. cbn [length].
      assert (Eb : (S (length rest) + idx <=? length (tl_keys (edge_to edge))) = false)
        by (apply Nat.leb_gt; lia).
      rewrite Eb. cbn [Nat.eqb]. do 2 f_equal. lia.
Qed.

Lemma droppedEdgeConds_spec (edge : Edge) (initTableName : string)
    (leftTableKeys : list string) (toKeys : list Key) :
  forall (idx : nat) (conds : list string),
    droppedEdgeConds GetKeyReference edge initTableName leftTableKeys idx toKeys conds =
    if length toKeys + idx <=? length leftTableKeys then
      Ok (conds ++
          map (fun p : string * Key =>
                 (quoted initTableName +:+ "." +:+ quoted p.1) +:+ " = " +:+
                 GetKeyReference p.2 (tl_table (edge_to edge)))
              (zip (drop idx leftTableKeys) toKeys))
    else if length toKeys =? 0 then Ok conds
    else Panic (indexOutOfRange (Nat.max idx (length leftTableKeys))
                  (length leftTableKeys)).
Proof.
  induction toKeys as [|key rest IH]; intros idx conds; cbn [droppedEdgeConds].
  - simpl. rewrite zip_with_nil_r, app_nil_r. now destruct (idx <=? _).
  - destruct (leftTableKeys !! idx) as [leftKey|] eqn:E.
    + rewrite IH. pose proof (lookup_lt_Some _ _ _ E) as Hlt.
      cbn [length]. replace (S (length rest) + idx) with (length rest + S idx) by lia.
      destruct (length rest + S idx <=? length leftTableKeys) eqn:Eb.
      * rewrite (drop_S _ _ _ E). cbn [zip zip_with map fst snd].
        rewrite <- app_assoc. reflexivity.
      * apply Nat.leb_gt in Eb.
        destruct rest as [|k2 rest]; [simpl in Eb; lia|].
        cbn [length Nat.eqb]. do 2 f_equal. lia.
    + apply lookup_ge_None in E. cbn [length].
      assert (Eb : (S (length rest) + idx <=? length leftTableKeys) = false)
        by (apply Nat.leb_gt; lia).
      rewrite Eb. cbn [Nat.eqb]. do 2 f_equal. lia.
Qed.

Lemma append_if_any (conds exprs : list string) :
  (if 0 <? length exprs then conds ++ exprs else conds) = conds ++ exprs.
Proof. destruct exprs; [now rewrite app_nil_r|reflexivity]. Qed.

Lemma length_droppedEdgeLeftKeys (edge : Edge) :
  length (droppedEdgeLeftKeys edge) = length (tl_keys (edge_from edge)).
Proof.
  unfold droppedEdgeLeftKeys.
  rewrite (fold_left_append_map
             (fun key => shorten (Schema (tl_table (edge_from edge)) +:+ "__" +:+
                                  Name (tl_table (edge_from edge)) +:+ "__" +:+ key_Name key))).
  simpl. apply length_map.
Qed.

(** X4. [generateJoinClauseV2] returns a clause exactly when the join type
    is INNER or LEFT and the referenced side of the edge has a key for every
    key of the referencing side. Any other join type panics with a message
    that names it; a left side with more keys than the right side panics
    with the index out of range of the runtime, at the first position the
    right side does not have. *)
Theorem generateJoinClauseV2_returns (edge : Edge) (joinType : string)
    (overriddenTables : gmap N string) (fromExprs toExprs : list string) :
  ((exists q, generateJoinClauseV2 GetKeyReference edge joinType overriddenTables
                fromExprs toExprs = Ok q) <->
   (joinType = "INNER" \/ joinType = "LEFT") /\
   length (tl_keys (edge_from edge)) <= length (tl_keys (edge_to edge))) /\
  (joinType <> "INNER" -> joinType <> "LEFT" ->
   generateJoinClauseV2 GetKeyReference edge joinType overriddenTables fromExprs toExprs =
     Panic ("invalid join type: " +:+ joinType)) /\
  (joinType = "INNER" \/ joinType = "LEFT" ->
   length (tl_keys (edge_to edge)) < length (tl_keys (edge_from edge)) ->
   generateJoinClauseV2 GetKeyReference edge joinType overriddenTables fromExprs toExprs =
     Panic (indexOutOfRange (length (tl_keys (edge_to edge)))
              (length (tl_keys (edge_to edge))))).
Proof.
  unfold generateJoinClauseV2, joinTypeInner, joinTypeLeft.
  destruct (String.eqb joinType "INNER") eqn:Ei; [apply String.eqb_eq in Ei|apply String.eqb_neq in Ei];
    (destruct (String.eqb joinType "LEFT") eqn:El; [apply String.eqb_eq in El|apply String.eqb_neq in El]);
    cbn [negb andb].
  4: { split; [|split].
       - split; [intros [q Hq]; discriminate Hq|intros [[H|H] _]; contradiction].
       - reflexivity.
       - intros [H|H]; contradiction. }
  all: rewrite joinConds_spec, Nat.add_0_r.
  all: destruct (length (tl_keys (edge_from edge)) <=? length (tl_keys (edge_to edge))) eqn:Eb;
    [apply Nat.leb_le in Eb|apply Nat.leb_gt in Eb].
  all: try (split; [|split];
            [ split; [intros _; split; [tauto|exact Eb]|intros _; eexists; reflexivity]
            | intros; contradiction
            | intros _ Hlt; lia ]).
  all: assert (E0 : (length (tl_keys (edge_from edge)) =? 0) = false) by (apply Nat.eqb_neq; lia);
    rewrite E0.
  all: split; [|split];
    [ split; [intros [q Hq]; discriminate Hq|intros [_ Hle]; lia]
    | intros; contradiction
    | intros _ _; rewrite Nat.max_0_l; reflexivity ].
Qed.

(** X5. The clause [generateJoinClauseV2] returns. When the right table is
    overridden by a CTE, the clause joins the CTE under the alias made of
    its name, [_e] and the number of the edge, compares every left key with
    the column of the same position under that alias, and does not repeat
    the subset conditions of the right table; otherwise it joins the right
    table itself and appends its subset conditions. The polymorphic
    expressions of both sides follow in either case. *)
Theorem generateJoinClauseV2_shape (edge : Edge) (joinType : string)
    (overriddenTables : gmap N string) (fromExprs toExprs : list string) (q : string) :
  generateJoinClauseV2 GetKeyReference edge joinType overriddenTables fromExprs toExprs = Ok q ->
  let leftTable := tl_table (edge_from edge) in
  let rightTable := tl_table (edge_to edge) in
  let pairs := zip (tl_keys (edge_from edge)) (tl_keys (edge_to edge)) in
  match overriddenTables !! Oid rightTable with
  | Some cte =>
      let alias := cte +:+ "_e" +:+ decimal (edge_id edge) in
      q = joinType +:+ " JOIN " +:+ (cte +:+ " AS " +:+ alias) +:+ " ON " +:+
          Join (map (fun p : Key * Key =>
                       GetKeyReference p.1 leftTable +:+ " = " +:+
                       (quoted alias +:+ "." +:+ quoted (key_Name p.2))) pairs
                ++ fromExprs ++ toExprs) " AND "
  | None =>
      q = joinType +:+ " JOIN " +:+
          (quoted (Schema rightTable) +:+ "." +:+ quoted (Name rightTable)) +:+ " ON " +:+
          Join (map (fun p : Key * Key =>
                       GetKeyReference p.1 leftTable +:+ " = " +:+
                       GetKeyReference p.2 rightTable) pairs
                ++ SubsetConds rightTable ++ fromExprs ++ toExprs) " AND "
  end.
Proof.
  intros Hq. cbv zeta.
  unfold generateJoinClauseV2 in Hq.
  destruct (negb (String.eqb joinType joinTypeInner) && negb (String.eqb joinType joinTypeLeft));
    [discriminate Hq|].
  rewrite joinConds_spec, Nat.add_0_r in Hq. cbn [drop] in Hq.
  destruct (length (tl_keys (edge_from edge)) <=? length (tl_keys (edge_to edge))) eqn:Eb.
  - destruct (overriddenTables !! Oid (tl_table (edge_to edge))) as [cte|] eqn:Eo.
    + assert (Eis : bool_decide (is_Some (Some cte)) = true) by (apply bool_decide_eq_true; eauto).
      rewrite Eis in Hq. cbn [mbind result_mbind result_bind negb andb default] in Hq.
      rewrite !append_if_any in Hq. cbn [app] in Hq.
      injection Hq as <-. rewrite <- app_assoc. reflexivity.
    + assert (Eis : bool_decide (is_Some (@None string)) = false)
        by (apply bool_decide_eq_false; intros [x Hx]; discriminate Hx).
      rewrite Eis in Hq. cbn [mbind result_mbind result_bind negb andb default] in Hq.
      rewrite !append_if_any in Hq.
      injection Hq as <-. rewrite <- !app_assoc. reflexivity.
  - apply Nat.leb_gt in Eb.
    assert (E0 : (length (tl_keys (edge_from edge)) =? 0) = false) by (apply Nat.eqb_neq; lia).
    rewrite E0 in Hq. discriminate Hq.
Qed.

(** X6. [generateJoinClauseForDroppedEdge] returns a clause exactly when
    the left side of the edge has a key for every key of the right side,
    and panics with the index out of range of the runtime, at the first
    position the left side does not have, otherwise. The clause compares,
    position by position, the column of the initial table named after the
    left key (schema, table and key joined by two underscores, shortened)
    with the key of the right table; every such column name is at most 63
    bytes long. *)
Theorem generateJoinClauseForDroppedEdge_spec (edge : Edge) (initTableName : string)
    (fromExprs toExprs : list string) :
  let left := tl_table (edge_from edge) in
  let right := tl_table (edge_to edge) in
  let leftNames :=
    map (fun key => shorten (Schema left +:+ "__" +:+ Name left +:+ "__" +:+ key_Name key))
        (tl_keys (edge_from edge)) in
  Forall (fun n => String.length n <= 63) leftNames /\
  generateJoinClauseForDroppedEdge GetKeyReference edge initTableName fromExprs toExprs =
    if length (tl_keys (edge_to edge)) <=? length (tl_keys (edge_from edge)) then
      Ok ("JOIN " +:+ (quoted (Schema right) +:+ "." +:+ quoted (Name right)) +:+ " ON " +:+
          Join (map (fun p : string * Key =>
                       (quoted initTableName +:+ "." +:+ quoted p.1) +:+ " = " +:+
                       GetKeyReference p.2 right)
                    (zip leftNames (tl_keys (edge_to edge)))
                ++ fromExprs ++ toExprs) " AND ")
    else Panic (indexOutOfRange (length (tl_keys (edge_from edge)))
                  (length (tl_keys (edge_from edge)))).
Proof.
  cbv zeta. split.
  - apply Forall_forall. intros n Hn. apply list_elem_of_In, in_map_iff in Hn as (k & <- & _).
    unfold shorten.
    destruct (String.length _ <=? 63) eqn:E; [now apply Nat.leb_le|].
    simpl Nat.ltb. cbv iota.
    rewrite !length_append, SubsetFacts.length_hex, length_firstn, SubsetFacts.length_Sum.
    simpl String.length.
    match goal with |- String.length (substring 0 40 ?s) + _ <= _ =>
      pose proof (length_substring_le 0 40 s) end. lia.
  - unfold generateJoinClauseForDroppedEdge.
    rewrite droppedEdgeConds_spec, Nat.add_0_r, length_droppedEdgeLeftKeys. cbn [drop].
    destruct (length (tl_keys (edge_to edge)) <=? length (tl_keys (edge_from edge))) eqn:Eb.
    + cbn [mbind result_mbind result_bind]. rewrite !append_if_any. cbn [app].
      unfold droppedEdgeLeftKeys.
      rewrite (fold_left_append_map
                 (fun key => shorten (Schema (tl_table (edge_from edge)) +:+ "__" +:+
                                      Name (tl_table (edge_from edge)) +:+ "__" +:+ key_Name key))).
      cbn [app]. rewrite <- app_assoc. reflexivity.
    + apply Nat.leb_gt in Eb.
      assert (E0 : (length (tl_keys (edge_to edge)) =? 0) = false) by (apply Nat.eqb_neq; lia).
      rewrite E0, Nat.max_0_l. reflexivity.
Qed.

End Joins.

(** X4 at the edge from [a] to [b]. *)
Lemma generateJoinClauseV2_returns_witness :
  (exists q, generateJoinClauseV2 keyReference edge_a_b "LEFT" ∅ [] [] = Ok q) /\
  generateJoinClauseV2 keyReference edge_a_b "FULL" ∅ [] [] =
    Panic "invalid join type: FULL".
Proof.
  destruct (generateJoinClauseV2_returns keyReference edge_a_b "LEFT" ∅ [] [])
    as (Hiff & _ & _).
  destruct (generateJoinClauseV2_returns keyReference edge_a_b "FULL" ∅ [] [])
    as (_ & Hbad & _).
  split.
  - apply Hiff. split; [right; reflexivity|simpl; lia].
  - apply Hbad; intros H; discriminate H.
Defined.

(** X5 at the edge from [a] to [b] when [b] is overridden by its ids
    CTE. *)
Lemma generateJoinClauseV2_shape_witness :
  let q := "INNER JOIN public__b__ids AS public__b__ids_e0 ON " +:+
           columnRef table_a "b_id" +:+ " = " +:+
           quoted "public__b__ids_e0" +:+ "." +:+ quoted "id" in
  generateJoinClauseV2 keyReference edge_a_b "INNER" (<[2%N := "public__b__ids"]> ∅)
    [] [] = Ok q /\
  q = "INNER" +:+ " JOIN " +:+ ("public__b__ids" +:+ " AS " +:+ "public__b__ids_e0") +:+
      " ON " +:+
      Join [keyReference (mkKey "b_id") table_a +:+ " = " +:+
            (quoted "public__b__ids_e0" +:+ "." +:+ quoted "id")] " AND ".
Proof.
  intros q.
  assert (E : generateJoinClauseV2 keyReference edge_a_b "INNER"
                (<[2%N := "public__b__ids"]> ∅) [] [] = Ok q)
    by (vm_compute; reflexivity).
  split; [exact E|].
  exact (generateJoinClauseV2_shape keyReference edge_a_b "INNER"
           (<[2%N := "public__b__ids"]> ∅) [] [] q E).
Defined.

End JoinFacts.

(** ** The WITH clause and the iteration order of maps *)

Module VisitingFacts.
Import GoStrings Subset SubsetSpec SubsetVisiting WithClauseFacts Fixtures.

Lemma kahnLoopVisiting_eq (cteDefs : gmap string string) (fuel : nat) :
  forall (orders : list (list string)) (st : depState) (zero ordered : list string),
    kahnInv cteDefs st zero ordered ->
    length (cteNames cteDefs) <= fuel + length ordered ->
    length (cteNames cteDefs) <= length orders + length ordered ->
    Forall (fun keys => keys ≡ₚ cteNames cteDefs) orders ->
    kahnLoopVisiting orders st zero ordered =
    kahnLoop fuel (cteNames cteDefs) st zero ordered.
Proof.
  induction fuel as [|fuel IH]; intros orders st zero ordered Hinv Hfuel Hlen Hperm.
  - destruct zero as [|n zero]; [now destruct orders|].
    apply kahnInv_length in Hinv. rewrite length_app in Hinv. simpl in *. lia.
  - destruct zero as [|n zero]; [now destruct orders|].
    destruct orders as [|keys orders].
    { apply kahnInv_length in Hinv. rewrite length_app in Hinv. simpl in *. lia. }
    cbn [kahnLoopVisiting kahnLoop].
    apply Forall_cons in Hperm as [Hkeys Hperm].
    assert (Hsorted : StronglySorted String.le zero).
    { pose proof (ki_sorted _ _ _ _ Hinv) as Hs. now inversion Hs. }
    assert (Eq : fold_left (relaxOne n) keys (st, zero) =
                 fold_left (relaxOne n) (cteNames cteDefs) (st, zero)).
    { destruct st as [d i]. apply relax_order_irrelevant;
        [rewrite Hkeys; apply names_NoDup|exact Hkeys|exact Hsorted]. }
    rewrite Eq.
    destruct (kahn_step cteDefs st n zero ordered Hinv) as (st' & zero' & E & Hinv').
    rewrite E. apply IH; [exact Hinv'| | |exact Hperm]; rewrite length_app; simpl in *; lia.
Qed.

(** X7. The WITH clause does not depend on the order in which the range
    over the map [dependsOn] visits its keys: whatever order each iteration
    of the main loop takes, as long as it visits every key once, the clause
    is the one obtained by visiting the keys in alphabetical order. *)
Theorem buildWithClause_iteration_order (cteDefs : gmap string string)
    (orders : list (list string)) :
  size cteDefs <= length orders ->
  Forall (fun keys => keys ≡ₚ cteNames cteDefs) orders ->
  buildWithClauseVisiting orders cteDefs = buildWithClause cteDefs.
Proof.
  intros Hlen Hperm.
  unfold buildWithClauseVisiting, buildWithClause, cteOrderVisiting, cteOrder. cbv zeta.
  rewrite (kahnLoopVisiting_eq cteDefs (length (cteNames cteDefs)));
    [reflexivity|apply kahn_init|simpl; lia| |exact Hperm].
  rewrite names_length. simpl. lia.
Qed.

(** X7 at three CTEs and three different visiting orders. *)
Lemma buildWithClause_iteration_order_witness :
  buildWithClauseVisiting [["z"; "a"; "b"]; ["b"; "z"; "a"]; ["z"; "b"; "a"]] ctes_ties =
  buildWithClause ctes_ties.
Proof.
  apply buildWithClause_iteration_order; [vm_compute; lia|].
  assert (En : cteNames ctes_ties = ["a"; "b"; "z"]) by (vm_compute; reflexivity).
  rewrite En. repeat apply Forall_cons_2; try apply Forall_nil_2;
    match goal with |- ?a ≡ₚ ?b =>
      apply (bool_decide_unpack (a ≡ₚ b)); vm_compute; exact I end.
Defined.

End VisitingFacts.

(** ** Reference propagation: the registry check and the walk *)

Module ReferenceFacts.
Import GoStrings GoStringsFacts Toolkit Entries Subset Domains Registry Transformers.
Import ConfigBuilder ConfigBuilderSpec ReferenceTerms Fixtures MoreFixtures ConfigBuilderFacts.

Lemma checkWarningsOf_cases (r : TransformerRegistry) (tr : TransformerConfig) :
  (checkWarningsOf r tr = [] /\
   (tr_ApplyForReferences tr = true -> meetsReferenceRequirements r tr)) \/
  (exists w, checkWarningsOf r tr = [w] /\
             w_Severity w = ErrorValidationSeverity /\
             w_Meta w !! "TransformerName" = Some (tr_Name tr) /\
             tr_ApplyForReferences tr = true /\
             ~ meetsReferenceRequirements r tr).
Proof.
  unfold checkWarningsOf, isTransformerAllowedToApplyForReferences, meetsReferenceRequirements.
  destruct (tr_ApplyForReferences tr) eqn:Hm; cbn [negb].
  2: { left. split; [reflexivity|intros H; discriminate H]. }
  destruct (r !! tr_Name tr) as [td|] eqn:Hr.
  2: { right. eexists. split; [reflexivity|]. split; [reflexivity|].
       split; [apply lookup_insert_eq|]. split; [reflexivity|].
       intros (td & Htd & _). discriminate Htd. }
  destruct (td_Meta td !! AllowApplyForReferenced) as [[|]|] eqn:Ha.
  2,3: right; eexists; split; [reflexivity|]; split; [reflexivity|];
       split; [apply lookup_insert_eq|]; split; [reflexivity|];
       intros (td' & Htd & Ha' & _); injection Htd as <-; rewrite Ha in Ha'; discriminate Ha'.
  destruct (td_Meta td !! RequireHashEngineParameter) as [[|]|] eqn:Hq.
  - destruct (String.eqb (param tr engineParameterName) HashEngineParameterName) eqn:He;
      cbn [negb].
    + left. split; [reflexivity|]. intros _. exists td. repeat split; auto.
      intros _. now apply String.eqb_eq.
    + right. eexists. split; [reflexivity|]. split; [reflexivity|].
      split; [apply lookup_insert_eq|]. split; [reflexivity|].
      intros (td' & Htd & _ & Hq'). injection Htd as <-.
      apply String.eqb_neq in He. apply He, Hq', Hq.
  - left. split; [reflexivity|]. intros _. exists td. repeat split; auto.
    intros H. rewrite Hq in H. discriminate H.
  - left. split; [reflexivity|]. intros _. exists td. repeat split; auto.
    intros H. rewrite Hq in H. discriminate H.
Qed.

(** X8. [checkApplyForReferenceMetRequirements] passes exactly when every
    transformer of the table that is marked apply_for_references is
    registered, allows references and, if its definition requires the hash
    engine, has the engine parameter hash; a definition without the
    RequireHashEngineParameter entry does not stand in the way. It passes
    exactly when it returns no warning; there is one warning per marked
    transformer that fails, of severity error and naming the transformer. *)
Theorem checkApplyForReferenceMetRequirements_passes (tcm : tableConfigMapping)
    (r : TransformerRegistry) :
  let ok := (checkApplyForReferenceMetRequirements tcm r).1 in
  let ws := (checkApplyForReferenceMetRequirements tcm r).2 in
  (ok = true <->
   forall tr, In tr (cfg_Transformers (tcm_config tcm)) ->
              tr_ApplyForReferences tr = true -> meetsReferenceRequirements r tr) /\
  (ok = true <-> ws = []) /\
  (forall tr, In tr (cfg_Transformers (tcm_config tcm)) ->
     tr_ApplyForReferences tr = true -> ~ meetsReferenceRequirements r tr ->
     exists w, In w ws /\ w_Severity w = ErrorValidationSeverity /\
               w_Meta w !! "TransformerName" = Some (tr_Name tr)) /\
  (forall w, In w ws ->
     w_Severity w = ErrorValidationSeverity /\
     exists tr, In tr (cfg_Transformers (tcm_config tcm)) /\
                tr_ApplyForReferences tr = true /\
                ~ meetsReferenceRequirements r tr /\
                w_Meta w !! "TransformerName" = Some (tr_Name tr)).
Proof.
  rewrite checkApplyForReferenceMetRequirements_eq. cbv zeta. cbn [fst snd].
  set (trs := cfg_Transformers (tcm_config tcm)).
  set (ws := flat_map (checkWarningsOf r) trs).
  assert (Hall : forall w, In w ws ->
            w_Severity w = ErrorValidationSeverity /\
            exists tr, In tr trs /\ tr_ApplyForReferences tr = true /\
                       ~ meetsReferenceRequirements r tr /\
                       w_Meta w !! "TransformerName" = Some (tr_Name tr)).
  { intros w Hw. apply in_flat_map in Hw as (tr & Htr & Hw).
    destruct (checkWarningsOf_cases r tr) as [[E _]|(w' & E & Hsev & Hmeta & Hm & Hno)];
      rewrite E in Hw; [contradiction|].
    destruct Hw as [<-|[]]. split; [exact Hsev|]. exists tr. auto. }
  assert (Hfail : forall tr, In tr trs -> tr_ApplyForReferences tr = true ->
            ~ meetsReferenceRequirements r tr ->
            exists w, In w ws /\ w_Severity w = ErrorValidationSeverity /\
                      w_Meta w !! "TransformerName" = Some (tr_Name tr)).
  { intros tr Htr Hm Hno.
    destruct (checkWarningsOf_cases r tr) as [[_ H]|(w & E & Hsev & Hmeta & _)];
      [exfalso; apply Hno, H, Hm|].
    exists w. split; [|auto]. apply in_flat_map. exists tr. split; [exact Htr|].
    rewrite E. now left. }
  assert (Hfatal : negb (IsFatal ws) = true <-> ws = []).
  { split.
    - intros H. destruct ws as [|w ws'] eqn:Ews; [reflexivity|].
      destruct (Hall w (or_introl eq_refl)) as [Hsev _].
      unfold IsFatal in H. cbn [existsb] in H. rewrite Hsev in H. discriminate H.
    - intros ->. reflexivity. }
  split; [|split; [exact Hfatal|split; [exact Hfail|exact Hall]]].
  rewrite Hfatal. split.
  - intros Hnil tr Htr Hm.
    destruct (checkWarningsOf_cases r tr) as [[_ H]|(w & E & _)]; [now apply H|].
    assert (Hin : In w ws) by (apply in_flat_map; exists tr; rewrite E; split; [exact Htr|now left]).
    rewrite Hnil in Hin. contradiction.
  - intros Hmeet. destruct ws as [|w ws'] eqn:Ews; [reflexivity|].
    destruct (Hall w (or_introl eq_refl)) as [_ (tr & Htr & Hm & Hno & _)].
    exfalso. apply Hno, Hmeet; assumption.
Qed.

(** *** Invariants of the reference walk *)

Section WalkInvariant.
Variables (rootTableCfg : Domains.Table) (rootTrans : list transformersMapping).
Variables (graph : Graph) (allTrans : list Domains.Table).
Variable I : list tableConfigMapping -> Prop.
Hypothesis Hstep : forall r rootTr st st',
  In rootTr rootTrans ->
  processRootTransformer r rootTableCfg allTrans st rootTr = Ok st' ->
  I st.1 -> I st'.1.

Lemma processReferenceLoop_inv (r : Edge) (rts : list transformersMapping) :
  incl rts rootTrans ->
  forall st st',
    processReferenceLoop r rootTableCfg allTrans rts st = Ok st' -> I st.1 -> I st'.1.
Proof.
  induction rts as [|rootTr rts IH]; intros Hincl st st' H Hi.
  - inversion H; subst. exact Hi.
  - cbn [processReferenceLoop] in H.
    destruct (processRootTransformer r rootTableCfg allTrans st rootTr) as [st1| |] eqn:E;
      try discriminate H.
    apply (IH (fun x Hx => Hincl x (or_intror Hx)) st1 st' H).
    apply (Hstep r rootTr st st1); [apply Hincl; now left|exact E|exact Hi].
Qed.

Lemma walkEdges_inv
    (recurse : Entries.Table -> list tableConfigMapping -> result walkState)
    (checkEndToEnd : bool) :
  (forall t res st', recurse t res = Ok st' -> I res -> I st'.1) ->
  forall edges st st',
    walkEdges recurse rootTableCfg rootTrans graph allTrans checkEndToEnd edges st = Ok st' ->
    I st.1 -> I st'.1.
Proof.
  intros Hrec. induction edges as [|r edges IH]; intros [res ws] st' H Hi.
  - inversion H; subst. exact Hi.
  - cbn [walkEdges] in H.
    destruct (isEndToEnd_skip_cases graph checkEndToEnd r) as [E|[E|E]].
    + rewrite E in H. simpl in H. apply (IH _ _ H Hi).
    + rewrite E in H. cbn [mbind result_mbind result_bind] in H.
      destruct (processReference r rootTableCfg rootTrans allTrans res)
        as [[res1 ws1]| |] eqn:E1; try discriminate H.
      cbn [mbind result_mbind result_bind] in H.
      destruct (recurse (tl_table (edge_to r)) res1) as [[res2 ws2]| |] eqn:E2;
        try discriminate H.
      cbn [mbind result_mbind result_bind] in H.
      apply (IH _ _ H). simpl.
      apply (Hrec _ _ _ E2).
      apply (processReferenceLoop_inv r rootTrans (fun x Hx => Hx) _ _ E1 Hi).
    + exfalso.
      destruct (if checkEndToEnd then _ else _) as [b| |] eqn:Eb;
        [now apply (E b)|discriminate H|discriminate H].
Qed.

Lemma buildRefsWithEndToEndDfs_inv (fuel : nat) :
  forall table res checkEndToEnd st',
    buildRefsWithEndToEndDfs fuel table rootTableCfg rootTrans graph allTrans res
      checkEndToEnd = Ok st' ->
    I res -> I st'.1.
Proof.
  induction fuel as [|fuel IH]; intros table res checkEndToEnd st' H Hi;
    [discriminate H|].
  cbn [buildRefsWithEndToEndDfs] in H.
  destruct (findTableIndex graph table) as [idx|].
  - destruct (graph_reversed graph !! idx) as [edges|]; [|discriminate H].
    eapply walkEdges_inv; [|exact H|exact Hi].
    intros t res0 st0 H0. apply (IH _ _ _ _ H0).
  - inversion H; subst. exact Hi.
Qed.

End WalkInvariant.

Lemma map_alter_same {A B} (f : A -> B) (g : A -> A) (l : list A) (i : nat) :
  (forall x, f (g x) = f x) -> map f (alter g i l) = map f l.
Proof.
  intros Hfg. revert i. induction l as [|a l IH]; intros [|i]; simpl; try reflexivity.
  - now rewrite Hfg.
  - f_equal. apply IH.
Qed.

Lemma alter_In_inv {A} (g : A -> A) (l : list A) (i : nat) (y : A) :
  In y (alter g i l) -> In y l \/ exists x, l !! i = Some x /\ y = g x.
Proof.
  revert i. induction l as [|a l IH]; intros [|i] Hy; simpl in *; try contradiction.
  - destruct Hy as [<-|Hy]; [right; eauto|left; now right].
  - destruct Hy as [<-|Hy]; [left; now left|].
    destruct (IH i Hy) as [H|H]; [left; now right|right; exact H].
Qed.

Lemma addTransformer_wf (rootTrans : list transformersMapping)
    (allTrans : list Domains.Table) (r : Edge) (trConf : TransformerConfig)
    (o : gmap string string) (res : list tableConfigMapping) :
  cloneFor rootTrans allTrans (tl_table (edge_to r)) trConf ->
  refBindingsWf rootTrans allTrans res ->
  refBindingsWf rootTrans allTrans (addTransformerToReferenceTable r trConf o res).
Proof.
  intros Hclone [Hnd Hcfg Hcl]. unfold addTransformerToReferenceTable.
  destruct (IndexFunc res _) as [idx|] eqn:E.
  - apply IndexFunc_Some in E as (x & Hx & Hp & _).
    apply andb_true_iff in Hp as [Hn Hs].
    apply String.eqb_eq in Hn. apply String.eqb_eq in Hs.
    assert (Hxin : In x res) by (apply list_elem_of_In; eapply list_elem_of_lookup_2; exact Hx).
    constructor.
    + rewrite (map_alter_same bindingKey _ res idx); [exact Hnd|reflexivity].
    + intros tcm Htcm. apply alter_In_inv in Htcm as [Htcm|(x' & Hx' & ->)].
      * now apply Hcfg.
      * rewrite Hx in Hx'. injection Hx' as <-. simpl.
        destruct (Hcfg x Hxin) as (H1 & H2 & H3 & _). repeat split; auto.
        intros Habs. apply app_eq_nil in Habs as [_ Habs]. discriminate Habs.
    + intros tcm tr Htcm Htr. apply alter_In_inv in Htcm as [Htcm|(x' & Hx' & ->)].
      * now apply (Hcl tcm).
      * rewrite Hx in Hx'. injection Hx' as <-. simpl in Htr |- *.
        apply in_app_or in Htr as [Htr|[<-|[]]]; [now apply (Hcl x)|].
        destruct Hclone as (rootTr & refCol & H1 & H2 & H3).
        exists rootTr, refCol. rewrite Hs, Hn. auto.
  - pose proof (IndexFunc_None _ _ E) as Hnone. constructor.
    + rewrite map_app. simpl. apply NoDup_ListNoDup, NoDup_app. repeat split.
      * now apply NoDup_ListNoDup.
      * intros k Hk Hk'. apply list_elem_of_In in Hk. apply list_elem_of_In in Hk'.
        destruct Hk' as [<-|[]]. apply in_map_iff in Hk as (x & Hkey & Hx).
        specialize (Hnone x Hx). unfold bindingKey in Hkey. simpl in Hkey.
        injection Hkey as Hs Hn. cbv beta in Hnone.
        rewrite Hs, Hn, !String.eqb_refl in Hnone.
        discriminate Hnone.
      * apply NoDup_singleton.
    + intros tcm Htcm. apply in_app_or in Htcm as [Htcm|[<-|[]]]; [now apply Hcfg|].
      simpl. repeat split; auto.
    + intros tcm tr Htcm Htr. apply in_app_or in Htcm as [Htcm|[<-|[]]];
        [now apply (Hcl tcm)|].
      simpl in Htr |- *. destruct Htr as [<-|[]]. exact Hclone.
Qed.

Lemma processRootTransformer_wf (rootTableCfg : Domains.Table)
    (rootTrans : list transformersMapping) (allTrans : list Domains.Table)
    (r : Edge) (rootTr : transformersMapping) (st st' : walkState) :
  In rootTr rootTrans ->
  processRootTransformer r rootTableCfg allTrans st rootTr = Ok st' ->
  refBindingsWf rootTrans allTrans st.1 -> refBindingsWf rootTrans allTrans st'.1.
Proof.
  intros Hin. destruct st as [res ws]. unfold processRootTransformer. simpl.
  destruct (tl_keys (edge_to r) !! tm_attNum rootTr) as [key|]; [|intros H; discriminate H].
  destruct (checkTransformerAlreadyExists _ _ _ _ _) eqn:Ec; intros H; inversion H; subst; simpl.
  - auto.
  - apply addTransformer_wf. exists rootTr, (key_Name key). auto.
Qed.

Lemma getRefTables_wf (fuel : nat) (rootTable : Entries.Table)
    (rootTableCfg : Domains.Table) (graph : Graph) (allTrans : list Domains.Table)
    (res : list tableConfigMapping) (ws : ValidationWarnings) :
  getRefTables fuel rootTable rootTableCfg graph allTrans = Ok (res, ws) ->
  refBindingsWf (collectRootTransformers rootTable rootTableCfg) allTrans res.
Proof.
  intros H. unfold getRefTables in H.
  apply (buildRefsWithEndToEndDfs_inv rootTableCfg
           (collectRootTransformers rootTable rootTableCfg) graph allTrans
           (refBindingsWf (collectRootTransformers rootTable rootTableCfg) allTrans)
           (fun r rootTr st st' Hin => processRootTransformer_wf _ _ _ r rootTr st st' Hin)
           fuel _ _ _ _ H).
  constructor; simpl; [constructor|intros ? []|intros ? ? []].
Qed.

Lemma param_clone_column (rootTr : transformersMapping) (refCol : string) :
  param (cloneTransformer rootTr refCol) columnParameterName = refCol.
Proof. unfold param, cloneTransformer, columnParameterName. simpl. now rewrite lookup_insert_eq. Qed.

Lemma param_clone_engine (rootTr : transformersMapping) (refCol : string) :
  param (cloneTransformer rootTr refCol) engineParameterName =
  param (tm_cfg rootTr) engineParameterName.
Proof.
  unfold param, cloneTransformer, engineParameterName. simpl.
  rewrite lookup_insert_ne; [reflexivity|]. intros H. discriminate H.
Qed.

(** X9. Propagation leaves alone what the config gives under the very
    name of the table: when a config entry has exactly the schema and the
    name of a table, no transformer in the result of [getRefTables] for that
    table has the name and the column of a transformer of that entry. *)
Theorem getRefTables_respects_config (fuel : nat) (rootTable : Entries.Table)
    (rootTableCfg : Domains.Table) (graph : Graph) (allTrans : list Domains.Table)
    (res : list tableConfigMapping) (ws : ValidationWarnings) :
  getRefTables fuel rootTable rootTableCfg graph allTrans = Ok (res, ws) ->
  forall tcm tr c manual,
    In tcm res -> In tr (cfg_Transformers (tcm_config tcm)) ->
    In c allTrans ->
    cfg_Schema c = Schema (tcm_entry tcm) ->
    cfg_Name c = Name (tcm_entry tcm) ->
    In manual (cfg_Transformers c) ->
    tr_Name manual = tr_Name tr ->
    param manual columnParameterName <> param tr columnParameterName.
Proof.
  intros H tcm tr c manual Htcm Htr Hc Hschema Hname Hmanual Hsame Hcol.
  apply getRefTables_wf in H.
  destruct (rb_clones _ _ _ H tcm tr Htcm Htr) as (rootTr & refCol & _ & -> & Hnone).
  rewrite param_clone_column in Hcol.
  cbn [cloneTransformer tr_Name] in Hsame.
  unfold checkTransformerAlreadyExists in Hnone.
  assert (Hyes : existsb
            (fun c =>
               String.eqb (cfg_Name c) (Name (tcm_entry tcm)) &&
               String.eqb (cfg_Schema c) (Schema (tcm_entry tcm)) &&
               existsb (fun tr => String.eqb (tr_Name tr) (tr_Name (tm_cfg rootTr)) &&
                                  String.eqb (param tr columnParameterName) refCol)
                       (cfg_Transformers c))
            allTrans = true).
  { apply existsb_exists. exists c. split; [exact Hc|].
    rewrite Hname, Hschema, !String.eqb_refl. cbn [andb].
    apply existsb_exists. exists manual. split; [exact Hmanual|].
    rewrite Hsame, Hcol, !String.eqb_refl. reflexivity. }
  rewrite Hyes in Hnone. discriminate Hnone.
Qed.

(** The test behind X9 compares the names as they are, whereas a config is
    bound to a table also when the name of the table is the name in the
    config wrapped in double quotes.  For such a table the config does not
    stop the propagation: the table ends up bound twice, to the clone of
    the Hash transformer of [users] on [user_id] and to the Hash
    transformer the config gives that column. *)
Lemma quoted_table_is_bound_twice :
  findTablesWithTransformers [cfg_users; cfg_orders_manual] [users; orders_quoted] =
    [mkTcm users cfg_users; mkTcm orders_quoted cfg_orders_manual] /\
  setConfigToEntries noPartitions 10 [cfg_users; cfg_orders_manual]
    [users; orders_quoted] graph_quoted registry_std =
    Ok ([propagatedBinding orders_quoted "user_id"; mkTcm users cfg_users;
         mkTcm orders_quoted cfg_orders_manual], [], None).
Proof. split; vm_compute; reflexivity. Qed.

(** X10. Only eligible transformers are propagated: every transformer in
    the result of [getRefTables] is the copy of a transformer of the root
    table that is marked apply_for_references, has the engine parameter
    hash and is set on a primary key column of the root table; the copy
    keeps the name, the mark and the engine, and differs in the column and
    in the condition only. *)
Theorem getRefTables_only_eligible (fuel : nat) (rootTable : Entries.Table)
    (rootTableCfg : Domains.Table) (graph : Graph) (allTrans : list Domains.Table)
    (res : list tableConfigMapping) (ws : ValidationWarnings) :
  getRefTables fuel rootTable rootTableCfg graph allTrans = Ok (res, ws) ->
  forall tcm tr,
    In tcm res -> In tr (cfg_Transformers (tcm_config tcm)) ->
    exists root,
      In root (cfg_Transformers rootTableCfg) /\
      tr_ApplyForReferences root = true /\
      param root engineParameterName = "hash" /\
      In (param root columnParameterName) (PrimaryKey rootTable) /\
      tr_Name tr = tr_Name root /\
      tr_ApplyForReferences tr = true /\
      param tr engineParameterName = "hash" /\
      forall k, k <> columnParameterName -> tr_Params tr !! k = tr_Params root !! k.
Proof.
  intros H tcm tr Htcm Htr. apply getRefTables_wf in H.
  destruct (rb_clones _ _ _ H tcm tr Htcm Htr) as (rootTr & refCol & Hroot & -> & _).
  rewrite collectRootTransformers_eq in Hroot.
  apply in_flat_map in Hroot as (root & Hin & Hroot).
  unfold rootTransformerOf in Hroot.
  destruct (tr_ApplyForReferences root) eqn:Hm; [|contradiction].
  destruct (String.eqb (param root engineParameterName) "hash") eqn:He; [|contradiction].
  cbn [negb orb] in Hroot.
  destruct (slicesIndex (PrimaryKey rootTable) (param root columnParameterName))
    as [idx|] eqn:Hidx; [|contradiction].
  destruct Hroot as [<-|[]]. apply String.eqb_eq in He.
  exists root. rewrite param_clone_engine. cbn [tm_cfg cloneTransformer tr_Name tr_ApplyForReferences tr_Params].
  repeat split; auto.
  - unfold slicesIndex in Hidx. apply IndexFunc_Some in Hidx as (x & Hx & Hp & _).
    apply String.eqb_eq in Hp. subst x.
    apply list_elem_of_In. eapply list_elem_of_lookup_2. exact Hx.
  - intros k Hk. apply lookup_insert_ne. intros Heq. apply Hk. now rewrite <- Heq.
Qed.

(** X11. The result of [getRefTables] binds every table once at most; the
    config of a binding names the table of the binding, is not marked
    apply_for_inherited and holds at least one transformer. *)
Theorem getRefTables_one_binding_per_table (fuel : nat) (rootTable : Entries.Table)
    (rootTableCfg : Domains.Table) (graph : Graph) (allTrans : list Domains.Table)
    (res : list tableConfigMapping) (ws : ValidationWarnings) :
  getRefTables fuel rootTable rootTableCfg graph allTrans = Ok (res, ws) ->
  List.NoDup (map bindingKey res) /\
  forall tcm, In tcm res ->
    cfg_Schema (tcm_config tcm) = Schema (tcm_entry tcm) /\
    cfg_Name (tcm_config tcm) = Name (tcm_entry tcm) /\
    cfg_ApplyForInherited (tcm_config tcm) = false /\
    cfg_Transformers (tcm_config tcm) <> [].
Proof.
  intros H. apply getRefTables_wf in H. split; [apply (rb_nodup _ _ _ H)|apply (rb_config _ _ _ H)].
Qed.

(** The reference walk of the shop schema when the config gives
    [comments.user_id] a transformer of its own. *)
Lemma shop_refs :
  getRefTables 10 users cfg_users graph_shop [cfg_users; cfg_comments_manual] =
    Ok ([propagatedBinding orders "user_id"; propagatedBinding order_items "order_id"], []).
Proof. vm_compute. reflexivity. Qed.

Lemma shop_refs_orders_own :
  getRefTables 10 users cfg_users graph_shop [cfg_users; cfg_orders_own] =
    Ok ([propagatedBinding orders "user_id"; propagatedBinding order_items "order_id";
         propagatedBinding comments "user_id"], []).
Proof. vm_compute. reflexivity. Qed.

(** X9 at the shop schema, where the config gives [orders.id] a Hash
    transformer: the clone bound to [orders] is on another column. *)
Lemma getRefTables_respects_config_witness :
  param (saltedHash "id") columnParameterName <>
  param (propagatedHash "user_id") columnParameterName.
Proof.
  exact (getRefTables_respects_config _ _ _ _ _ _ _ shop_refs_orders_own
           (propagatedBinding orders "user_id") (propagatedHash "user_id")
           cfg_orders_own (saltedHash "id")
           (or_introl eq_refl) (or_introl eq_refl) (or_intror (or_introl eq_refl))
           eq_refl eq_refl (or_introl eq_refl) eq_refl).
Defined.

(** X10 at the shop schema: the clone on [orders.user_id] copies the Hash
    transformer of [users.id]. *)
Lemma getRefTables_only_eligible_witness :
  exists root,
    In root (cfg_Transformers cfg_users) /\
    tr_ApplyForReferences root = true /\
    param root engineParameterName = "hash" /\
    In (param root columnParameterName) (PrimaryKey users) /\
    tr_Name (propagatedHash "user_id") = tr_Name root /\
    tr_ApplyForReferences (propagatedHash "user_id") = true /\
    param (propagatedHash "user_id") engineParameterName = "hash" /\
    forall k, k <> columnParameterName ->
              tr_Params (propagatedHash "user_id") !! k = tr_Params root !! k.
Proof.
  exact (getRefTables_only_eligible _ _ _ _ _ _ _ shop_refs
           (propagatedBinding orders "user_id") (propagatedHash "user_id")
           (or_introl eq_refl) (or_introl eq_refl)).
Defined.

(** X11 at the shop schema. *)
Lemma getRefTables_one_binding_per_table_witness :
  List.NoDup (map bindingKey
                [propagatedBinding orders "user_id"; propagatedBinding order_items "order_id"]) /\
  forall tcm,
    In tcm [propagatedBinding orders "user_id"; propagatedBinding order_items "order_id"] ->
    cfg_Schema (tcm_config tcm) = Schema (tcm_entry tcm) /\
    cfg_Name (tcm_config tcm) = Name (tcm_entry tcm) /\
    cfg_ApplyForInherited (tcm_config tcm) = false /\
    cfg_Transformers (tcm_config tcm) <> [].
Proof. exact (getRefTables_one_binding_per_table _ _ _ _ _ _ _ shop_refs). Defined.

End ReferenceFacts.

(** ** Bindings of configs to tables *)

Module BindingFacts.
Import GoStrings GoStringsFacts Toolkit Entries Subset Domains Registry Transformers.
Import ConfigBuilder ConfigBuilderSpec BindingTerms ExpansionTerms Fixtures.
Import ConfigBuilderFacts.

Lemma findTablesWithTransformers_eq (cfg : list Domains.Table) (tables : list Entries.Table) :
  findTablesWithTransformers cfg tables =
  flat_map (fun entry => match List.find (namesTable entry) cfg with
                         | Some c => [mkTcm entry c]
                         | None => []
                         end) tables.
Proof.
  unfold findTablesWithTransformers.
  assert (E : forall acc,
            fold_left
              (fun acc entry =>
                 match IndexFunc cfg (fun table =>
                         sameOrQuoted (cfg_Name table) (Name entry) &&
                         sameOrQuoted (cfg_Schema table) (Schema entry)) with
                 | Some idx =>
                     match cfg !! idx with
                     | Some c => acc ++ [mkTcm entry c]
                     | None => acc
                     end
                 | None => acc
                 end) tables acc =
            acc ++ flat_map (fun entry => match List.find (namesTable entry) cfg with
                                          | Some c => [mkTcm entry c]
                                          | None => []
                                          end) tables).
  { induction tables as [|entry tables IH]; intros acc; cbn [fold_left flat_map].
    - now rewrite app_nil_r.
    - rewrite IH. pose proof (IndexFunc_find cfg (namesTable entry)) as Hfind.
      unfold namesTable in Hfind at 1.
      destruct (IndexFunc cfg _) as [idx|]; rewrite <- Hfind.
      + destruct (cfg !! idx); [now rewrite <- app_assoc|reflexivity].
      + reflexivity. }
  apply (E []).
Qed.

(** X12. [findTablesWithTransformers] binds the tables that some config
    names, in the order of the tables, each once and each to the first
    config that names it; a table no config names gets no binding, and a
    config that names no table is passed over in silence. *)
Theorem findTablesWithTransformers_first_config (cfg : list Domains.Table)
    (tables : list Entries.Table) :
  map tcm_entry (findTablesWithTransformers cfg tables) =
    List.filter (fun entry => existsb (namesTable entry) cfg) tables /\
  (forall b, In b (findTablesWithTransformers cfg tables) ->
     List.find (namesTable (tcm_entry b)) cfg = Some (tcm_config b)) /\
  (forall entry c, In entry tables -> List.find (namesTable entry) cfg = Some c ->
     In (mkTcm entry c) (findTablesWithTransformers cfg tables)).
Proof.
  rewrite findTablesWithTransformers_eq. split; [|split].
  - induction tables as [|entry tables IH]; [reflexivity|].
    cbn [flat_map List.filter]. rewrite map_app, IH.
    destruct (List.find (namesTable entry) cfg) as [c|] eqn:E.
    + apply find_some in E as [Hin Hp].
      assert (Hex : existsb (namesTable entry) cfg = true)
        by (apply existsb_exists; eauto).
      rewrite Hex. reflexivity.
    + assert (Hex : existsb (namesTable entry) cfg = false).
      { destruct (existsb (namesTable entry) cfg) eqn:Hex; [|reflexivity].
        apply existsb_exists in Hex as (c & Hin & Hp).
        now rewrite (find_none _ _ E c Hin) in Hp. }
      rewrite Hex. reflexivity.
  - intros b Hb. apply in_flat_map in Hb as (entry & _ & Hb).
    destruct (List.find (namesTable entry) cfg) as [c|] eqn:E; [|contradiction].
    destruct Hb as [<-|[]]. exact E.
  - intros entry c Hin E. apply in_flat_map. exists entry. split; [exact Hin|].
    rewrite E. now left.
Qed.

Section PartitionLookup.
Variable findPartitions : Entries.Table -> list N * option string.

Lemma setupConfigForPartitionedTableChildren_error
    (parentTcm : tableConfigMapping) (tables : list Entries.Table)
    (cfg : list Domains.Table) (s : entryStore) (st : childrenState) (e : string) :
  setupConfigForPartitionedTableChildren findPartitions parentTcm tables cfg s =
    (st, Some e) ->
  exists err,
    (findPartitions (tcm_entry parentTcm)).2 = Some err /\
    e = "cannot find partitions of the table " +:+ Schema (tcm_entry parentTcm) +:+
        "." +:+ Name (tcm_entry parentTcm) +:+ ": " +:+ err.
Proof.
  unfold setupConfigForPartitionedTableChildren.
  destruct (findPartitions (tcm_entry parentTcm)) as [parts [err|]];
    intros H; [|discriminate H].
  injection H as _ <-. eauto.
Qed.

Lemma appendOrExpand_error
    (cfg : list Domains.Table) (tables : list Entries.Table)
    (tcm : tableConfigMapping) (st st' : configState) (e : string) :
  appendOrExpand findPartitions cfg tables tcm st = (st', Some e) ->
  RelKind (tcm_entry tcm) = "p"%char /\
  cfg_ApplyForInherited (tcm_config tcm) = true /\
  exists err,
    (findPartitions (tcm_entry tcm)).2 = Some err /\
    e = "cannot find partitions of the table " +:+ Schema (tcm_entry tcm) +:+ "." +:+
        Name (tcm_entry tcm) +:+ ": " +:+ err.
Proof.
  destruct st as [[res warnings] s]. unfold appendOrExpand.
  destruct (Ascii.eqb (RelKind (tcm_entry tcm)) "p") eqn:Ek; cbn [negb];
    [|intros H; discriminate H].
  destruct (cfg_ApplyForInherited (tcm_config tcm)) eqn:Ei; cbn [negb];
    [|intros H; discriminate H].
  destruct (setupConfigForPartitionedTableChildren findPartitions tcm tables cfg s)
    as [[inhTab s'] [err|]] eqn:Es; intros H; [|discriminate H].
  injection H as _ <-. apply Ascii.eqb_eq in Ek.
  split; [exact Ek|]. split; [reflexivity|].
  apply (setupConfigForPartitionedTableChildren_error _ _ _ _ _ _ Es).
Qed.

Lemma setConfigStep_error (fuel : nat)
    (cfg : list Domains.Table) (tables : list Entries.Table) (g : Graph)
    (r : TransformerRegistry) (tcm : tableConfigMapping) (st st' : configState)
    (e : string) :
  setConfigStep findPartitions fuel cfg tables g r tcm st = Ok (st', Some e) ->
  RelKind (tcm_entry tcm) = "p"%char /\
  cfg_ApplyForInherited (tcm_config tcm) = true /\
  exists err,
    (findPartitions (tcm_entry tcm)).2 = Some err /\
    e = "cannot find partitions of the table " +:+ Schema (tcm_entry tcm) +:+ "." +:+
        Name (tcm_entry tcm) +:+ ": " +:+ err.
Proof.
  destruct st as [[res warnings] s]. unfold setConfigStep.
  destruct (hasTransformerWithApplyForReferences tcm).
  - destruct (checkApplyForReferenceMetRequirements tcm r) as [ok checkWarns].
    destruct (negb ok); [intros H; discriminate H|].
    destruct (getRefTables fuel _ (tcm_config tcm) _ cfg)
      as [[refTables warns]| |]; cbn [mbind result_mbind result_bind];
      try (intros H; discriminate H).
    intros H. apply Ok_inj in H. apply (appendOrExpand_error _ _ _ _ _ _ H).
  - intros H. apply Ok_inj in H. apply (appendOrExpand_error _ _ _ _ _ _ H).
Qed.

Lemma setConfigLoop_error (fuel : nat)
    (cfg : list Domains.Table) (tables : list Entries.Table) (g : Graph)
    (r : TransformerRegistry) (tcms : list tableConfigMapping) :
  forall (st st' : configState) (e : string),
    setConfigLoop findPartitions fuel cfg tables g r tcms st = Ok (st', Some e) ->
    st'.1 = ([], []) /\
    exists tcm e',
      In tcm tcms /\
      (exists st0 st1, setConfigStep findPartitions fuel cfg tables g r tcm st0 =
                         Ok (st1, Some e')) /\
      e = "cannot setup config for partitioned table children: " +:+ e'.
Proof.
  induction tcms as [|tcm tcms IH]; intros st st' e H; [discriminate H|].
  cbn [setConfigLoop] in H.
  destruct (setConfigStep findPartitions fuel cfg tables g r tcm st)
    as [[st1 [e1|]]| |] eqn:E; cbn [mbind result_mbind result_bind] in H;
    try discriminate H.
  - injection H as <- <-. split; [reflexivity|].
    exists tcm, e1. split; [now left|]. split; [eauto|reflexivity].
  - destruct (IH _ _ _ H) as (Hst & tcm' & e' & Hin & Hstep & He).
    split; [exact Hst|]. exists tcm', e'. split; [now right|]. auto.
Qed.

(** X13. [setConfigToEntries] fails as a whole: when it returns an error
    it returns no binding and no warning, whatever was gathered before. The
    error is that of the partition lookup of a configured table that is
    partitioned and marked apply_for_inherited, wrapped twice. *)
Theorem setConfigToEntries_error_drops_everything (fuel : nat)
    (cfg : list Domains.Table) (tables : list Entries.Table) (g : Graph)
    (r : TransformerRegistry) (res : list tableConfigMapping)
    (ws : ValidationWarnings) (e : string) :
  setConfigToEntries findPartitions fuel cfg tables g r = Ok (res, ws, Some e) ->
  res = [] /\ ws = [] /\
  exists tcm err,
    In tcm (findTablesWithTransformers cfg tables) /\
    RelKind (tcm_entry tcm) = "p"%char /\
    cfg_ApplyForInherited (tcm_config tcm) = true /\
    (findPartitions (tcm_entry tcm)).2 = Some err /\
    e = "cannot setup config for partitioned table children: " +:+
        ("cannot find partitions of the table " +:+ Schema (tcm_entry tcm) +:+ "." +:+
         Name (tcm_entry tcm) +:+ ": " +:+ err).
Proof.
  unfold setConfigToEntries. intros H.
  destruct (setConfigLoop findPartitions fuel cfg tables g r
              (findTablesWithTransformers cfg tables) ([], [], ∅))
    as [[st [e0|]]| |] eqn:E; cbn [mbind result_mbind result_bind] in H;
    try discriminate H.
  destruct (setConfigLoop_error _ _ _ _ _ _ _ _ _ E)
    as (Hst & tcm & e' & Hin & (st0 & st1 & Hstep) & ->).
  destruct st as [[res' ws'] s']. cbn [fst snd] in Hst, H.
  injection Hst as -> ->. injection H as <- <- <-.
  destruct (setConfigStep_error _ _ _ _ _ _ _ _ _ Hstep) as (Hk & Hi & err & Herr & ->).
  split; [reflexivity|]. split; [reflexivity|]. exists tcm, err. auto.
Qed.

End PartitionLookup.

(** X13 at a catalog whose partition lookup fails: the warning gathered
    for [users] before the failure is not returned. *)
Lemma setConfigToEntries_error_drops_everything_witness :
  exists e,
    setConfigToEntries partitionsUnavailable 10 [cfg_users; cfg_events]
      [users; events; events_2024; events_2025] graph_events registry_std = Ok ([], [], Some e) /\
    exists tcm err,
      In tcm (findTablesWithTransformers [cfg_users; cfg_events]
                [users; events; events_2024; events_2025]) /\
      RelKind (tcm_entry tcm) = "p"%char /\
      cfg_ApplyForInherited (tcm_config tcm) = true /\
      (partitionsUnavailable (tcm_entry tcm)).2 = Some err /\
      e = "cannot setup config for partitioned table children: " +:+
          ("cannot find partitions of the table " +:+ Schema (tcm_entry tcm) +:+ "." +:+
           Name (tcm_entry tcm) +:+ ": " +:+ err).
Proof.
  eexists. split; [vm_compute; reflexivity|].
  apply (setConfigToEntries_error_drops_everything partitionsUnavailable 10
           [cfg_users; cfg_events] [users; events; events_2024; events_2025]
           graph_events registry_std [] []).
  vm_compute. reflexivity.
Defined.

Lemma writeAll_lookup (w : entryWrites) (leaves : list Entries.Table) :
  forall (s : entryStore) (k : N),
    writeAll w leaves s !! k =
    if existsb (fun e => N.eqb (Oid e) k) leaves then Some w else s !! k.
Proof.
  induction leaves as [|e leaves IH]; intros s k; [reflexivity|].
  unfold writeAll. cbn [fold_left existsb]. fold (writeAll w leaves (<[Oid e := w]> s)).
  rewrite IH. destruct (existsb _ leaves); [now rewrite orb_true_r|].
  rewrite orb_false_r. destruct (N.eqb (Oid e) k) eqn:E.
  - apply N.eqb_eq in E. subst k. apply lookup_insert_eq.
  - apply N.eqb_neq in E. now apply lookup_insert_ne.
Qed.

Lemma partitionsInScope_In (tables : list Entries.Table) (parts : list N)
    (e : Entries.Table) :
  In e (partitionsInScope tables parts) -> In e tables /\ In (Oid e) parts.
Proof.
  unfold partitionsInScope. rewrite in_flat_map. intros (pt & Hpt & He).
  destruct (List.find _ tables) as [e'|] eqn:Efind; [|contradiction].
  destruct He as [<-|[]]. apply find_some in Efind as [Hin Hoid].
  apply N.eqb_eq in Hoid. subst pt. auto.
Qed.

Lemma readEntry_insert_Columns (s : entryStore) (k : N) (w : entryWrites)
    (t : Entries.Table) :
  Columns (readEntry (<[k := w]> s) t) =
  if N.eqb k (Oid t) then ew_Columns w else Columns (readEntry s t).
Proof.
  unfold readEntry. destruct (N.eqb k (Oid t)) eqn:E.
  - apply N.eqb_eq in E. subst k.
    assert (El : <[Oid t := w]> s !! Oid t = Some w) by apply lookup_insert_eq.
    now rewrite El.
  - apply N.eqb_neq in E.
    assert (El : <[k := w]> s !! Oid t = s !! Oid t) by now apply lookup_insert_ne.
    now rewrite El.
Qed.

Section Expansion.
Variable findPartitions : Entries.Table -> list N * option string.

(** The loop of [setupConfigForPartitionedTableChildren] writes the same
    fields to every partition in scope: the columns of the parent do not
    change while it runs, even when the parent is among the partitions. *)
Lemma setupConfigForPartitionedTableChildren_eq
    (parentTcm : tableConfigMapping) (tables : list Entries.Table)
    (cfg : list Domains.Table) (s : entryStore) :
  (findPartitions (tcm_entry parentTcm)).2 = None ->
  let parent := tcm_entry parentTcm in
  let leaves := partitionsInScope tables (findPartitions parent).1 in
  let w := mkEntryWrites (Schema parent) (Name parent) (Oid parent)
             (Columns (readEntry s parent)) in
  setupConfigForPartitionedTableChildren findPartitions parentTcm tables cfg s =
    ((map (fun e => mkTcm e (tcm_config parentTcm)) leaves, writeAll w leaves s), None).
Proof.
  intros Herr. cbv zeta. unfold setupConfigForPartitionedTableChildren.
  destruct (findPartitions (tcm_entry parentTcm)) as [parts err]. cbn [fst snd] in *.
  subst err. f_equal.
  set (parent := tcm_entry parentTcm).
  set (w := mkEntryWrites (Schema parent) (Name parent) (Oid parent)
              (Columns (readEntry s parent))).
  assert (E : forall acc sk,
            Columns (readEntry sk parent) = Columns (readEntry s parent) ->
            fold_left
              (fun (st : childrenState) pt =>
                 let '(res, s) := st in
                 match IndexFunc tables (fun table => N.eqb (Oid table) pt) with
                 | None => (res, s)
                 | Some idx =>
                     match tables !! idx with
                     | None => (res, s)
                     | Some e =>
                         let p := readEntry s parent in
                         let s' :=
                           <[Oid e := mkEntryWrites (Schema p) (Name p) (Oid p) (Columns p)]> s in
                         (res ++ [mkTcm e (tcm_config parentTcm)], s')
                     end
                 end) parts (acc, sk) =
            (acc ++ map (fun e => mkTcm e (tcm_config parentTcm))
                        (partitionsInScope tables parts),
             writeAll w (partitionsInScope tables parts) sk)).
  { induction parts as [|pt parts IH]; intros acc sk Hcols.
    - cbn. now rewrite app_nil_r.
    - cbn [fold_left partitionsInScope flat_map].
      pose proof (IndexFunc_find tables (fun table => N.eqb (Oid table) pt)) as Hfind.
      destruct (IndexFunc tables _) as [idx|]; rewrite <- Hfind.
      + destruct (tables !! idx) as [e|]; [|apply IH, Hcols].
        cbv zeta.
        destruct (readEntry_names sk parent) as (Hs & Hn & Ho & _).
        rewrite Hs, Hn, Ho, Hcols. fold w.
        rewrite IH.
        * cbn [app map]. rewrite <- app_assoc. reflexivity.
        * rewrite readEntry_insert_Columns.
          destruct (N.eqb (Oid e) (Oid parent)); [reflexivity|exact Hcols].
      + apply IH, Hcols. }
  apply (E [] s). reflexivity.
Qed.

(** X23. A partitioned table whose config says apply_for_inherited, and
    whose partition lookup succeeds, is replaced by its partitions in scope:
    the loop body appends one binding per partition, in the order of the
    lookup, each to the entry of the partition and with the config of the
    parent, and adds no warning. The entry of every such partition then
    shows the schema, the name and the Oid of the parent as its root and
    has the columns of the parent; no other entry changes. *)
Theorem appendOrExpand_partitions
    (cfg : list Domains.Table) (tables : list Entries.Table)
    (tcm : tableConfigMapping) (res : list tableConfigMapping)
    (warnings : ValidationWarnings) (s : entryStore) :
  RelKind (tcm_entry tcm) = "p"%char ->
  cfg_ApplyForInherited (tcm_config tcm) = true ->
  (findPartitions (tcm_entry tcm)).2 = None ->
  let parent := tcm_entry tcm in
  let leaves := partitionsInScope tables (findPartitions parent).1 in
  exists s',
    appendOrExpand findPartitions cfg tables tcm (res, warnings, s) =
      ((res ++ map (fun e => mkTcm e (tcm_config tcm)) leaves, warnings, s'), None) /\
    (forall e, In e leaves ->
       In e tables /\ In (Oid e) (findPartitions parent).1 /\
       readEntry s' e = leafEntry (readEntry s parent) e) /\
    (forall t, (forall e, In e leaves -> Oid e <> Oid t) ->
       readEntry s' t = readEntry s t).
Proof.
  intros Hkind Hinh Herr. cbv zeta.
  pose proof (setupConfigForPartitionedTableChildren_eq tcm tables cfg s Herr) as Hsetup.
  cbv zeta in Hsetup.
  set (leaves := partitionsInScope tables (findPartitions (tcm_entry tcm)).1) in *.
  set (w := mkEntryWrites (Schema (tcm_entry tcm)) (Name (tcm_entry tcm))
              (Oid (tcm_entry tcm)) (Columns (readEntry s (tcm_entry tcm)))) in *.
  exists (writeAll w leaves s). split; [|split].
  - unfold appendOrExpand. rewrite Hkind, Hinh, Hsetup. reflexivity.
  - intros e He. destruct (partitionsInScope_In _ _ _ He) as [Hin Hoid].
    split; [exact Hin|]. split; [exact Hoid|].
    unfold readEntry at 1. rewrite writeAll_lookup.
    assert (Hex : existsb (fun e' => N.eqb (Oid e') (Oid e)) leaves = true).
    { apply existsb_exists. exists e. split; [exact He|apply N.eqb_refl]. }
    rewrite Hex. unfold leafEntry, w. cbn [ew_Columns ew_RootPtSchema ew_RootPtName ew_RootPtOid].
    destruct (readEntry_names s (tcm_entry tcm)) as (Hs & Hn & Ho & _).
    now rewrite Hs, Hn, Ho.
  - intros t Hout. unfold readEntry. rewrite writeAll_lookup.
    assert (Hex : existsb (fun e' => N.eqb (Oid e') (Oid t)) leaves = false).
    { destruct (existsb _ leaves) eqn:Hex; [|reflexivity].
      apply existsb_exists in Hex as (e & He & Hoid). apply N.eqb_eq in Hoid.
      now destruct (Hout e He). }
    now rewrite Hex.
Qed.

End Expansion.

(** X23 at events with its partitions events_2024 and events_2025. *)
Lemma appendOrExpand_partitions_witness :
  exists s',
    appendOrExpand partitions_events [cfg_events] [events; events_2024; events_2025]
      (mkTcm events cfg_events) ([], [], ∅) =
      (([] ++ [mkTcm events_2024 cfg_events; mkTcm events_2025 cfg_events], [], s'), None) /\
    (forall e, In e [events_2024; events_2025] ->
       In e [events; events_2024; events_2025] /\ In (Oid e) [21%N; 22%N] /\
       readEntry s' e = leafEntry (readEntry ∅ events) e) /\
    (forall t, (forall e, In e [events_2024; events_2025] -> Oid e <> Oid t) ->
       readEntry s' t = readEntry ∅ t).
Proof.
  exact (appendOrExpand_partitions partitions_events [cfg_events]
           [events; events_2024; events_2025] (mkTcm events cfg_events) [] [] ∅
           eq_refl eq_refl eq_refl).
Defined.

End BindingFacts.

(** ** Default transformers *)

Module DefaultsFacts.
Import GoStrings GoStringsFacts Toolkit Entries Subset Domains Registry Transformers.
Import ConfigBuilder ConfigBuilderSpec DefaultsTerms Fixtures ConfigBuilderFacts.

Lemma defaultConfig_column (name col : string) (ps : list (string * string)) :
  param (defaultConfig name (("column", col) :: ps)) columnParameterName = col /\
  tr_ApplyForReferences (defaultConfig name (("column", col) :: ps)) = false /\
  tr_When (defaultConfig name (("column", col) :: ps)) = "".
Proof.
  unfold param, defaultConfig, columnParameterName. cbn [tr_Params tr_ApplyForReferences tr_When].
  split; [|split; reflexivity].
  cbn [list_to_map foldr fst snd]. now rewrite lookup_insert_eq.
Qed.

Section Unicode.
Variable unicodeToLower : string -> string.

Lemma getDefaultTransformerForScalarType_cases (column : Column) (typeName : string) :
  (oneOf (ToLower unicodeToLower typeName) supportedScalarTypes = false ->
   getDefaultTransformerForScalarType unicodeToLower column typeName =
     (None, Some ("unable to get default transformer for column " +:+ col_Name column +:+
                  " and type " +:+ typeName))) /\
  (oneOf (ToLower unicodeToLower typeName) supportedScalarTypes = true ->
   exists name ps,
     getDefaultTransformerForScalarType unicodeToLower column typeName =
       (Some (defaultConfig name (("column", col_Name column) :: ps)), None)).
Proof.
  unfold getDefaultTransformerForScalarType. cbv zeta.
  generalize (ToLower unicodeToLower typeName). intros l.
  assert (Hs : oneOf l supportedScalarTypes =
               oneOf l ["text"; "varchar"; "character varying"; "char"; "character"; "bpchar"] ||
               oneOf l ["integer"; "int"; "int4"; "bigint"; "int8"; "smallint"; "int2"] ||
               oneOf l ["numeric"; "decimal"] ||
               oneOf l ["real"; "float4"; "double precision"; "float8"] ||
               oneOf l ["date"] ||
               oneOf l ["timestamp"; "timestamp without time zone"] ||
               oneOf l ["timestamptz"; "timestamp with time zone"] ||
               oneOf l ["boolean"; "bool"] ||
               oneOf l ["uuid"] ||
               oneOf l ["json"; "jsonb"]).
  { unfold oneOf, supportedScalarTypes. rewrite <- !existsb_app. reflexivity. }
  rewrite Hs. clear Hs.
  repeat match goal with
         | |- context [if oneOf l ?L then _ else _] =>
             destruct (oneOf l L); cbn [orb];
             [split; [intros H; discriminate H|intros _; eexists _, _; reflexivity]|]
         end.
  split; [reflexivity|intros H; discriminate H].
Qed.

(** X14. [GetDefaultTransformerForColumn] goes by the canonical type name
    when the column has one and by the type of the column otherwise. It
    returns an error exactly when that name is not an array type and, in
    the lower case [strings.ToLower] gives it (letters outside ASCII
    included, whatever the Unicode tables say of them), is none of the
    supported scalar type names; otherwise it returns a transformer, which
    for an array type is Replace with the value of an empty array that
    keeps nulls. The transformer is set on the column, is not marked
    apply_for_references and has no condition. For a type name of ASCII
    bytes the lower case is taken byte by byte. *)
Theorem GetDefaultTransformerForColumn_spec (column : Column) :
  let typeName := effectiveType column in
  ((exists e, GetDefaultTransformerForColumn unicodeToLower column = (None, Some e)) <->
   isArrayType typeName = false /\
   oneOf (ToLower unicodeToLower typeName) supportedScalarTypes = false) /\
  (isArrayType typeName = false ->
   oneOf (ToLower unicodeToLower typeName) supportedScalarTypes = false ->
   GetDefaultTransformerForColumn unicodeToLower column =
     (None, Some ("unable to get default transformer for column " +:+ col_Name column +:+
                  " and type " +:+ typeName))) /\
  (isArrayType typeName = true ->
   GetDefaultTransformerForColumn unicodeToLower column =
     (Some (defaultConfig "Replace"
              [("column", col_Name column); ("value", "{}"); ("keep_null", "true")]), None)) /\
  (forall tr e, GetDefaultTransformerForColumn unicodeToLower column = (Some tr, e) ->
     e = None /\
     param tr columnParameterName = col_Name column /\
     tr_ApplyForReferences tr = false /\ tr_When tr = "") /\
  (isASCII typeName = true ->
   ToLower unicodeToLower typeName = asciiToLower typeName).
Proof.
  cbv zeta.
  assert (Hascii : isASCII (effectiveType column) = true ->
                   ToLower unicodeToLower (effectiveType column) =
                   asciiToLower (effectiveType column)).
  { intros Ha. unfold ToLower. now rewrite Ha. }
  revert Hascii.
  unfold GetDefaultTransformerForColumn, isArrayType, effectiveType.
  set (typeName := if negb (String.eqb (col_CanonicalTypeName column) "")
                   then col_CanonicalTypeName column else GetType column).
  intros Hascii.
  destruct (HasSuffix typeName "[]" || HasPrefix typeName "_") eqn:Earr.
  - unfold getDefaultTransformerForArrayType.
    split; [split; [intros [e H]; discriminate H|intros [H _]; discriminate H]|].
    split; [intros H; discriminate H|]. split; [reflexivity|]. split; [|exact Hascii].
    intros tr e H. injection H as <- <-. split; [reflexivity|apply defaultConfig_column].
  - destruct (getDefaultTransformerForScalarType_cases column typeName) as [Hno Hyes].
    destruct (oneOf (ToLower unicodeToLower typeName) supportedScalarTypes) eqn:Es.
    + destruct (Hyes eq_refl) as (name & ps & ->).
      split; [split; [intros [e H]; discriminate H|intros [_ H]; discriminate H]|].
      split; [intros _ H; discriminate H|]. split; [intros H; discriminate H|].
      split; [|exact Hascii].
      intros tr e H. injection H as <- <-. split; [reflexivity|apply defaultConfig_column].
    + rewrite (Hno eq_refl).
      split; [split; [intros _; split; reflexivity|intros _; eexists; reflexivity]|].
      split; [reflexivity|]. split; [intros H; discriminate H|]. split; [|exact Hascii].
      intros tr e H. discriminate H.
Qed.

End Unicode.

End DefaultsFacts.

(** ** Auto-anonymize and the initialization of transformers *)

Module InitFacts.
Import GoStrings GoStringsFacts Toolkit Entries Subset Domains Registry Transformers.
Import ConfigBuilder ConfigBuilderSpec DefaultsTerms ExtractTerms Fixtures InitFixtures.
Import ConfigBuilderFacts.

Section Runtime.
Variable unicodeToLower : string -> string.
Variable DefaultTransformerRegistry : TransformerRegistry.
Variable jsonUnmarshalColumnDefs : string -> option (list string).
Variable TransformerContext : Type.
Variable initTransformer :
  Entries.Table -> TransformerConfig -> TransformerRegistry ->
  TransformerContext * ValidationWarnings * option string.

Lemma extractColumnNamesFromParam_eq (p : string) :
  extractColumnNamesFromParam jsonUnmarshalColumnDefs p =
    (match jsonUnmarshalColumnDefs p with
     | Some columnDefs => List.filter (fun n => negb (String.eqb n "")) columnDefs
     | None => []
     end, None).
Proof.
  unfold extractColumnNamesFromParam.
  destruct (jsonUnmarshalColumnDefs p) as [[|d defs]|]; reflexivity.
Qed.

Lemma extractColumnNamesFromTransformer_eq (transformer : TransformerConfig)
    (registry : TransformerRegistry) :
  extractColumnNamesFromTransformer jsonUnmarshalColumnDefs transformer registry =
    match registry !! tr_Name transformer with
    | None =>
        ([], Some ("transformer " +:+ tr_Name transformer +:+ " not found in registry"))
    | Some transformerDef =>
        (flat_map (columnsOfParam jsonUnmarshalColumnDefs transformer)
                  (td_Parameters transformerDef), None)
    end.
Proof.
  unfold extractColumnNamesFromTransformer.
  destruct (registry !! tr_Name transformer) as [td|]; [|reflexivity].
  match goal with
  | |- ?loop ?l [] = _ =>
      enough (E : forall acc,
                loop l acc =
                (acc ++ flat_map (columnsOfParam jsonUnmarshalColumnDefs transformer) l, None))
        by apply (E [])
  end.
  induction (td_Parameters td) as [|pd defs IH]; intros acc.
  - simpl. now rewrite app_nil_r.
  - cbn [flat_map]. unfold columnsOfParam at 1.
    destruct (pd_IsColumn pd).
    + destruct (tr_Params transformer !! pd_Name pd) as [v|]; rewrite IH.
      * now rewrite <- app_assoc.
      * reflexivity.
    + destruct (pd_IsColumnContainer pd).
      * destruct (tr_Params transformer !! pd_Name pd) as [v|].
        -- rewrite extractColumnNamesFromParam_eq, IH. now rewrite <- app_assoc.
        -- rewrite IH. reflexivity.
      * rewrite IH. now destruct (tr_Params transformer !! pd_Name pd).
Qed.

(** X15. [extractColumnNamesFromTransformer] fails exactly when the
    transformer is not in the registry. For a registered transformer it
    returns, parameter definition by parameter definition, the value of
    every column parameter that is set and the non-empty names of every
    column container that is set and decodes; a container that does not
    decode contributes no column and no error. *)
Theorem extractColumnNamesFromTransformer_spec (transformer : TransformerConfig)
    (registry : TransformerRegistry) :
  ((extractColumnNamesFromTransformer jsonUnmarshalColumnDefs transformer registry).2 = None <->
   is_Some (registry !! tr_Name transformer)) /\
  (extractColumnNamesFromTransformer jsonUnmarshalColumnDefs transformer registry).1 =
    match registry !! tr_Name transformer with
    | None => []
    | Some transformerDef =>
        flat_map (columnsOfParam jsonUnmarshalColumnDefs transformer)
                 (td_Parameters transformerDef)
    end /\
  (registry !! tr_Name transformer = None ->
   (extractColumnNamesFromTransformer jsonUnmarshalColumnDefs transformer registry).2 =
     Some ("transformer " +:+ tr_Name transformer +:+ " not found in registry")).
Proof.
  rewrite extractColumnNamesFromTransformer_eq.
  destruct (registry !! tr_Name transformer) as [td|]; simpl.
  - split; [split; [eauto|reflexivity]|]. split; [reflexivity|]. intros H. discriminate H.
  - split; [split; [intros H; discriminate H|intros [x Hx]; discriminate Hx]|].
    split; reflexivity.
Qed.

Lemma collectDefinedColumns_spec (trs : list TransformerConfig) :
  forall (acc definedColumns : gset string),
    collectDefinedColumns DefaultTransformerRegistry jsonUnmarshalColumnDefs trs acc =
      (definedColumns, None) ->
    forall c, c ∈ definedColumns <->
      c ∈ acc \/
      exists tr td, In tr trs /\ DefaultTransformerRegistry !! tr_Name tr = Some td /\
                    In c (flat_map (columnsOfParam jsonUnmarshalColumnDefs tr)
                                   (td_Parameters td)).
Proof.
  induction trs as [|tr trs IH]; intros acc d H c.
  - injection H as <-. split; [auto|]. intros [H|(tr & td & [] & _)]. exact H.
  - cbn [collectDefinedColumns] in H.
    rewrite extractColumnNamesFromTransformer_eq in H.
    destruct (DefaultTransformerRegistry !! tr_Name tr) as [td|] eqn:Hreg; [|discriminate H].
    rewrite (IH _ _ H c), elem_of_union, elem_of_list_to_set, list_elem_of_In. split.
    + intros [[Hc|Hc]|(tr' & td' & Hin & Hr & Hc)].
      * right. exists tr, td. split; [now left|auto].
      * now left.
      * right. exists tr', td'. split; [now right|auto].
    + intros [Hc|(tr' & td' & [<-|Hin] & Hr & Hc)].
      * left. now right.
      * rewrite Hreg in Hr. injection Hr as <-. left. now left.
      * right. exists tr', td'. auto.
Qed.

Lemma defaultsForColumns_spec (t : Entries.Table) (definedColumns skipColumns : gset string)
    (columns : list Column) :
  forall (acc res : list TransformerConfig),
    defaultsForColumns unicodeToLower t definedColumns skipColumns columns acc = (res, None) ->
    exists new,
      res = acc ++ new /\
      Forall2 (fun column tr =>
               GetDefaultTransformerForColumn unicodeToLower column = (Some tr, None))
              (List.filter (needsDefaultb t definedColumns skipColumns) columns) new.
Proof.
  induction columns as [|column columns IH]; intros acc res H.
  - injection H as <-. exists []. split; [now rewrite app_nil_r|constructor].
  - cbn [defaultsForColumns] in H. cbn [List.filter]. unfold needsDefaultb at 1.
    destruct (decide (col_Name column ∈ definedColumns)) as [Hd|Hd].
    { rewrite bool_decide_eq_false_2 by auto. cbn [andb]. now apply IH. }
    rewrite (bool_decide_eq_true_2 _ Hd).
    destruct (decide (col_Name column ∈ skipColumns)) as [Hs|Hs].
    { rewrite bool_decide_eq_false_2 by auto. cbn [andb]. now apply IH. }
    rewrite (bool_decide_eq_true_2 _ Hs).
    destruct (col_IsGenerated column); cbn [andb negb]; [now apply IH|].
    destruct (slicesContains (PrimaryKey t) (col_Name column)); cbn [andb negb];
      [now apply IH|].
    destruct (GetDefaultTransformerForColumn_cases unicodeToLower column) as [[tr E]|[e E]];
      rewrite E in H; [|discriminate H].
    destruct (IH _ _ H) as (new & -> & Hall).
    exists (tr :: new). split; [now rewrite <- app_assoc|].
    constructor; [exact E|exact Hall].
Qed.

(** X16. When [generateDefaultTransformersForUndefinedColumns] returns
    without error, it returns one transformer per column of the table that
    no configured transformer covers, that is not listed in
    skip_auto_anonymize, that is not generated and that is not part of the
    primary key; the transformers stand in the order of the columns, each
    being the default of its column, and there is none for any other
    column. The columns a configured transformer covers are those its
    column parameters and its column containers name. *)
Theorem generateDefaultTransformers_exact (t : Entries.Table) (tableConfig : Domains.Table)
    (dumpConfig : Dump) (defaults : list TransformerConfig) :
  generateDefaultTransformersForUndefinedColumns unicodeToLower DefaultTransformerRegistry
    jsonUnmarshalColumnDefs t tableConfig dumpConfig = (defaults, None) ->
  exists definedColumns : gset string,
    (forall c, c ∈ definedColumns <->
       exists tr td, In tr (cfg_Transformers tableConfig) /\
                     DefaultTransformerRegistry !! tr_Name tr = Some td /\
                     In c (flat_map (columnsOfParam jsonUnmarshalColumnDefs tr)
                                    (td_Parameters td))) /\
    Forall2 (fun column tr =>
               GetDefaultTransformerForColumn unicodeToLower column = (Some tr, None))
            (List.filter
               (needsDefaultb t definedColumns (list_to_set (cfg_SkipAutoAnonymize tableConfig)))
               (Columns t))
            defaults.
Proof.
  unfold generateDefaultTransformersForUndefinedColumns. intros H.
  destruct (collectDefinedColumns DefaultTransformerRegistry jsonUnmarshalColumnDefs
              (cfg_Transformers tableConfig) ∅) as [definedColumns [e|]] eqn:Ec;
    [discriminate H|].
  exists definedColumns. split.
  - intros c. rewrite (collectDefinedColumns_spec _ _ _ Ec c). split.
    + intros [Hc|Hc]; [set_solver|exact Hc].
    + intros Hc. now right.
  - destruct (defaultsForColumns_spec _ _ _ _ _ _ H) as (new & -> & Hall). exact Hall.
Qed.

Lemma initLoop_spec (t : Entries.Table) (r : TransformerRegistry)
    (trs : list TransformerConfig) :
  forall (ctxs : list TransformerContext) (warnings : ValidationWarnings),
    let out := initLoop TransformerContext initTransformer t r trs ctxs warnings in
    (out.2 = None /\
     out.1.1 = ctxs ++ map (fun tc => (initTransformer t tc r).1.1) trs /\
     out.1.2 = warnings ++
               flat_map (fun tc => enrichWarningsWithTransformerName
                                     (initTransformer t tc r).1.2 (tr_Name tc)) trs /\
     forall tc, In tc trs -> (initTransformer t tc r).2 = None) \/
    (exists pre tc post,
       trs = pre ++ tc :: post /\
       (forall x, In x pre -> (initTransformer t x r).2 = None) /\
       is_Some (initTransformer t tc r).2 /\
       out.2 = (initTransformer t tc r).2 /\
       out.1.1 = ctxs ++ map (fun tc => (initTransformer t tc r).1.1) pre /\
       out.1.2 = enrichWarningsWithTransformerName (initTransformer t tc r).1.2 (tr_Name tc)).
Proof.
  induction trs as [|tc trs IH]; intros ctxs warnings; cbv zeta.
  - left. simpl. rewrite !app_nil_r. repeat split. intros ? [].
  - cbn [initLoop].
    destruct (initTransformer t tc r) as [[ctx ws] [e|]] eqn:E.
    + right. exists [], tc, trs. rewrite E. simpl. rewrite app_nil_r.
      repeat split; eauto. intros ? [].
    + destruct (IH (ctxs ++ [ctx]) (warnings ++ enrichWarningsWithTransformerName ws (tr_Name tc)))
        as [(H1 & H2 & H3 & H4)|(pre & tc' & post & -> & Hpre & Hs & H1 & H2 & H3)].
      * left. rewrite H1, H2, H3. cbn [map flat_map]. rewrite E. simpl.
        rewrite <- !app_assoc. repeat split.
        intros x [<-|Hx]; [now rewrite E|now apply H4].
      * right. exists (tc :: pre), tc', post. rewrite H1, H2, H3. cbn [map]. rewrite E. simpl.
        rewrite <- !app_assoc. repeat split; auto.
        intros x [<-|Hx]; [now rewrite E|now apply Hpre].
Qed.

(** What is left behind when the transformers of the config [cfg'] are
    initialized in order. *)
Lemma initLoop_outcome (t : Entries.Table) (r : TransformerRegistry) (cfg' : Domains.Table) :
  let o := if length (cfg_Transformers cfg') =? 0
           then mkInitOutcome TransformerContext cfg' [] [] None
           else let '(ctxs, warnings, err) :=
                  initLoop TransformerContext initTransformer t r (cfg_Transformers cfg') [] [] in
                mkInitOutcome TransformerContext cfg' ctxs warnings err in
  io_config _ o = cfg' /\
  (io_err _ o = None ->
   io_contexts _ o = map (fun tc => (initTransformer t tc r).1.1) (cfg_Transformers cfg') /\
   io_warnings _ o =
     flat_map (fun tc => enrichWarningsWithTransformerName
                           (initTransformer t tc r).1.2 (tr_Name tc)) (cfg_Transformers cfg') /\
   forall tc, In tc (cfg_Transformers cfg') -> (initTransformer t tc r).2 = None) /\
  (forall e, io_err _ o = Some e ->
   exists pre tc post,
     cfg_Transformers cfg' = pre ++ tc :: post /\
     (forall x, In x pre -> (initTransformer t x r).2 = None) /\
     (initTransformer t tc r).2 = Some e /\
     io_contexts _ o = map (fun tc => (initTransformer t tc r).1.1) pre /\
     io_warnings _ o =
       enrichWarningsWithTransformerName (initTransformer t tc r).1.2 (tr_Name tc)).
Proof.
  cbv zeta.
  destruct (cfg_Transformers cfg') as [|tc0 trs0] eqn:Etrs.
  - simpl. split; [reflexivity|]. split; [intros _; repeat split; intros ? []|].
    intros e H. discriminate H.
  - cbn [length Nat.eqb].
    pose proof (initLoop_spec t r (tc0 :: trs0) [] []) as Hspec. cbv zeta in Hspec.
    destruct (initLoop TransformerContext initTransformer t r (tc0 :: trs0) [] [])
      as [[ctxs warnings] err]. cbn [fst snd] in Hspec.
    cbn [io_config io_err io_contexts io_warnings].
    split; [reflexivity|].
    destruct Hspec as [(H1 & H2 & H3 & H4)|(pre & tc & post & Heq & Hpre & Hs & H1 & H2 & H3)].
    + subst err. split; [intros _; auto|]. intros e H. discriminate H.
    + split.
      * intros ->. rewrite <- H1 in Hs. destruct Hs as [x Hx]. discriminate Hx.
      * intros e ->. exists pre, tc, post. auto.
Qed.

(** X17. [initAndSetupTransformers] leaves the config of the table as it
    is when auto-anonymize is off or the generation of the defaults fails,
    and appends the generated defaults to its transformers otherwise. It
    then initializes the transformers of that config in order, the
    configured ones first and then the defaults, and stops at the first
    that fails. When none fails, it returns the warnings of all of them,
    each marked with the name of its transformer, and the table gets one
    context per transformer. When one fails, it returns the error and the
    warnings of that transformer alone: the warnings of the transformers
    before it are not returned, although their contexts are on the table. *)
Theorem initAndSetupTransformers_first_failure (t : Entries.Table)
    (tableConfig : Domains.Table) (dumpConfig : Dump) (r : TransformerRegistry) :
  let o := initAndSetupTransformers unicodeToLower DefaultTransformerRegistry
             jsonUnmarshalColumnDefs TransformerContext initTransformer
             t tableConfig dumpConfig r in
  let trs := cfg_Transformers (io_config _ o) in
  let ctxOf := fun tc => (initTransformer t tc r).1.1 in
  let warnsOf := fun tc =>
    enrichWarningsWithTransformerName (initTransformer t tc r).1.2 (tr_Name tc) in
  let generated :=
    generateDefaultTransformersForUndefinedColumns unicodeToLower
      DefaultTransformerRegistry jsonUnmarshalColumnDefs t tableConfig dumpConfig in
  io_config _ o =
    (if AutoAnonymize dumpConfig then
       match generated.2 with
       | None => withTransformers tableConfig (cfg_Transformers tableConfig ++ generated.1)
       | Some _ => tableConfig
       end
     else tableConfig) /\
  (io_err _ o = None ->
   io_contexts _ o = map ctxOf trs /\
   io_warnings _ o = flat_map warnsOf trs /\
   forall tc, In tc trs -> (initTransformer t tc r).2 = None) /\
  (forall e, io_err _ o = Some e ->
   (io_contexts _ o = [] /\ io_warnings _ o = [] /\ io_config _ o = tableConfig /\
    AutoAnonymize dumpConfig = true /\
    exists e', generated.2 = Some e' /\
               e = "cannot generate default transformers for undefined columns: " +:+ e') \/
   (exists pre tc post,
      trs = pre ++ tc :: post /\
      (forall x, In x pre -> (initTransformer t x r).2 = None) /\
      (initTransformer t tc r).2 = Some e /\
      io_contexts _ o = map ctxOf pre /\
      io_warnings _ o = warnsOf tc)).
Proof.
  cbv zeta. unfold initAndSetupTransformers.
  destruct (AutoAnonymize dumpConfig) eqn:Eauto.
  - destruct (generateDefaultTransformersForUndefinedColumns _ _ _ t tableConfig dumpConfig)
      as [defaultTransformers [e'|]] eqn:Egen.
    + cbn [io_err io_contexts io_warnings io_config fst snd].
      split; [reflexivity|]. split; [intros H; discriminate H|].
      intros e H. injection H as <-. left. repeat split.
      exists e'. split; reflexivity.
    + pose proof (initLoop_outcome t r
                    (withTransformers tableConfig
                       (cfg_Transformers tableConfig ++ defaultTransformers))) as Hloop.
      cbv zeta in Hloop. destruct Hloop as (Hc & Hok & Hfail).
      rewrite Hc. cbn [fst snd]. split; [reflexivity|].
      split; [exact Hok|]. intros e He. right. now apply Hfail.
  - pose proof (initLoop_outcome t r tableConfig) as Hloop.
    cbv zeta in Hloop. destruct Hloop as (Hc & Hok & Hfail).
    rewrite Hc. split; [reflexivity|].
    split; [exact Hok|]. intros e He. right. now apply Hfail.
Qed.

(** X22. Every warning the initialization of the transformers of a table
    adds to the warnings of the builder is labelled with the schema and the
    name of the table and with the name of one of its transformers; the
    labels replace whatever the initialization had put under these keys.
    When the initialization fails, the step returns no warning at all, not
    even those gathered for the tables before, and the error wrapped with
    the name of the table. *)
Theorem initTransformersStep_labels (t : Entries.Table) (tableConfig : Domains.Table)
    (dumpConfig : Dump) (r : TransformerRegistry) (warnings : ValidationWarnings) :
  let o := initAndSetupTransformers unicodeToLower DefaultTransformerRegistry
             jsonUnmarshalColumnDefs TransformerContext initTransformer
             t tableConfig dumpConfig r in
  let out := initTransformersStep unicodeToLower DefaultTransformerRegistry
               jsonUnmarshalColumnDefs TransformerContext initTransformer
               t tableConfig dumpConfig r warnings in
  (forall e, io_err _ o = Some e ->
     out = ([], Some ("cannot initialise and set transformers for table " +:+ Schema t +:+
                      "." +:+ Name t +:+ ": " +:+ e))) /\
  (io_err _ o = None ->
   exists new,
     out = (warnings ++ new, None) /\
     length new = length (io_warnings _ o) /\
     forall w, In w new ->
       w_Meta w !! "TableName" = Some (Name t) /\
       w_Meta w !! "SchemaName" = Some (Schema t) /\
       exists tc, In tc (cfg_Transformers (io_config _ o)) /\
                  w_Meta w !! "TransformerName" = Some (tr_Name tc)).
Proof.
  cbv zeta. unfold initTransformersStep.
  set (o := initAndSetupTransformers _ _ _ _ _ t tableConfig dumpConfig r).
  assert (Hok : io_err _ o = None ->
            io_warnings _ o =
              flat_map (fun tc => enrichWarningsWithTransformerName
                                    (initTransformer t tc r).1.2 (tr_Name tc))
                       (cfg_Transformers (io_config _ o))).
  { unfold o, initAndSetupTransformers.
    destruct (AutoAnonymize dumpConfig).
    - destruct (generateDefaultTransformersForUndefinedColumns _ _ _ t tableConfig dumpConfig)
        as [defaultTransformers [e'|]]; [intros H; discriminate H|].
      pose proof (initLoop_outcome t r
                    (withTransformers tableConfig
                       (cfg_Transformers tableConfig ++ defaultTransformers))) as Hloop.
      cbv zeta in Hloop. destruct Hloop as (Hc & Hloop & _).
      rewrite Hc. intros H. now apply Hloop.
    - pose proof (initLoop_outcome t r tableConfig) as Hloop.
      cbv zeta in Hloop. destruct Hloop as (Hc & Hloop & _).
      rewrite Hc. intros H. now apply Hloop. }
  destruct (io_err _ o) as [e|] eqn:Eerr.
  - split; [|intros H; discriminate H]. intros e' He. injection He as <-. reflexivity.
  - split; [intros e He; discriminate He|]. intros _.
    specialize (Hok eq_refl).
    eexists. split; [reflexivity|]. unfold enrichWarningsWithTableName.
    split; [apply length_map|].
    intros w Hw. apply in_map_iff in Hw as (w0 & <- & Hw0).
    rewrite Hok in Hw0. apply in_flat_map in Hw0 as (tc & Htc & Hw0).
    unfold enrichWarningsWithTransformerName in Hw0.
    apply in_map_iff in Hw0 as (w1 & <- & _).
    unfold AddMeta. cbn [w_Meta]. split; [apply lookup_insert_eq|]. split.
    + rewrite lookup_insert_ne by (intros H; discriminate H). apply lookup_insert_eq.
    + exists tc. split; [exact Htc|].
      rewrite lookup_insert_ne by (intros H; discriminate H).
      rewrite lookup_insert_ne by (intros H; discriminate H).
      apply lookup_insert_eq.
Qed.

End Runtime.

(** X16 at a table with a column of every kind. *)
Lemma generateDefaultTransformers_exact_witness :
  exists definedColumns : gset string,
    (forall c, c ∈ definedColumns <->
       exists tr td, In tr (cfg_Transformers cfg_accounts) /\
                     registry_std !! tr_Name tr = Some td /\
                     In c (flat_map (columnsOfParam noColumnDefs tr) (td_Parameters td))) /\
    Forall2 (fun column tr =>
               GetDefaultTransformerForColumn keepNonAscii column = (Some tr, None))
            (List.filter
               (needsDefaultb accounts definedColumns
                  (list_to_set (cfg_SkipAutoAnonymize cfg_accounts)))
               (Columns accounts))
            [defaultConfig "RandomDate"
               [("column", "born"); ("min", "1970-01-01"); ("max", "2024-12-31")];
             defaultConfig "Replace"
               [("column", "tags"); ("value", "{}"); ("keep_null", "true")]].
Proof.
  apply (generateDefaultTransformers_exact keepNonAscii registry_std noColumnDefs
           accounts cfg_accounts dump_auto).
  vm_compute. reflexivity.
Defined.

(** X17 at the same table when the initialization of Replace fails: the
    config holds the two defaults after the configured transformer, and the
    warnings of the two transformers before Replace are not returned. *)
Lemma initAndSetupTransformers_first_failure_witness :
  let o := initAndSetupTransformers keepNonAscii registry_std noColumnDefs string initStrict
             accounts cfg_accounts dump_auto registry_std in
  io_config _ o =
    withTransformers cfg_accounts
      (cfg_Transformers cfg_accounts ++
       (generateDefaultTransformersForUndefinedColumns keepNonAscii registry_std
          noColumnDefs accounts cfg_accounts dump_auto).1) /\
  io_err _ o = Some "value is not valid" /\
  exists pre tc post,
    cfg_Transformers (io_config _ o) = pre ++ tc :: post /\
    (forall x, In x pre -> (initStrict accounts x registry_std).2 = None) /\
    (initStrict accounts tc registry_std).2 = Some "value is not valid" /\
    io_contexts _ o = map (fun tc => (initStrict accounts tc registry_std).1.1) pre /\
    io_warnings _ o =
      enrichWarningsWithTransformerName (initStrict accounts tc registry_std).1.2 (tr_Name tc).
Proof.
  intros o.
  assert (E : io_err _ o = Some "value is not valid") by (vm_compute; reflexivity).
  destruct (initAndSetupTransformers_first_failure keepNonAscii registry_std noColumnDefs
              string initStrict accounts cfg_accounts dump_auto registry_std)
    as (Hcfg & _ & Hfail).
  split; [exact Hcfg|]. split; [exact E|].
  destruct (Hfail _ E) as [(_ & _ & _ & _ & e' & Hgen & _)|H]; [|exact H].
  vm_compute in Hgen. discriminate Hgen.
Defined.

End InitFacts.

(** ** Validation of the config and of inherited conditions *)

Module ValidationFacts.
Import GoStrings GoStringsFacts Toolkit Entries Subset Domains Registry Transformers.
Import ConfigBuilder ConfigBuilderSpec ConfigTables ValidationTerms Fixtures ConfigBuilderFacts.

Section Query.
Variable queryTableExists : string -> string -> bool * option string.

Lemma validateConfigTablesLoop_ok (cfg : list Domains.Table) :
  (forall t, In t cfg -> (queryTableExists (cfg_Schema t) (cfg_Name t)).2 = None) ->
  forall acc,
    validateConfigTablesLoop queryTableExists cfg acc =
      (acc ++ map missingTableWarning
                (List.filter (fun t => negb (queryTableExists (cfg_Schema t) (cfg_Name t)).1) cfg),
       None).
Proof.
  induction cfg as [|t cfg IH]; intros Hok acc.
  - simpl. now rewrite app_nil_r.
  - cbn [validateConfigTablesLoop List.filter]. unfold validateTableExists.
    pose proof (Hok t (or_introl eq_refl)) as Ht.
    destruct (queryTableExists (cfg_Schema t) (cfg_Name t)) as [ex err]. simpl in Ht. subst err.
    cbn [fst].
    destruct ex; cbn [negb map]; rewrite IH by (intros; apply Hok; now right);
      [now rewrite app_nil_r|now rewrite <- app_assoc].
Qed.

Lemma validateConfigTablesLoop_error (pre : list Domains.Table) (t : Domains.Table)
    (post : list Domains.Table) (err : string) :
  (forall x, In x pre -> (queryTableExists (cfg_Schema x) (cfg_Name x)).2 = None) ->
  (queryTableExists (cfg_Schema t) (cfg_Name t)).2 = Some err ->
  forall acc,
    validateConfigTablesLoop queryTableExists (pre ++ t :: post) acc =
      ([], Some ("cannot validate table " +:+ cfg_Name t +:+ "." +:+ cfg_Schema t +:+ ": " +:+
                 ("cannot scan table: " +:+ err))).
Proof.
  intros Hpre Ht. induction pre as [|x pre IH]; intros acc.
  - cbn [app validateConfigTablesLoop]. unfold validateTableExists.
    destruct (queryTableExists (cfg_Schema t) (cfg_Name t)) as [ex e]. simpl in Ht. subst e.
    reflexivity.
  - cbn [app validateConfigTablesLoop]. unfold validateTableExists at 1.
    pose proof (Hpre x (or_introl eq_refl)) as Hx.
    destruct (queryTableExists (cfg_Schema x) (cfg_Name x)) as [ex e]. simpl in Hx. subst e.
    destruct ex; cbn [negb]; apply IH; intros; apply Hpre; now right.
Qed.

(** X18. [validateConfigTables] asks the database for every table of the
    config in order. When every query succeeds it returns one warning per
    table that does not exist, in the order of the config, of severity
    error and carrying the schema and the name of the table, and no error.
    When a query fails it returns no warning at all, whatever tables were
    found missing before, and an error that names the table as name, dot,
    schema. *)
Theorem validateConfigTables_spec (cfg : list Domains.Table) :
  ((forall t, In t cfg -> (queryTableExists (cfg_Schema t) (cfg_Name t)).2 = None) ->
   validateConfigTables queryTableExists cfg =
     (map missingTableWarning
        (List.filter (fun t => negb (queryTableExists (cfg_Schema t) (cfg_Name t)).1) cfg),
      None) /\
   (IsFatal (validateConfigTables queryTableExists cfg).1 = true <->
    exists t, In t cfg /\ (queryTableExists (cfg_Schema t) (cfg_Name t)).1 = false)) /\
  (forall pre t post err,
     cfg = pre ++ t :: post ->
     (forall x, In x pre -> (queryTableExists (cfg_Schema x) (cfg_Name x)).2 = None) ->
     (queryTableExists (cfg_Schema t) (cfg_Name t)).2 = Some err ->
     validateConfigTables queryTableExists cfg =
       ([], Some ("cannot validate table " +:+ cfg_Name t +:+ "." +:+ cfg_Schema t +:+ ": " +:+
                  ("cannot scan table: " +:+ err)))).
Proof.
  split.
  - intros Hok. unfold validateConfigTables.
    rewrite (validateConfigTablesLoop_ok cfg Hok []). cbn [app fst]. split; [reflexivity|].
    unfold IsFatal. rewrite existsb_exists. split.
    + intros (w & Hw & _). apply in_map_iff in Hw as (t & _ & Ht).
      apply filter_In in Ht as [Hin Hex]. apply negb_true_iff in Hex. eauto.
    + intros (t & Hin & Hex). exists (missingTableWarning t). split; [|reflexivity].
      apply in_map, filter_In. split; [exact Hin|]. now rewrite Hex.
  - intros pre t post err -> Hpre Ht. unfold validateConfigTables.
    now apply validateConfigTablesLoop_error.
Qed.

End Query.

(** X18 at a config with two tables that the database lacks, and at one
    whose second table cannot be queried. *)
Lemma validateConfigTables_spec_witness :
  validateConfigTables shopCatalog [cfg_users; cfg_events; cfg_places] =
    ([missingTableWarning cfg_events; missingTableWarning cfg_places], None) /\
  validateConfigTables shopCatalog
    [cfg_events; mkCfgTable "audit" "log" [] false ∅ []; cfg_users] =
    ([], Some "cannot validate table log.audit: cannot scan table: permission denied").
Proof.
  destruct (validateConfigTables_spec shopCatalog [cfg_users; cfg_events; cfg_places])
    as [Hok _].
  destruct (validateConfigTables_spec shopCatalog
              [cfg_events; mkCfgTable "audit" "log" [] false ∅ []; cfg_users])
    as [_ Hfail].
  split.
  - destruct Hok as [E _]; [|exact E].
    intros t [<-|[<-|[<-|[]]]]; reflexivity.
  - apply (Hfail [cfg_events] (mkCfgTable "audit" "log" [] false ∅ []) [cfg_users]
             "permission denied"); [reflexivity| |reflexivity].
    intros x [<-|[]]. reflexivity.
Defined.

(** *** Inherited conditions *)

Lemma HasPrefix_app_Contains (p q : string) :
  forall s, HasPrefix s (p +:+ q) = true -> Contains s q = true.
Proof.
  induction p as [|b p IH]; intros s H.
  - change ("" +:+ q) with q in H. destruct s; cbn [Contains]; rewrite H; reflexivity.
  - destruct s as [|a s]; simpl in H; [discriminate H|].
    apply andb_true_iff in H as [_ H]. apply IH in H.
    cbn [Contains]. rewrite H. apply orb_true_r.
Qed.

Lemma Contains_app (p q s : string) :
  Contains s (p +:+ q) = true -> Contains s q = true.
Proof.
  induction s as [|a s IH]; cbn [Contains]; intros H.
  - rewrite orb_false_r in H. apply HasPrefix_app_Contains in H. exact H.
  - apply orb_true_iff in H as [H|H].
    + apply HasPrefix_app_Contains in H. exact H.
    + apply IH in H. rewrite H. apply orb_true_r.
Qed.

Lemma replaceAllFrom_absent (s old new : string) :
  Contains s old = false -> replaceAllFrom 0 s old new = s.
Proof.
  induction s as [|a s IH]; cbn [Contains replaceAllFrom]; intros H; [reflexivity|].
  apply orb_false_iff in H as [Hp Hc]. rewrite Hp, (IH Hc). reflexivity.
Qed.

Lemma ReplaceAll_absent (s old new : string) :
  old <> "" -> Contains s old = false -> ReplaceAll s old new = s.
Proof.
  intros Hne Hc. unfold ReplaceAll.
  apply String.eqb_neq in Hne. rewrite Hne. now apply replaceAllFrom_absent.
Qed.

Lemma HasPrefix_split (old : string) :
  forall s, HasPrefix s old = true -> exists rest, s = old +:+ rest.
Proof.
  induction old as [|b old IH]; intros s H.
  - exists s. reflexivity.
  - destruct s as [|a s]; simpl in H; [discriminate H|].
    apply andb_true_iff in H as [Ha H]. apply Ascii.eqb_eq in Ha. subst b.
    destruct (IH s H) as [rest ->]. exists rest. reflexivity.
Qed.

Lemma replaceAllFrom_same (old : string) (s : string) :
  forall k pre, String.length pre = k ->
    replaceAllFrom k (pre +:+ s) old old = replaceAllFrom 0 s old old.
Proof.
  intros k pre <-. induction pre as [|a pre IH]; [reflexivity|]. exact IH.
Qed.

Lemma replaceAllFrom_id (old : string) :
  old <> "" -> forall n s, String.length s <= n -> replaceAllFrom 0 s old old = s.
Proof.
  intros Hne. induction n as [|n IH]; intros s Hlen.
  - destruct s; [reflexivity|simpl in Hlen; lia].
  - destruct s as [|a s]; [reflexivity|]. cbn [replaceAllFrom].
    destruct (HasPrefix (String a s) old) eqn:Hp.
    + destruct old as [|b old]; [contradiction|].
      apply HasPrefix_split in Hp as [rest Hrest]. simpl in Hrest.
      injection Hrest as <- ->.
      replace (String.length (String a old) - 1) with (String.length old) by (simpl; lia).
      rewrite (replaceAllFrom_same (String a old) rest (String.length old) old eq_refl).
      rewrite IH; [reflexivity|].
      simpl in Hlen. rewrite length_append in Hlen. lia.
    + rewrite IH; [reflexivity|simpl in Hlen; lia].
Qed.

Lemma ReplaceAll_same (s old : string) : old <> "" -> ReplaceAll s old old = s.
Proof.
  intros Hne. unfold ReplaceAll. pose proof Hne as Hne'.
  apply String.eqb_neq in Hne'. rewrite Hne'.
  now apply (replaceAllFrom_id old Hne (String.length s)).
Qed.

(** X19. The condition a propagated transformer inherits is the condition
    of the root transformer, unchanged, when the condition does not mention
    the root column as [record.] followed by its name, and also when the
    referencing column has the name of the root column. *)
Theorem inheritedWhen_unchanged (rootTr : transformersMapping) (refColName : string) :
  Contains (tr_When (tm_cfg rootTr))
    (TransformationConditionNamespaceRecord +:+ "." +:+ tm_columnName rootTr) = false \/
  refColName = tm_columnName rootTr ->
  inheritedWhen rootTr refColName = tr_When (tm_cfg rootTr) /\
  tr_When (cloneTransformer rootTr refColName) = tr_When (tm_cfg rootTr).
Proof.
  intros H.
  enough (E : inheritedWhen rootTr refColName = tr_When (tm_cfg rootTr)) by (split; exact E).
  unfold inheritedWhen.
  destruct (negb (String.eqb (tr_When (tm_cfg rootTr)) "")); [|reflexivity].
  unfold TransformationConditionNamespaceRecord, TransformationConditionNamespaceRawRecord in *.
  assert (Hne1 : forall c, "record" +:+ "." +:+ c <> "") by (intros c H'; discriminate H').
  assert (Hne2 : forall c, "raw_record" +:+ "." +:+ c <> "") by (intros c H'; discriminate H').
  destruct H as [Hc|Heq].
  - rewrite (ReplaceAll_absent _ _ _ (Hne1 _) Hc).
    apply ReplaceAll_absent; [apply Hne2|].
    destruct (Contains (tr_When (tm_cfg rootTr)) ("raw_record" +:+ "." +:+ tm_columnName rootTr))
      eqn:Hraw; [|reflexivity].
    apply (Contains_app "raw_" ("record." +:+ tm_columnName rootTr)) in Hraw.
    change ("record" +:+ "." +:+ tm_columnName rootTr)
      with ("record." +:+ tm_columnName rootTr) in Hc.
    rewrite Hraw in Hc. discriminate Hc.
  - subst refColName. rewrite (ReplaceAll_same _ _ (Hne1 _)), (ReplaceAll_same _ _ (Hne2 _)). reflexivity.
Qed.

(** X19 at a condition on another column. *)
Lemma inheritedWhen_unchanged_witness :
  inheritedWhen
    (mkTransformersMapping users "id" 0
       (mkTransformerConfig "Hash" true (<["column" := "id"]> (<["engine" := "hash"]> ∅))
          "record.active = true"))
    "user_id" = "record.active = true" /\
  tr_When
    (cloneTransformer
       (mkTransformersMapping users "id" 0
          (mkTransformerConfig "Hash" true (<["column" := "id"]> (<["engine" := "hash"]> ∅))
             "record.active = true"))
       "user_id") = "record.active = true".
Proof.
  apply (inheritedWhen_unchanged
           (mkTransformersMapping users "id" 0
              (mkTransformerConfig "Hash" true (<["column" := "id"]> (<["engine" := "hash"]> ∅))
                 "record.active = true"))
           "user_id").
  left. vm_compute. reflexivity.
Defined.


End ValidationFacts.

(** ** Type overrides of propagated bindings *)

Module OverrideFacts.
Import GoStrings GoStringsFacts Toolkit Entries Subset Domains Registry Transformers.
Import ConfigBuilder ConfigBuilderSpec ReferenceTerms OverrideTerms Fixtures MoreFixtures.
Import ConfigBuilderFacts ReferenceFacts.

Lemma getColumnTypeOverride_inherited (rootTableCfg : Domains.Table)
    (rootTrans : list transformersMapping) (rootTr : transformersMapping) :
  In rootTr rootTrans ->
  inheritedOverride rootTableCfg rootTrans
    (getColumnTypeOverride rootTableCfg (tm_columnName rootTr)).
Proof.
  intros Hin. unfold getColumnTypeOverride. cbv zeta.
  destruct (cfg_ColumnsTypeOverride rootTableCfg !! tm_columnName rootTr) as [v|] eqn:E;
    cbv [from_option id].
  - destruct (String.eqb v "") eqn:Ev; cbn [negb]; [now left|].
    right. exists rootTr, v. apply String.eqb_neq in Ev. auto.
  - now left.
Qed.

Lemma processRootTransformer_override (rootTableCfg : Domains.Table)
    (rootTrans : list transformersMapping) (allTrans : list Domains.Table)
    (r : Edge) (rootTr : transformersMapping) (st st' : walkState) :
  In rootTr rootTrans ->
  processRootTransformer r rootTableCfg allTrans st rootTr = Ok st' ->
  (forall tcm, In tcm st.1 ->
     inheritedOverride rootTableCfg rootTrans (cfg_ColumnsTypeOverride (tcm_config tcm)) /\
     cfg_SkipAutoAnonymize (tcm_config tcm) = []) ->
  (forall tcm, In tcm st'.1 ->
     inheritedOverride rootTableCfg rootTrans (cfg_ColumnsTypeOverride (tcm_config tcm)) /\
     cfg_SkipAutoAnonymize (tcm_config tcm) = []).
Proof.
  intros Hin. destruct st as [res ws]. unfold processRootTransformer. simpl.
  destruct (tl_keys (edge_to r) !! tm_attNum rootTr) as [key|]; [|intros H; discriminate H].
  destruct (checkTransformerAlreadyExists _ _ _ _ _); intros H; inversion H; subst; simpl.
  - auto.
  - intros Hres tcm Htcm. unfold addTransformerToReferenceTable in Htcm.
    destruct (IndexFunc res _) as [idx|].
    + apply alter_In_inv in Htcm as [Htcm|(x & Hx & ->)]; [now apply Hres|].
      simpl. apply Hres, list_elem_of_In. eapply list_elem_of_lookup_2. exact Hx.
    + apply in_app_or in Htcm as [Htcm|[<-|[]]]; [now apply Hres|].
      simpl. split; [|reflexivity]. now apply getColumnTypeOverride_inherited.
Qed.


Lemma shop_refs_override :
  getRefTables 10 users cfg_users_override graph_shop [cfg_users_override] =
    Ok ([mkTcm orders (mkCfgTable "public" "orders" [propagatedHash "user_id"] false
                         {["id" := "int8"]} []);
         mkTcm order_items (mkCfgTable "public" "order_items" [propagatedHash "order_id"] false
                              {["id" := "int8"]} []);
         mkTcm comments (mkCfgTable "public" "comments" [propagatedHash "user_id"] false
                           {["id" := "int8"]} [])], []).
Proof. vm_compute. reflexivity. Qed.


End OverrideFacts.
